(** * timeutil: the cron-style ScheduledTicker and the Scheduler loop

    A shallow embedding of the package [timeutil] of go-utils
    (scheduler, tickers, schedule parser and formatter), together with the
    part of Go's [time], [strings] and [strconv] packages that it calls. *)

From Stdlib Require Import ZArith List String Ascii Bool Lia Sorted FinFun.
From Stdlib Require Import DecimalString.
Import ListNotations.

Local Open Scope string_scope.
Local Open Scope Z_scope.

(** ** Go's [time] package

    A [time.Time] is an instant (nanoseconds since the Unix epoch) together
    with a [*time.Location]. A location has the offset of its first zone
    and its zone transitions in order of time, as in the [zone] and [tx]
    tables of Go; a location without transitions has one offset for good
    ([time.UTC], [time.FixedZone]). The rule Go applies past the last
    transition of a table (the [extend] string) is not modelled: the last
    zone stays in force. Integers are unbounded: the int64 range of
    [time.Duration] and the year range of [time.Time] are not modelled. *)

Module GoTime.

Definition Duration := Z.

Definition Nanosecond : Duration := 1.
Definition Second : Duration := 1000000000.
Definition Minute : Duration := 60 * Second.
Definition Hour : Duration := 60 * Minute.

(** [zoneTrans]: at the instant [when] (Unix seconds) the zone with the
    given [offset] (seconds east of UTC) comes into force. Go keeps the
    index of the zone in [Location.zone]; the offset is all the code
    modelled here reads of it. *)
Record zoneTrans := mkZoneTrans { when : Z; offset : Z }.

(** [Location]: [zoneOffset] is the offset in force before the first
    transition, [tx] the transitions in ascending order of [when]. *)
Record Location := mkLocation { zoneOffset : Z; tx : list zoneTrans }.

Definition UTC : Location := mkLocation 0 [].

(** [alpha] and [omega]: the beginning and the end of time. *)
Definition alpha : Z := - 2 ^ 63.
Definition omega : Z := 2 ^ 63 - 1.

(** [(l *Location) lookup(sec)]: the offset in force at the instant [sec],
    with the instants at which that zone begins and ends. Go finds the
    last transition at or before [sec] by binary search; on a table in
    ascending order that is the walk below. *)
Fixpoint lookupFrom (off start : Z) (tx : list zoneTrans) (sec : Z)
    : Z * Z * Z :=
  match tx with
  | [] => (off, start, omega)
  | t :: rest =>
      if sec <? when t then (off, start, when t)
      else lookupFrom (offset t) (when t) rest sec
  end.

Definition lookup (l : Location) (sec : Z) : Z * Z * Z :=
  lookupFrom (zoneOffset l) alpha (tx l) sec.

Definition offsetAt (l : Location) (sec : Z) : Z := fst (fst (lookup l sec)).

Record Time := mkTime { unixNano : Z; Loc : Location }.

Definition Month := Z.
Definition January : Month := 1.
Definition February : Month := 2.
Definition March : Month := 3.
Definition April : Month := 4.
Definition May : Month := 5.
Definition June : Month := 6.
Definition July : Month := 7.
Definition August : Month := 8.
Definition September : Month := 9.
Definition October : Month := 10.
Definition November : Month := 11.
Definition December : Month := 12.

Definition Weekday := Z.
Definition Sunday : Weekday := 0.
Definition Monday : Weekday := 1.
Definition Tuesday : Weekday := 2.
Definition Wednesday : Weekday := 3.
Definition Thursday : Weekday := 4.
Definition Friday : Weekday := 5.
Definition Saturday : Weekday := 6.

Definition secondsPerMinute := 60.
Definition secondsPerHour := 3600.
Definition secondsPerDay := 86400.
Definition daysPer400Years := 146097.
Definition daysPer100Years := 36524.
Definition daysPer4Years := 1461.

(** Days from 0001-01-01 to 1970-01-01. *)
Definition unixEpochDays := 719162.

Definition isLeap (year : Z) : bool :=
  (year mod 4 =? 0) && (negb (year mod 100 =? 0) || (year mod 400 =? 0)).

(** [daysBefore m] is the number of days in a non-leap year before month
    [m + 1]; [daysBefore 12 = 365]. *)
Definition daysBefore (m : Z) : Z :=
  nth (Z.to_nat m) [0; 31; 59; 90; 120; 151; 181; 212; 243; 273; 304; 334; 365] 0.

(** [norm hi lo base] carries the overflow (or underflow) of [lo] into
    [hi], leaving [0 <= lo < base]. *)
Definition norm (hi lo base : Z) : Z * Z := (hi + lo / base, lo mod base).

(** Days from 0001-01-01 to January 1 of [year]. *)
Definition daysSinceYear1 (year : Z) : Z :=
  let y := year - 1 in 365 * y + y / 4 - y / 100 + y / 400.

(** Days from the Unix epoch to the given civil date; [day] may lie outside
    the month and simply counts on. [1 <= month <= 12]. *)
Definition dateToDays (year month day : Z) : Z :=
  daysSinceYear1 year - unixEpochDays
  + daysBefore (month - 1)
  + (if isLeap year && (March <=? month) then 1 else 0)
  + (day - 1).

(** The end of [time.Date]: from the wall-clock seconds [unix] (counted
    as if the zone were UTC) to the instant. The offset is looked up at
    [unix] itself; if it is not zero and the instant it gives lies
    outside the zone it was found in, the offset is looked up again at
    that instant. *)
Definition toInstant (loc : Location) (unix : Z) : Z :=
  let '(off, start, end_) := lookup loc unix in
  if off =? 0 then unix
  else
    let utc := unix - off in
    let off :=
      if (utc <? start) || (end_ <=? utc) then offsetAt loc utc else off in
    unix - off.

(** [time.Date]. *)
Definition Date (year : Z) (month : Month) (day hour min sec nsec : Z)
    (loc : Location) : Time :=
  let '(year, m) := norm year (month - 1) 12 in
  let month := m + 1 in
  let '(sec, nsec) := norm sec nsec 1000000000 in
  let '(min, sec) := norm min sec 60 in
  let '(hour, min) := norm hour min 60 in
  let '(day, hour) := norm day hour 24 in
  let d := dateToDays year month day in
  let abs := d * secondsPerDay
             + hour * secondsPerHour + min * secondsPerMinute + sec in
  let unix := toInstant loc abs in
  mkTime (unix * 1000000000 + nsec) loc.

(** Seconds since the Unix epoch, and the same on the local clock: the
    offset is the one in force at the instant. *)
Definition Unix (t : Time) : Z := unixNano t / 1000000000.
Definition localSec (t : Time) : Z := Unix t + offsetAt (Loc t) (Unix t).
Definition localDays (t : Time) : Z := localSec t / secondsPerDay.

Definition Nanosecond_of (t : Time) : Z := unixNano t mod 1000000000.
Definition Second_of (t : Time) : Z := localSec t mod secondsPerMinute.
Definition Minute_of (t : Time) : Z :=
  (localSec t mod secondsPerHour) / secondsPerMinute.
Definition Hour_of (t : Time) : Z :=
  (localSec t mod secondsPerDay) / secondsPerHour.

(** [t.Clock()] *)
Definition Clock (t : Time) : Z * Z * Z := (Hour_of t, Minute_of t, Second_of t).

(** [t.Weekday()]: 1970-01-01 was a Thursday. *)
Definition Weekday_of (t : Time) : Weekday := (localDays t + Thursday) mod 7.

(** Year and day of the year (from 0) of a day counted from 0001-01-01,
    by 400-, 100-, 4- and 1-year cycles. *)
Definition yearDay (d0 : Z) : Z * Z :=
  let n400 := d0 / daysPer400Years in
  let d := d0 mod daysPer400Years in
  let n100 := d / daysPer100Years in
  let n100 := n100 - n100 / 4 in
  let d := d - daysPer100Years * n100 in
  let n4 := d / daysPer4Years in
  let d := d mod daysPer4Years in
  let n1 := d / 365 in
  let n1 := n1 - n1 / 4 in
  let d := d - 365 * n1 in
  (1 + 400 * n400 + 100 * n100 + 4 * n4 + n1, d).

(** Month and day of the month of a day of the year. *)
Definition monthDay (leap : bool) (yday : Z) : Month * Z :=
  if leap && (yday =? 31 + 29 - 1) then (February, 29)
  else
    let day := if leap && (31 + 29 - 1 <? yday) then yday - 1 else yday in
    let month := day / 31 in
    let end_ := daysBefore (month + 1) in
    if end_ <=? day then (month + 2, day - end_ + 1)
    else (month + 1, day - daysBefore month + 1).

(** The civil date of a day counted from the Unix epoch. *)
Definition civil (days : Z) : Z * Month * Z :=
  let '(year, yday) := yearDay (days + unixEpochDays) in
  let '(month, day) := monthDay (isLeap year) yday in
  (year, month, day).

(** [t.Date()] *)
Definition Date_of (t : Time) : Z * Month * Z := civil (localDays t).

Definition Year_of (t : Time) : Z := fst (fst (Date_of t)).
Definition Month_of (t : Time) : Month := snd (fst (Date_of t)).
Definition Day_of (t : Time) : Z := snd (Date_of t).

(** [t.Add(d)] *)
Definition Add (t : Time) (d : Duration) : Time :=
  mkTime (unixNano t + d) (Loc t).

(** [t.Sub(u)], [t.After(u)] *)
Definition Sub (t u : Time) : Duration := unixNano t - unixNano u.
Definition After (t u : Time) : Prop := unixNano u < unixNano t.

(** [t.In(loc)]: the same instant, shown in [loc]. *)
Definition In_ (t : Time) (loc : Location) : Time := mkTime (unixNano t) loc.

Definition daysIn (year : Z) (month : Month) : Z :=
  if (month =? February) && isLeap year then 29
  else daysBefore month - daysBefore (month - 1).

(** Check of one day of the year: the month and day found for it are a
    date of the calendar and count back to the same day of the year. *)
Definition yearDayOk (leap : bool) (yd : Z) : bool :=
  let '(m, d) := monthDay leap yd in
  (1 <=? m) && (m <=? 12) && (1 <=? d)
  && (d <=? (if (m =? February) && leap then 29
             else daysBefore m - daysBefore (m - 1)))
  && (daysBefore (m - 1) + (if leap && (March <=? m) then 1 else 0) + (d - 1)
      =? yd).

Fixpoint allBelow (n : nat) (p : Z -> bool) : bool :=
  match n with
  | O => true
  | S k => p (Z.of_nat k) && allBelow k p
  end.

End GoTime.

(** ** Go's [strings], [strconv] and [fmt], as far as the package uses them *)

Module GoStrings.

(** [strings.Split(s, sep)] for a one-byte separator: always at least one
    piece; the empty string gives one empty piece. *)
Fixpoint Split (s : string) (sep : ascii) : list string :=
  match s with
  | EmptyString => [EmptyString]
  | String c r =>
      if Ascii.eqb c sep then EmptyString :: Split r sep
      else match Split r sep with
           | h :: t => String c h :: t
           | [] => [String c EmptyString]
           end
  end.

(** [strings.HasSuffix], [strings.TrimSuffix] *)
Fixpoint HasSuffix (s suffix : string) : bool :=
  String.eqb s suffix
  || match s with
     | EmptyString => false
     | String _ r => HasSuffix r suffix
     end.

Definition TrimSuffix (s suffix : string) : string :=
  if HasSuffix s suffix
  then substring 0 (String.length s - String.length suffix) s
  else s.

(** The two errors of [strconv]: [ErrSyntax] and [ErrRange]. *)
Inductive NumError := ErrSyntax | ErrRange.

Definition digit (c : ascii) : option Z :=
  let n := Z.of_nat (nat_of_ascii c) in
  if (48 <=? n) && (n <=? 57) then Some (n - 48) else None.

Definition maxUint64 : Z := 2 ^ 64 - 1.

(** The loop of [strconv.ParseUint] in base 10: a byte that is no digit is
    a syntax error; a value that leaves 64 bits is a range error, found as
    soon as it is reached. *)
Fixpoint parseUint (n : Z) (s : string) : Z + NumError :=
  match s with
  | EmptyString => inl n
  | String c r =>
      match digit c with
      | None => inr ErrSyntax
      | Some d =>
          if maxUint64 / 10 + 1 <=? n then inr ErrRange
          else
            let n1 := n * 10 + d in
            if maxUint64 <? n1 then inr ErrRange else parseUint n1 r
      end
  end.

(** [strconv.Atoi]: an optional sign, then one or more decimal digits;
    the value has to fit Go's 64-bit [int]. *)
Definition Atoi (s : string) : Z + NumError :=
  let '(neg, body) :=
    match s with
    | String "+" r => (false, r)
    | String "-" r => (true, r)
    | _ => (false, s)
    end in
  match body with
  | EmptyString => inr ErrSyntax
  | _ =>
      match parseUint 0 body with
      | inr err => inr err
      | inl un =>
          if negb neg && (2 ^ 63 <=? un) then inr ErrRange
          else if neg && (2 ^ 63 <? un) then inr ErrRange
          else inl (if neg then - un else un)
      end
  end.

(** [fmt.Sprint] of an [int]: its decimal form. *)
Definition Sprint (n : Z) : string := NilZero.string_of_int (Z.to_int n).

(** [sort.Slice(nums, func(i, j int) bool { return nums[i] < nums[j] })]:
    the ascending arrangement of the slice. *)
Fixpoint insert (x : Z) (l : list Z) : list Z :=
  match l with
  | [] => [x]
  | y :: r => if x <=? y then x :: l else y :: insert x r
  end.

Fixpoint sortSlice (l : list Z) : list Z :=
  match l with
  | [] => []
  | x :: r => insert x (sortSlice r)
  end.

(** Whether the byte [c] occurs in [s], and whether [sub] occurs in [s]
    ([strings.Contains]). *)
Fixpoint hasChar (c : ascii) (s : string) : bool :=
  match s with
  | EmptyString => false
  | String c' r => Ascii.eqb c' c || hasChar c r
  end.

Fixpoint Contains (s sub : string) : bool :=
  prefix sub s
  || match s with
     | EmptyString => false
     | String _ r => Contains r sub
     end.

End GoStrings.

(** ** Package [sliceutil] *)

Module sliceutil.

(** Modelled from the spec: [sliceutil.Unique], which [parsePart] calls and
    whose source is in package [sliceutil], outside the sources embedded
    here. The values of a field are "parsed, sorted, deduplicated" and the
    stored sets "contain no duplicates": [Unique] keeps the first
    occurrence of every value, in order. *)
Fixpoint Unique (l : list Z) : list Z :=
  match l with
  | [] => []
  | x :: r => x :: filter (fun y => negb (y =? x)) (Unique r)
  end.

End sliceutil.


(** ** Package [timeutil]: the scheduled ticker *)

Module timeutil.

Import GoTime GoStrings.

Definition secondsInMinute := 60.
Definition minutesInHour := 60.
Definition hoursInDay := 24.
Definition daysInWeek := 7.
Definition maxDaysInMonth := 31.
Definition monthsInYear := 12.

(** [scheduleMaxSleepTime = 15 * time.Minute] *)
Definition scheduleMaxSleepTime : Duration := 15 * Minute.

(** [len(l)] as an [int] *)
Definition len {A : Type} (l : list A) : Z := Z.of_nat (List.length l).

(** [l[0]]; the callers only index a slice they found non-empty. *)
Definition first (l : list Z) : Z := nth 0 l 0.

(** The fields are sorted and unique; an empty (or nil) slice stands for
    every value. *)
Record ScheduledTicker := mkScheduledTicker {
  seconds : list Z;
  minutes : list Z;
  hours : list Z;
  days : list Z;
  months : list Month;
  weekdays : list Weekday
}.

(** The zero value [&ScheduledTicker{}]. *)
Definition zeroTicker : ScheduledTicker := mkScheduledTicker [] [] [] [] [] [].

(** *** Errors *)

Inductive Field := FSecond | FMinute | FHour | FDay | FMonth | FWeekday.

Definition fieldName (f : Field) : string :=
  match f with
  | FSecond => "second"
  | FMinute => "minute"
  | FHour => "hour"
  | FDay => "day"
  | FMonth => "month"
  | FWeekday => "weekday"
  end.

(** The error values that [parse] builds with [fmt.Errorf]. *)
Inductive error :=
| ErrSpecEmpty                                (* "timeutil: invalid spec: spec is empty" *)
| ErrSpec (spec : string)                     (* "timeutil: invalid spec: %s" *)
| ErrWrap (f : Field) (num : string) (e : NumError)  (* "timeutil: invalid F: %w" *)
| ErrValue (f : Field) (s : string).          (* "timeutil: invalid F: %s" *)

Definition numErrorText (e : NumError) : string :=
  match e with
  | ErrSyntax => "invalid syntax"
  | ErrRange => "value out of range"
  end.

(** [err.Error()]; [quote] is [strconv.Quote], which [*strconv.NumError]
    applies to the text it could not convert. *)
Definition Error (quote : string -> string) (e : error) : string :=
  match e with
  | ErrSpecEmpty => "timeutil: invalid spec: spec is empty"
  | ErrSpec spec => "timeutil: invalid spec: " ++ spec
  | ErrWrap f num e =>
      "timeutil: invalid " ++ fieldName f ++ ": "
      ++ "strconv.Atoi: parsing " ++ quote num ++ ": " ++ numErrorText e
  | ErrValue f s => "timeutil: invalid " ++ fieldName f ++ ": " ++ s
  end.

(** *** Parsing *)

Definition parseSecond (s : string) : Z + error :=
  match Atoi s with
  | inr err => inr (ErrWrap FSecond s err)
  | inl i =>
      if (i <? 0) || (secondsInMinute <=? i) then inr (ErrValue FSecond s)
      else inl i
  end.

Definition parseMinute (s : string) : Z + error :=
  match Atoi s with
  | inr err => inr (ErrWrap FMinute s err)
  | inl i =>
      if (i <? 0) || (minutesInHour <=? i) then inr (ErrValue FMinute s)
      else inl i
  end.

Definition parseHour (s : string) : Z + error :=
  match Atoi s with
  | inr err => inr (ErrWrap FHour s err)
  | inl i =>
      if (i <? 0) || (hoursInDay <=? i) then inr (ErrValue FHour s)
      else inl i
  end.

Definition parseDay (s : string) : Z + error :=
  match Atoi s with
  | inr err => inr (ErrWrap FDay s err)
  | inl i =>
      if (i <=? 0) || (maxDaysInMonth <? i) then inr (ErrValue FDay s)
      else inl i
  end.

Definition oneOf (s : string) (l : list string) : bool :=
  existsb (String.eqb s) l.

Definition parseMonth (s : string) : Month + error :=
  if oneOf s ["1"; "jan"; "january"] then inl January
  else if oneOf s ["2"; "feb"; "february"] then inl February
  else if oneOf s ["3"; "mar"; "march"] then inl March
  else if oneOf s ["4"; "apr"; "april"] then inl April
  else if oneOf s ["5"; "may"] then inl May
  else if oneOf s ["6"; "jun"; "june"] then inl June
  else if oneOf s ["7"; "jul"; "july"] then inl July
  else if oneOf s ["8"; "aug"; "august"] then inl August
  else if oneOf s ["9"; "sep"; "september"] then inl September
  else if oneOf s ["10"; "oct"; "october"] then inl October
  else if oneOf s ["11"; "nov"; "november"] then inl November
  else if oneOf s ["12"; "dec"; "december"] then inl December
  else inr (ErrValue FMonth s).

Definition parseWeekday (s : string) : Weekday + error :=
  if oneOf s ["sun"; "sunday"] then inl Sunday
  else if oneOf s ["mon"; "monday"] then inl Monday
  else if oneOf s ["tue"; "tuesday"] then inl Tuesday
  else if oneOf s ["wed"; "wednesday"] then inl Wednesday
  else if oneOf s ["thu"; "thursday"] then inl Thursday
  else if oneOf s ["fri"; "friday"] then inl Friday
  else if oneOf s ["sat"; "saturday"] then inl Saturday
  else inr (ErrValue FWeekday s).

(** The loop of [parsePart]: convert the pieces in order, stopping at the
    first error. *)
Fixpoint parseAll (fn : string -> Z + error) (parts : list string)
    : list Z + error :=
  match parts with
  | [] => inl []
  | part :: rest =>
      match fn part with
      | inr err => inr err
      | inl num =>
          match parseAll fn rest with
          | inr err => inr err
          | inl nums => inl (num :: nums)
          end
      end
  end.

Definition parsePart (part suffix : string) (fn : string -> Z + error)
    : list Z + error :=
  let part := TrimSuffix part suffix in
  if String.eqb part "*" then inl []
  else
    match parseAll fn (Split part ",") with
    | inr err => inr err
    | inl nums =>
        if len nums =? 1 then inl nums
        else inl (sliceutil.Unique (sortSlice nums))
    end.

Definition setSeconds (s : ScheduledTicker) (v : list Z) :=
  mkScheduledTicker v (minutes s) (hours s) (days s) (months s) (weekdays s).
Definition setMinutes (s : ScheduledTicker) (v : list Z) :=
  mkScheduledTicker (seconds s) v (hours s) (days s) (months s) (weekdays s).
Definition setHours (s : ScheduledTicker) (v : list Z) :=
  mkScheduledTicker (seconds s) (minutes s) v (days s) (months s) (weekdays s).
Definition setDays (s : ScheduledTicker) (v : list Z) :=
  mkScheduledTicker (seconds s) (minutes s) (hours s) v (months s) (weekdays s).
Definition setMonths (s : ScheduledTicker) (v : list Month) :=
  mkScheduledTicker (seconds s) (minutes s) (hours s) (days s) v (weekdays s).
Definition setWeekdays (s : ScheduledTicker) (v : list Weekday) :=
  mkScheduledTicker (seconds s) (minutes s) (hours s) (days s) (months s) v.

(** [if len(parts) >= i+1 { if s.f, err = parsePart(parts[i], ...); err != nil
    { return err } }]: the assignment happens also when there is an error
    (the field then becomes nil). *)
Definition field (present : bool) (r : list Z + error)
    (set : ScheduledTicker -> list Z -> ScheduledTicker)
    (k : ScheduledTicker -> ScheduledTicker * option error)
    (s : ScheduledTicker) : ScheduledTicker * option error :=
  if present then
    match r with
    | inr err => (set s [], Some err)
    | inl v => k (set s v)
    end
  else k s.

(** [if len(s.f) == n { s.f = nil }] *)
Definition collapse (n : Z) (l : list Z) : list Z :=
  if len l =? n then [] else l.

Definition collapseAll (s : ScheduledTicker) : ScheduledTicker :=
  mkScheduledTicker
    (collapse secondsInMinute (seconds s))
    (collapse minutesInHour (minutes s))
    (collapse hoursInDay (hours s))
    (collapse maxDaysInMonth (days s))
    (collapse monthsInYear (months s))
    (collapse daysInWeek (weekdays s)).

(** [(s *ScheduledTicker) parse]: the receiver is updated in place, so the
    function takes the ticker before the call and gives the ticker after
    it, with the error. *)
Definition parse (s : ScheduledTicker) (spec : string)
    : ScheduledTicker * option error :=
  if Z.of_nat (String.length spec) =? 0 then (s, Some ErrSpecEmpty)
  else
    let parts := Split spec " " in
    if 6 <? len parts then (s, Some (ErrSpec spec))
    else
      let part i := nth i parts EmptyString in
      field true (parsePart (part 0%nat) "s" parseSecond) setSeconds
        (field (2 <=? len parts) (parsePart (part 1%nat) "m" parseMinute) setMinutes
          (field (3 <=? len parts) (parsePart (part 2%nat) "h" parseHour) setHours
            (field (4 <=? len parts) (parsePart (part 3%nat) "d" parseDay) setDays
              (field (5 <=? len parts) (parsePart (part 4%nat) "" parseMonth) setMonths
                (field (6 <=? len parts) (parsePart (part 5%nat) "" parseWeekday) setWeekdays
                  (fun s => (collapseAll s, None)))))))
        s.

(** [NewScheduledTicker] *)
Definition NewScheduledTicker (spec : string) : ScheduledTicker + error :=
  match parse zeroTicker spec with
  | (_, Some err) => inr err
  | (s, None) => inl s
  end.

(** *** Formatting *)

(** The loop shared by [writeNums], [writeWeekdays] and [writeMonths]:
    a comma before every element but the first. *)
Fixpoint writeItems (show : Z -> string) (i : nat) (nums : list Z) : string :=
  match nums with
  | [] => EmptyString
  | num :: rest =>
      (if (0 <? i)%nat then "," else EmptyString)
      ++ show num ++ writeItems show (S i) rest
  end.

Definition writeNums (nums : list Z) : string :=
  if len nums =? 0 then "*" else writeItems Sprint 0 nums.

Definition weekdayName (weekday : Weekday) : string :=
  match weekday with
  | 0 => "sun"
  | 1 => "mon"
  | 2 => "tue"
  | 3 => "wed"
  | 4 => "thu"
  | 5 => "fri"
  | 6 => "sat"
  | _ => EmptyString
  end.

Definition writeWeekdays (weekdays : list Weekday) : string :=
  if len weekdays =? 0 then "*" else writeItems weekdayName 0 weekdays.

Definition monthName (month : Month) : string :=
  match month with
  | 1 => "jan"
  | 2 => "feb"
  | 3 => "mar"
  | 4 => "apr"
  | 5 => "may"
  | 6 => "jun"
  | 7 => "jul"
  | 8 => "aug"
  | 9 => "sep"
  | 10 => "oct"
  | 11 => "nov"
  | 12 => "dec"
  | _ => EmptyString
  end.

Definition writeMonths (months : list Month) : string :=
  if len months =? 0 then "*" else writeItems monthName 0 months.

(** [(s *ScheduledTicker) String] *)
Definition String_ (s : ScheduledTicker) : string :=
  writeNums (seconds s) ++ "s "
  ++ writeNums (minutes s) ++ "m "
  ++ writeNums (hours s) ++ "h "
  ++ writeNums (days s) ++ "d "
  ++ writeMonths (months s) ++ " "
  ++ writeWeekdays (weekdays s).

(** *** Matching *)

(** The loop [for _, v := range l { if v == x { return true } }; return
    false] behind a test for the empty slice. *)
Definition matches (l : list Z) (x : Z) : bool :=
  if len l =? 0 then true else existsb (fun v => v =? x) l.

Definition matchSecond (s : ScheduledTicker) (at_ : Time) : bool :=
  matches (seconds s) (Second_of at_).
Definition matchMinute (s : ScheduledTicker) (at_ : Time) : bool :=
  matches (minutes s) (Minute_of at_).
Definition matchHour (s : ScheduledTicker) (at_ : Time) : bool :=
  matches (hours s) (Hour_of at_).
Definition matchDay (s : ScheduledTicker) (at_ : Time) : bool :=
  matches (days s) (Day_of at_).
Definition matchMonth (s : ScheduledTicker) (at_ : Time) : bool :=
  matches (months s) (Month_of at_).
Definition matchWeekday (s : ScheduledTicker) (at_ : Time) : bool :=
  matches (weekdays s) (Weekday_of at_).

(** *** The steps of [Next]

    Every step ends in one of two calls of package [time]: [time.Date],
    which builds the time from calendar fields, or [at.Add], which adds a
    duration to [at]. A [Jump] records which call it is and its arguments;
    [jump] performs it. *)

Inductive Jump :=
| ByDate (year : Z) (month : Month) (day hour min sec nsec : Z)
| ByAdd (d : Duration).

Definition jump (at_ : Time) (j : Jump) : Time :=
  match j with
  | ByDate y m d hh mm ss ns => Date y m d hh mm ss ns (Loc at_)
  | ByAdd d => Add at_ d
  end.

(** [for _, v := range l { if v > x { return f(v) } }] *)
Definition firstAbove (l : list Z) (x : Z) : option Z :=
  find (fun v => x <? v) l.

Definition nextMonthJump (s : ScheduledTicker) (at_ : Time) : Jump :=
  let '(y, m, _) := Date_of at_ in
  if len (months s) =? 0 then ByDate (y + 1) 1 1 0 0 0 0
  else
    match firstAbove (months s) m with
    | Some v => ByDate y v 1 0 0 0 0
    | None => ByDate (y + 1) (first (months s)) 1 0 0 0 0
    end.

Definition nextDayJump (s : ScheduledTicker) (at_ : Time) : Jump :=
  let '(y, m, d) := Date_of at_ in
  if len (days s) =? 0 then ByDate y m (d + 1) 0 0 0 0
  else
    match firstAbove (days s) d with
    | Some v => ByDate y m v 0 0 0 0
    | None => ByDate y (m + 1) (first (days s)) 0 0 0 0
    end.

Definition nextHourJump (s : ScheduledTicker) (at_ : Time) : Jump :=
  let '(hrs, min, sec) := Clock at_ in
  let off := min * Minute + sec * Second + Nanosecond_of at_ in
  if len (hours s) =? 0 then ByAdd (Hour - off)
  else
    match firstAbove (hours s) hrs with
    | Some v => ByAdd ((v - hrs) * Hour - off)
    | None => ByAdd ((hoursInDay - hrs + first (hours s)) * Hour - off)
    end.

Definition nextMinuteJump (s : ScheduledTicker) (at_ : Time) : Jump :=
  let off := Second_of at_ * Second + Nanosecond_of at_ in
  if len (minutes s) =? 0 then ByAdd (Minute - off)
  else
    let min := Minute_of at_ in
    match firstAbove (minutes s) min with
    | Some v => ByAdd ((v - min) * Minute - off)
    | None => ByAdd ((minutesInHour - min + first (minutes s)) * Minute - off)
    end.

Definition nextSecondJump (s : ScheduledTicker) (at_ : Time) : Jump :=
  let off := Nanosecond_of at_ in
  if len (seconds s) =? 0 then ByAdd (Second - off)
  else
    let sec := Second_of at_ in
    match firstAbove (seconds s) sec with
    | Some v => ByAdd ((v - sec) * Second - off)
    | None => ByAdd ((secondsInMinute - sec + first (seconds s)) * Second - off)
    end.

Definition nextMonth s at_ := jump at_ (nextMonthJump s at_).
Definition nextDay s at_ := jump at_ (nextDayJump s at_).
Definition nextHour s at_ := jump at_ (nextHourJump s at_).
Definition nextMinute s at_ := jump at_ (nextMinuteJump s at_).
Definition nextSecond s at_ := jump at_ (nextSecondJump s at_).

(** The five steps, for statements about all of them. *)
Inductive Step := StepMonth | StepDay | StepHour | StepMinute | StepSecond.

Definition stepJump (k : Step) : ScheduledTicker -> Time -> Jump :=
  match k with
  | StepMonth => nextMonthJump
  | StepDay => nextDayJump
  | StepHour => nextHourJump
  | StepMinute => nextMinuteJump
  | StepSecond => nextSecondJump
  end.

(** The [for] loop of [Next]. It need not end (a schedule such as day 31
    of February is never met), so the loop runs on [fuel]: one unit for
    each iteration, [None] when the fuel is used up. *)
Fixpoint nextLoop (fuel : nat) (s : ScheduledTicker) (at_ : Time)
    : option Time :=
  match fuel with
  | O => None
  | S fuel =>
      if negb (matchMonth s at_) then nextLoop fuel s (nextMonth s at_)
      else if negb (matchWeekday s at_) || negb (matchDay s at_)
      then nextLoop fuel s (nextDay s at_)
      else if negb (matchHour s at_) then nextLoop fuel s (nextHour s at_)
      else if negb (matchMinute s at_) then nextLoop fuel s (nextMinute s at_)
      else if negb (matchSecond s at_) then nextLoop fuel s (nextSecond s at_)
      else Some at_
  end.

(** [(s *ScheduledTicker) Next] *)
Definition Next (fuel : nat) (s : ScheduledTicker) (at_ : Time) : option Time :=
  nextLoop fuel s (nextSecond s at_).

(** [(t *IntervalTicker) Next] *)
Record IntervalTicker := mkIntervalTicker { interval : Duration }.

Definition IntervalNext (t : IntervalTicker) (at_ : Time) : Time :=
  Add at_ (interval t).

(** *** The scheduler loop

    [(s *Scheduler) scheduler] runs in a goroutine of its own. It is
    modelled as a machine that moves when its environment lets it: the
    clock is read, a timer fires, the context is found done, a consumer
    receives from the tick channel. Cancelling the context is a move of
    the environment too. *)

Section Scheduler.

(** [s.n], a provider whose [Next] depends on its argument only
    ([IntervalTicker], [ScheduledTicker]); [None] when [Next] does not
    return. [s.tz]. *)
Variable next : Time -> option Time.
Variable tz : Location.

Inductive Event :=
| Sleep (timer : Duration)   (* time.NewTimer(timer) inside sleep *)
| Tick (t : Time)            (* s.c <- n went through *)
| Close.                     (* the deferred close(s.c) *)

Inductive Loop :=
| Starting                                  (* line 123, before the first Next *)
| AtUntil (n : Time)                        (* line 125, about to read the clock *)
| Sleeping (n : Time) (d timer : Duration)  (* inside the select of sleep *)
| Sending (n : Time) (d : Duration)         (* line 138, blocked in s.c <- n *)
| InNext (n : Time)                         (* inside a Next that does not return *)
| Exited.                                   (* returned; the channel is closed *)

Inductive Input :=
| Now (now : Z)    (* the reading of the wall clock, in Unix nanoseconds *)
| TimerFires       (* <-t.C is chosen *)
| CtxDone          (* <-ctx.Done() is chosen *)
| Receive          (* a consumer receives from the tick channel *)
| Cancel.          (* the context is cancelled *)

Record Config := mkConfig { cancelled : bool; loop : Loop }.

(** Entering [sleep(ctx, d)]: with [d <= 0] it returns at once, with
    [ctx.Err() == nil]; otherwise it starts a timer and waits. *)
Inductive SleepEntry := Returned (ok : bool) | Waiting (timer : Duration).

Definition sleepEnter (cancelled : bool) (d : Duration) : SleepEntry :=
  if d <=? 0 then Returned (negb cancelled) else Waiting d.

(** The [select] of [sleep]: the result of [sleep] for the case chosen,
    if that case is ready. *)
Definition sleepSelect (cancelled : bool) (i : Input) : option bool :=
  match i with
  | TimerFires => Some true
  | CtxDone => if cancelled then Some false else None
  | _ => None
  end.

(** After [s.c <- n]: [n = s.n.Next(n.In(s.tz))]. *)
Definition afterSend (n : Time) : Loop :=
  match next (In_ n tz) with
  | Some n' => AtUntil n'
  | None => InNext n
  end.

(** What the loop does once [sleep] has returned [ok], having computed
    [d] for the tick [n]. *)
Definition afterSleep (n : Time) (d : Duration) (ok : bool)
    : Loop * list Event :=
  if negb ok then (Exited, [Close])
  else if scheduleMaxSleepTime <=? d then (AtUntil n, [])
  else (Sending n d, []).

Definition step (c : Config) (i : Input) : option (Config * list Event) :=
  let to l := Some (mkConfig (cancelled c) (fst l), snd l) in
  match i, loop c with
  | Cancel, l => Some (mkConfig true l, [])
  | Now now, Starting =>
      match next (mkTime now tz) with
      | Some n => to (AtUntil n, [])
      | None => to (InNext (mkTime now tz), [])
      end
  | Now now, AtUntil n =>
      let d := unixNano n - now in
      let arg := if scheduleMaxSleepTime <=? d then scheduleMaxSleepTime else d in
      match sleepEnter (cancelled c) arg with
      | Returned ok => to (afterSleep n d ok)
      | Waiting timer => to (Sleeping n d timer, [Sleep timer])
      end
  | (TimerFires | CtxDone), Sleeping n d _ =>
      match sleepSelect (cancelled c) i with
      | Some ok => to (afterSleep n d ok)
      | None => None
      end
  | Receive, Sending n _ => to (afterSend n, [Tick n])
  | _, _ => None
  end.

(** A run: the moves of a list of inputs, one after the other; [None]
    when one of them is not possible. *)
Fixpoint run (c : Config) (inputs : list Input)
    : option (Config * list Event) :=
  match inputs with
  | [] => Some (c, [])
  | i :: rest =>
      match step c i with
      | None => None
      | Some (c', evs) =>
          match run c' rest with
          | None => None
          | Some (c'', evs') => Some (c'', (evs ++ evs')%list)
          end
      end
  end.

Definition ticks (evs : list Event) : list Time :=
  flat_map (fun e => match e with Tick t => [t] | _ => [] end) evs.

(** The occurrences the provider gives one after the other, from [n] on:
    [n], [Next(n)], [Next(Next(n))], ... *)
Fixpoint occurrences (k : nat) (n : Time) : list Time :=
  match k with
  | O => []
  | S k =>
      n :: match next (In_ n tz) with
           | Some n' => occurrences k n'
           | None => []
           end
  end.

(** The tick a state of the loop is still to deliver. *)
Definition pending (l : Loop) : option Time :=
  match l with
  | AtUntil n | Sleeping n _ _ | Sending n _ => Some n
  | Starting | InNext _ | Exited => None
  end.

Definition started (l : Loop) : Prop := l <> Starting.

(** Sending happens only for a tick less than the ceiling away. *)
Definition belowCeiling (l : Loop) : Prop :=
  match l with
  | Sending _ d => d < scheduleMaxSleepTime
  | _ => True
  end.

End Scheduler.

(** *** The fields of a specification, one by one *)

Definition allFields : list Field :=
  [FSecond; FMinute; FHour; FDay; FMonth; FWeekday].

Definition fieldIndex (f : Field) : nat :=
  match f with
  | FSecond => 0 | FMinute => 1 | FHour => 2
  | FDay => 3 | FMonth => 4 | FWeekday => 5
  end.

Definition fieldSuffix (f : Field) : string :=
  match f with
  | FSecond => "s" | FMinute => "m" | FHour => "h" | FDay => "d"
  | FMonth | FWeekday => EmptyString
  end.

Definition fieldParser (f : Field) : string -> Z + error :=
  match f with
  | FSecond => parseSecond | FMinute => parseMinute | FHour => parseHour
  | FDay => parseDay | FMonth => parseMonth | FWeekday => parseWeekday
  end.

(** The lowest and highest value of a field, and how many there are. *)
Definition fieldLow (f : Field) : Z :=
  match f with
  | FDay | FMonth => 1
  | _ => 0
  end.

Definition fieldHigh (f : Field) : Z :=
  match f with
  | FSecond | FMinute => 59 | FHour => 23
  | FDay => 31 | FMonth => 12 | FWeekday => 6
  end.

Definition fieldCount (f : Field) : Z :=
  match f with
  | FSecond => secondsInMinute | FMinute => minutesInHour
  | FHour => hoursInDay | FDay => maxDaysInMonth
  | FMonth => monthsInYear | FWeekday => daysInWeek
  end.

Definition fieldOf (f : Field) (s : ScheduledTicker) : list Z :=
  match f with
  | FSecond => seconds s | FMinute => minutes s | FHour => hours s
  | FDay => days s | FMonth => months s | FWeekday => weekdays s
  end.

(** Whether the specification has the field, and the text of the field. *)
Definition present (parts : list string) (f : Field) : bool :=
  Z.of_nat (fieldIndex f) <? len parts.

Definition partOf (parts : list string) (f : Field) : string :=
  nth (fieldIndex f) parts EmptyString.

(** The comma-separated pieces that [parsePart] hands to the parser of the
    field: none for ["*"]. *)
Definition tokens (f : Field) (part : string) : list string :=
  let part := TrimSuffix part (fieldSuffix f) in
  if String.eqb part "*" then [] else Split part ",".

(** The values [parsePart] reads before it sorts them: the numbers the
    specification supplies for the field. *)
Definition supplied (f : Field) (part : string) : list Z + error :=
  parseAll (fieldParser f) (tokens f part).

(** What [parsePart] gives for a field; a field that is left out stays
    empty. *)
Definition partValue (parts : list string) (f : Field) : list Z + error :=
  if present parts f
  then parsePart (partOf parts f) (fieldSuffix f) (fieldParser f)
  else inl [].

(** [parse] on the zero ticker, field after field. *)
Definition fieldsOf (parts : list string) : ScheduledTicker + error :=
  match partValue parts FSecond with inr e => inr e | inl v0 =>
  match partValue parts FMinute with inr e => inr e | inl v1 =>
  match partValue parts FHour with inr e => inr e | inl v2 =>
  match partValue parts FDay with inr e => inr e | inl v3 =>
  match partValue parts FMonth with inr e => inr e | inl v4 =>
  match partValue parts FWeekday with inr e => inr e | inl v5 =>
    inl (collapseAll (mkScheduledTicker v0 v1 v2 v3 v4 v5))
  end end end end end end.

(** The whole numbers from [lo], [n] of them. *)
Definition zrange (lo : Z) (n : nat) : list Z :=
  map (fun i => lo + Z.of_nat i) (seq 0 n).

(** A field accepts a value when it is the wildcard (empty) or lists the
    value. *)
Definition accepts (l : list Z) (v : Z) : Prop := l = [] \/ In v l.

(** How [String] writes a value of a field. *)
Definition fieldShow (f : Field) : Z -> string :=
  match f with
  | FMonth => monthName
  | FWeekday => weekdayName
  | _ => Sprint
  end.

Definition writeField (f : Field) (l : list Z) : string :=
  if len l =? 0 then "*" else writeItems (fieldShow f) 0 l.

(** Check of one value of a field: what [String] writes for it is read
    back by the parser of the field as the same value, and has none of the
    bytes that separate fields and values or stand for the wildcard. *)
Definition showOk (f : Field) (v : Z) : bool :=
  match fieldParser f (fieldShow f v) with
  | inl v' => v' =? v
  | inr _ => false
  end
  && negb (hasChar "," (fieldShow f v))
  && negb (hasChar " " (fieldShow f v))
  && negb (hasChar "*" (fieldShow f v)).

(** Whether a message names one of the six fields. *)
Definition namesField (msg : string) : bool :=
  existsb (fun f => Contains msg ("invalid " ++ fieldName f)) allFields.

(** The words for a month and for a weekday, and the pieces a field
    takes: a number of its range (whatever [strconv.Atoi] reads as one), or
    one of the words. *)
Definition monthWords : list string :=
  ["1"; "jan"; "january"; "2"; "feb"; "february"; "3"; "mar"; "march";
   "4"; "apr"; "april"; "5"; "may"; "6"; "jun"; "june"; "7"; "jul"; "july";
   "8"; "aug"; "august"; "9"; "sep"; "september"; "10"; "oct"; "october";
   "11"; "nov"; "november"; "12"; "dec"; "december"].

Definition weekdayWords : list string :=
  ["sun"; "sunday"; "mon"; "monday"; "tue"; "tuesday"; "wed"; "wednesday";
   "thu"; "thursday"; "fri"; "friday"; "sat"; "saturday"].

Definition legal (f : Field) (tok : string) : bool :=
  match f with
  | FMonth => oneOf tok monthWords
  | FWeekday => oneOf tok weekdayWords
  | _ =>
      match Atoi tok with
      | inl v => (fieldLow f <=? v) && (v <=? fieldHigh f)
      | inr _ => false
      end
  end.

(** *** What [parse] establishes

    Every stored value lies in the range of its field; the values are in
    strictly ascending order (sorted, no duplicates); and no field lists
    its whole range (that is stored as the empty slice). *)

Definition inRange (lo hi : Z) (l : list Z) : Prop :=
  Forall (fun v => lo <= v <= hi) l.

Definition ascending (l : list Z) : Prop := StronglySorted Z.lt l.

Record Ranges (s : ScheduledTicker) : Prop := mkRanges {
  seconds_range : inRange 0 59 (seconds s);
  minutes_range : inRange 0 59 (minutes s);
  hours_range : inRange 0 23 (hours s);
  days_range : inRange 1 31 (days s);
  months_range : inRange 1 12 (months s);
  weekdays_range : inRange 0 6 (weekdays s)
}.

Record Normal (s : ScheduledTicker) : Prop := mkNormal {
  normal_ranges : Ranges s;
  seconds_ascending : ascending (seconds s);
  minutes_ascending : ascending (minutes s);
  hours_ascending : ascending (hours s);
  days_ascending : ascending (days s);
  months_ascending : ascending (months s);
  weekdays_ascending : ascending (weekdays s);
  seconds_partial : len (seconds s) < secondsInMinute;
  minutes_partial : len (minutes s) < minutesInHour;
  hours_partial : len (hours s) < hoursInDay;
  days_partial : len (days s) < maxDaysInMonth;
  months_partial : len (months s) < monthsInYear;
  weekdays_partial : len (weekdays s) < daysInWeek
}.

(** A provider for the examples: a tick every second. *)
Definition everySecond (t : Time) : option Time :=
  Some (IntervalNext (mkIntervalTicker Second) t).

(** [time.Date(y, m, d, hh, mm, ss, 0, time.UTC)], and the two things the
    tests of the package do with a specification: ask for the next
    occurrence, and format it. *)
Definition utc (y m d hh mm ss : Z) : Time := Date y m d hh mm ss 0 UTC.

Definition nextOf (spec : string) (t : Time) : option Time :=
  match NewScheduledTicker spec with
  | inl s => Next 100 s t
  | inr _ => None
  end.

Definition formatOf (spec : string) : option string :=
  match NewScheduledTicker spec with
  | inl s => Some (String_ s)
  | inr _ => None
  end.

(** The tables of [TestScheduledTicker] and [TestScheduledTicker_String]
    of the package: specification, time asked about and the occurrence
    expected (all in UTC); the specifications that must not parse; and
    specification and its expected format. *)
Definition nextTable : list (string * Time * Time) :=
  [
   ("*", utc 2020 1 1 0 0 0, utc 2020 1 1 0 0 1);
   ("* *", utc 2020 1 1 0 0 0, utc 2020 1 1 0 0 1);
   ("* * *", utc 2020 1 1 0 0 0, utc 2020 1 1 0 0 1);
   ("* * * *", utc 2020 1 1 0 0 0, utc 2020 1 1 0 0 1);
   ("* * * * *", utc 2020 1 1 0 0 0, utc 2020 1 1 0 0 1);
   ("* * * * * *", utc 2020 1 1 0 0 0, utc 2020 1 1 0 0 1);
   ("0 * * * * *", utc 2020 1 1 0 0 0, utc 2020 1 1 0 1 0);
   ("0,30 * * * * *", utc 2020 1 1 0 0 0, utc 2020 1 1 0 0 30);
   ("* 30 * * * *", utc 2020 1 1 0 0 1, utc 2020 1 1 0 30 0);
   ("* * 6 * * *", utc 2020 1 1 0 1 1, utc 2020 1 1 6 0 0);
   ("* * * 15 * *", utc 2020 1 1 6 30 1, utc 2020 1 15 0 0 0);
   ("* * * * jul *", utc 2020 1 15 6 30 1, utc 2020 7 1 0 0 0);
   ("* * * * * wed", utc 2020 1 1 0 0 0, utc 2020 1 1 0 0 1);
   ("0 0 0 1 * *", utc 2020 1 1 0 0 0, utc 2020 2 1 0 0 0);
   ("0 0 0 1 jan *", utc 2020 1 1 0 0 0, utc 2021 1 1 0 0 0);
   ("0 0 0 1 jan wed", utc 2020 1 1 0 0 0, utc 2025 1 1 0 0 0);
   ("0 0 0 1 * *", utc 2020 1 1 0 0 1, utc 2020 2 1 0 0 0);
   ("0 0 0 1 jan *", utc 2020 1 1 0 0 1, utc 2021 1 1 0 0 0);
   ("0 0 0 1 jan wed", utc 2020 1 1 0 0 1, utc 2025 1 1 0 0 0);
   ("0 0 0 1 jan *", utc 2020 1 1 0 0 0, utc 2021 1 1 0 0 0);
   ("0 0 0 1 feb *", utc 2020 1 1 0 0 0, utc 2020 2 1 0 0 0);
   ("0 0 0 1 mar *", utc 2020 1 1 0 0 0, utc 2020 3 1 0 0 0);
   ("0 0 0 1 apr *", utc 2020 1 1 0 0 0, utc 2020 4 1 0 0 0);
   ("0 0 0 1 may *", utc 2020 1 1 0 0 0, utc 2020 5 1 0 0 0);
   ("0 0 0 1 jun *", utc 2020 1 1 0 0 0, utc 2020 6 1 0 0 0);
   ("0 0 0 1 jul *", utc 2020 1 1 0 0 0, utc 2020 7 1 0 0 0);
   ("0 0 0 1 aug *", utc 2020 1 1 0 0 0, utc 2020 8 1 0 0 0);
   ("0 0 0 1 sep *", utc 2020 1 1 0 0 0, utc 2020 9 1 0 0 0);
   ("0 0 0 1 oct *", utc 2020 1 1 0 0 0, utc 2020 10 1 0 0 0);
   ("0 0 0 1 nov *", utc 2020 1 1 0 0 0, utc 2020 11 1 0 0 0);
   ("0 0 0 1 january *", utc 2020 1 1 0 0 0, utc 2021 1 1 0 0 0);
   ("0 0 0 1 february *", utc 2020 1 1 0 0 0, utc 2020 2 1 0 0 0);
   ("0 0 0 1 march *", utc 2020 1 1 0 0 0, utc 2020 3 1 0 0 0);
   ("0 0 0 1 april *", utc 2020 1 1 0 0 0, utc 2020 4 1 0 0 0);
   ("0 0 0 1 may *", utc 2020 1 1 0 0 0, utc 2020 5 1 0 0 0);
   ("0 0 0 1 june *", utc 2020 1 1 0 0 0, utc 2020 6 1 0 0 0);
   ("0 0 0 1 july *", utc 2020 1 1 0 0 0, utc 2020 7 1 0 0 0);
   ("0 0 0 1 august *", utc 2020 1 1 0 0 0, utc 2020 8 1 0 0 0);
   ("0 0 0 1 september *", utc 2020 1 1 0 0 0, utc 2020 9 1 0 0 0);
   ("0 0 0 1 october *", utc 2020 1 1 0 0 0, utc 2020 10 1 0 0 0);
   ("0 0 0 1 november *", utc 2020 1 1 0 0 0, utc 2020 11 1 0 0 0);
   ("0 0 0 * * mon", utc 2020 1 1 0 0 0, utc 2020 1 6 0 0 0);
   ("0 0 0 * * tue", utc 2020 1 1 0 0 0, utc 2020 1 7 0 0 0);
   ("0 0 0 * * wed", utc 2020 1 1 0 0 0, utc 2020 1 8 0 0 0);
   ("0 0 0 * * thu", utc 2020 1 1 0 0 0, utc 2020 1 2 0 0 0);
   ("0 0 0 * * fri", utc 2020 1 1 0 0 0, utc 2020 1 3 0 0 0);
   ("0 0 0 * * sat", utc 2020 1 1 0 0 0, utc 2020 1 4 0 0 0);
   ("0 0 0 * * sun", utc 2020 1 1 0 0 0, utc 2020 1 5 0 0 0);
   ("0 0 0 * * monday", utc 2020 1 1 0 0 0, utc 2020 1 6 0 0 0);
   ("0 0 0 * * tuesday", utc 2020 1 1 0 0 0, utc 2020 1 7 0 0 0);
   ("0 0 0 * * wednesday", utc 2020 1 1 0 0 0, utc 2020 1 8 0 0 0);
   ("0 0 0 * * thursday", utc 2020 1 1 0 0 0, utc 2020 1 2 0 0 0);
   ("0 0 0 * * friday", utc 2020 1 1 0 0 0, utc 2020 1 3 0 0 0);
   ("0 0 0 * * saturday", utc 2020 1 1 0 0 0, utc 2020 1 4 0 0 0);
   ("0 0 0 * * sunday", utc 2020 1 1 0 0 0, utc 2020 1 5 0 0 0);
   ("15,45 * * * * *", utc 2020 1 1 0 0 0, utc 2020 1 1 0 0 15);
   ("0 15,45 * * * *", utc 2020 1 1 0 0 0, utc 2020 1 1 0 15 0);
   ("0 0 6,12 * * *", utc 2020 1 1 0 0 0, utc 2020 1 1 6 0 0);
   ("0 0 0 15,30 * *", utc 2020 1 1 0 0 0, utc 2020 1 15 0 0 0);
   ("0 0 0 * jun,sep *", utc 2020 1 1 0 0 0, utc 2020 6 1 0 0 0);
   ("0 0 0 * * mon,tue", utc 2020 1 1 0 0 0, utc 2020 1 6 0 0 0);
   ("45,15 * * * * *", utc 2020 1 1 0 0 0, utc 2020 1 1 0 0 15);
   ("0 45,15 * * * *", utc 2020 1 1 0 0 0, utc 2020 1 1 0 15 0);
   ("0 0 12,6 * * *", utc 2020 1 1 0 0 0, utc 2020 1 1 6 0 0);
   ("0 0 0 30,15 * *", utc 2020 1 1 0 0 0, utc 2020 1 15 0 0 0);
   ("0 0 0 * sep,jun *", utc 2020 1 1 0 0 0, utc 2020 6 1 0 0 0);
   ("0 0 0 * * tue,mon", utc 2020 1 1 0 0 0, utc 2020 1 6 0 0 0)].

Definition errorTable : list string :=
  [""; "* * * * * * *"; "-1 * * * * *"; "60 * * * * *"; "0 -1 * * * *"; "0 60 * * * *"; "0 0 -1 * * *"; "0 0 25 * * *"; "0 0 0 -1 * *"; "0 0 0 32 * *"; "0 0 0 1 0 *"; "0 0 0 1 13 *"; "0 0 0 1 1 1"; "0 0 0 1 1 a"].

Definition stringTable : list (string * string) :=
  [
   ("* * * * * *",
    "*s *m *h *d * *");
   ("0 * * * * *",
    "0s *m *h *d * *");
   ("0 0 * * * *",
    "0s 0m *h *d * *");
   ("0 0 0 * * *",
    "0s 0m 0h *d * *");
   ("0 0 0 1 * *",
    "0s 0m 0h 1d * *");
   ("0 0 0 1 jan *",
    "0s 0m 0h 1d jan *");
   ("0 0 0 * * mon",
    "0s 0m 0h *d * mon");
   ("0,1,2,3,4,5,6,7,8,9,10,11,12,13,14,15,16,17,18,19,20,21,22,23,24,25,26,27,28,29,30,31,32,33,34,35,36,37,38,39,40,41,42,43,44,45,46,47,48,49,50,51,52,53,54,55,56,57,58,59 * * * * *",
    "*s *m *h *d * *");
   ("0 0,1,2,3,4,5,6,7,8,9,10,11,12,13,14,15,16,17,18,19,20,21,22,23,24,25,26,27,28,29,30,31,32,33,34,35,36,37,38,39,40,41,42,43,44,45,46,47,48,49,50,51,52,53,54,55,56,57,58,59 * * * *",
    "0s *m *h *d * *");
   ("0 0 0,1,2,3,4,5,6,7,8,9,10,11,12,13,14,15,16,17,18,19,20,21,22,23 * * *",
    "0s 0m *h *d * *");
   ("0 0 0 1,2,3,4,5,6,7,8,9,10,11,12,13,14,15,16,17,18,19,20,21,22,23,24,25,26,27,28,29,30,31 * *",
    "0s 0m 0h *d * *");
   ("0 0 0 1 jan,feb,mar,apr,may,jun,jul,aug,sep,oct,nov,dec *",
    "0s 0m 0h 1d * *");
   ("0 0 0 1 january,february,march,april,may,june,july,august,september,october,november,december *",
    "0s 0m 0h 1d * *");
   ("0 0 0 * * mon,tue,wed,thu,fri,sat,sun",
    "0s 0m 0h *d * *");
   ("0 0 0 * * monday,tuesday,wednesday,thursday,friday,saturday,sunday",
    "0s 0m 0h *d * *");
   ("*",
    "*s *m *h *d * *")].

(** Two locations of the time zone database, each with its transitions
    of one year. CET in 2020: summer time (+02:00) from 2020-03-29
    01:00 UTC to 2020-10-25 01:00 UTC. America/St_Johns in 2010, when the
    clock there changed one minute after local midnight: summer time
    (-02:30) from 2010-03-14 03:31 UTC to 2010-11-07 02:31 UTC. *)
Definition CET : Location :=
  mkLocation 3600 [mkZoneTrans 1585443600 7200; mkZoneTrans 1603587600 3600].

Definition StJohns : Location :=
  mkLocation (-12600)
    [mkZoneTrans 1268537460 (-9000); mkZoneTrans 1289097060 (-12600)].

(** What [Time.String] shows of a time, as numbers: date, clock and the
    offset in force. *)
Definition reading (t : Time) : Z * Month * Z * (Z * Z * Z) * Z :=
  (Date_of t, Clock t, offsetAt (Loc t) (Unix t)).

(** [TestScheduledTicker_SummerTime] of the package: from 2020-10-25
    01:00 in CET, the occurrences that [Next] gives one after the other,
    and the readings the test expects of them. *)
Fixpoint nextTimes (fuel : nat) (s : ScheduledTicker) (k : nat) (at_ : Time)
    : list (option Time) :=
  match k with
  | O => []
  | S k =>
      match Next fuel s at_ with
      | Some r => Some r :: nextTimes fuel s k r
      | None => [None]
      end
  end.

Definition summerTimeTable : list (Z * Month * Z * (Z * Z * Z) * Z) :=
  [(2020, 10, 25, (1, 30, 0), 7200);
   (2020, 10, 25, (2, 0, 0), 7200);
   (2020, 10, 25, (2, 30, 0), 7200);
   (2020, 10, 25, (2, 0, 0), 3600);
   (2020, 10, 25, (2, 30, 0), 3600)].

Definition summerTimeRun : list (option (Z * Month * Z * (Z * Z * Z) * Z)) :=
  match NewScheduledTicker "0 0,30 0,1,2,3,4 * * *" with
  | inl s =>
      map (option_map reading)
        (nextTimes 100 s 5 (Date 2020 10 25 1 0 0 0 CET))
  | inr _ => []
  end.

Definition nextRowOk (row : string * Time * Time) : bool :=
  let '(spec, at_, out) := row in
  match nextOf spec at_ with
  | Some t => (unixNano t =? unixNano out) && (zoneOffset (Loc t) =? 0)
  | None => false
  end.

Definition errorRowOk (spec : string) : bool :=
  match NewScheduledTicker spec with
  | inl _ => false
  | inr _ => true
  end.

Definition stringRowOk (row : string * string) : bool :=
  match formatOf (fst row) with
  | Some out => String.eqb out (snd row)
  | None => false
  end.

(** *** Text and JSON

    [(s *ScheduledTicker) UnmarshalText] parses into the receiver it is
    given, whatever that holds; [(s ScheduledTicker) MarshalText] is
    [String] and never fails. *)
Definition UnmarshalText (s : ScheduledTicker) (text : string)
    : ScheduledTicker * option error :=
  parse s text.

Definition MarshalText (s : ScheduledTicker) : string * option error :=
  (String_ s, None).

(** What a field of the receiver [old] becomes in [parse]: the value of
    [parsePart] where the specification has the field, the value it had
    where the specification stops before it. *)
Definition partValueFrom (old : ScheduledTicker) (parts : list string)
    (f : Field) : list Z + error :=
  if present parts f
  then parsePart (partOf parts f) (fieldSuffix f) (fieldParser f)
  else inl (fieldOf f old).

(** [parse] on the receiver [s], field after field, with the receiver as
    an error leaves it. *)
Definition parseFrom (s : ScheduledTicker) (parts : list string)
    : ScheduledTicker * option error :=
  match partValueFrom s parts FSecond with
  | inr e => (setSeconds s [], Some e)
  | inl v0 =>
  let s := setSeconds s v0 in
  match partValueFrom s parts FMinute with
  | inr e => (setMinutes s [], Some e)
  | inl v1 =>
  let s := setMinutes s v1 in
  match partValueFrom s parts FHour with
  | inr e => (setHours s [], Some e)
  | inl v2 =>
  let s := setHours s v2 in
  match partValueFrom s parts FDay with
  | inr e => (setDays s [], Some e)
  | inl v3 =>
  let s := setDays s v3 in
  match partValueFrom s parts FMonth with
  | inr e => (setMonths s [], Some e)
  | inl v4 =>
  let s := setMonths s v4 in
  match partValueFrom s parts FWeekday with
  | inr e => (setWeekdays s [], Some e)
  | inl v5 => (collapseAll (setWeekdays s v5), None)
  end end end end end end.

(** Times in strictly ascending order. *)
Definition increasing (l : list Time) : Prop :=
  StronglySorted (fun a b => unixNano a < unixNano b) l.

(** The readings of the clock among the inputs of a run never go back,
    and none is before [b]. *)
Fixpoint clockMonotone (b : Z) (inputs : list Input) : Prop :=
  match inputs with
  | [] => True
  | Now now :: rest => b <= now /\ clockMonotone now rest
  | _ :: rest => clockMonotone b rest
  end.

Definition isSleep (e : Event) : bool :=
  match e with Sleep _ => true | _ => false end.

(** The tick the loop waits for is not after the last reading [b] of the
    clock, and the loop is not in a timed sleep. *)
Definition overdue (b : Z) (l : Loop) : Prop :=
  match l with
  | Starting | Exited => True
  | AtUntil n | Sending n _ => unixNano n <= b
  | Sleeping _ _ _ | InNext _ => False
  end.


(** The seconds, minutes and hours of a time on the local clock that
    counts [L] seconds. *)
Definition secondAt (L : Z) : Z := L mod secondsPerMinute.
Definition minuteAt (L : Z) : Z := (L mod secondsPerHour) / secondsPerMinute.
Definition hourAt (L : Z) : Z := (L mod secondsPerDay) / secondsPerHour.

(** No second of the local clock after [t] and before [x] has its hour,
    minute and second all accepted by [s]. *)
Definition noneBefore (s : ScheduledTicker) (t x : Time) : Prop :=
  forall L, localSec t < L ->
    matches (hours s) (hourAt L) = true ->
    matches (minutes s) (minuteAt L) = true ->
    matches (seconds s) (secondAt L) = true ->
    localSec x <= L.

End timeutil.


Import GoTime.

Lemma allBelow_spec (n : nat) (p : Z -> bool) :
  allBelow n p = true -> forall r, 0 <= r < Z.of_nat n -> p r = true.
Proof.
  induction n as [|k IH]; simpl; intros H r Hr; [lia|].
  apply andb_true_iff in H as [Hk Hrest].
  destruct (Z.eq_dec r (Z.of_nat k)) as [->|Hne]; [exact Hk|].
  apply IH; [exact Hrest | lia].
Qed.

Lemma yearDay_spec (d0 : Z) :
  let '(y, yd) := yearDay d0 in
  daysSinceYear1 y + yd = d0 /\ 0 <= yd < 365 + (if isLeap y then 1 else 0).
Proof.
  unfold yearDay, daysSinceYear1, isLeap, daysPer400Years, daysPer100Years,
    daysPer4Years.
  repeat match goal with
         | |- context [Z.eqb ?a ?b] => destruct (Z.eqb_spec a b)
         end; cbn [andb orb negb]; Z.div_mod_to_equations; lia.
Qed.

Import GoStrings timeutil.

(** ** The tests of the package *)

Example TestScheduledTicker :
  forallb nextRowOk nextTable = true /\ forallb errorRowOk errorTable = true.
Proof. split; vm_compute; reflexivity. Qed.

Example TestScheduledTicker_String : forallb stringRowOk stringTable = true.
Proof. vm_compute. reflexivity. Qed.

Example TestScheduledTicker_SummerTime :
  summerTimeRun = map Some summerTimeTable.
Proof. vm_compute. reflexivity. Qed.

(** ** The scheduler loop *)

Section SchedulerFacts.

Variable next : Time -> option Time.
Variable tz : Location.

Local Abbreviation step := (step next tz).
Local Abbreviation run := (run next tz).
Local Abbreviation occurrences := (occurrences next tz).
Local Abbreviation afterSend := (afterSend next tz).

Lemma ticks_app (a b : list Event) : ticks (a ++ b) = (ticks a ++ ticks b)%list.
Proof. unfold ticks. apply flat_map_app. Qed.

Lemma occurrences_S (k : nat) (n : Time) :
  occurrences (S k) n
  = n :: match next (In_ n tz) with
         | Some n' => occurrences k n'
         | None => []
         end.
Proof. reflexivity. Qed.

Lemma occurrences_S_prefix (k : nat) (n : Time) :
  exists rest, occurrences (S k) n = (occurrences k n ++ rest)%list.
Proof.
  revert n. induction k as [|k IH]; intros n.
  - eexists. reflexivity.
  - rewrite (occurrences_S (S k)), (occurrences_S k).
    destruct (next (In_ n tz)) as [n'|].
    + destruct (IH n') as [rest Hrest]. exists rest. rewrite Hrest. reflexivity.
    + exists []. reflexivity.
Qed.

Lemma afterSleep_cases (n : Time) (d : Duration) (ok : bool) :
  (fst (afterSleep n d ok) = Exited /\ snd (afterSleep n d ok) = [Close] /\ ok = false)
  \/ (fst (afterSleep n d ok) = AtUntil n /\ snd (afterSleep n d ok) = []
      /\ ok = true /\ scheduleMaxSleepTime <= d)
  \/ (fst (afterSleep n d ok) = Sending n d /\ snd (afterSleep n d ok) = []
      /\ ok = true /\ d < scheduleMaxSleepTime).
Proof.
  unfold afterSleep. destruct ok; simpl.
  - destruct (Z.leb_spec scheduleMaxSleepTime d); simpl; auto 10.
  - auto.
Qed.

(** One move: either it is the delivery of the pending tick, or it emits
    no tick and leaves the pending tick as it was (or ends the loop). *)
Lemma step_pending (c c' : Config) (i : Input) (evs : list Event) :
  started (loop c) ->
  step c i = Some (c', evs) ->
  started (loop c')
  /\ ((exists n d, loop c = Sending n d /\ i = Receive
                   /\ evs = [Tick n] /\ loop c' = afterSend n)
      \/ (ticks evs = []
          /\ (pending (loop c') = pending (loop c) \/ pending (loop c') = None))).
Proof.
  unfold started. intros Hst Hstep.
  destruct c as [cn l]. unfold timeutil.step in Hstep. simpl in *.
  destruct i, l; simpl in Hstep; try discriminate; try congruence;
    repeat match type of Hstep with
           | context [sleepEnter ?a ?b] => destruct (sleepEnter a b)
           | context [next ?a] => destruct (next a) eqn:?
           | context [afterSleep ?n ?d ?ok] =>
               destruct (afterSleep_cases n d ok)
                 as [(? & ? & ?)|[(? & ? & ? & ?)|(? & ? & ? & ?)]];
               destruct (afterSleep n d ok); simpl in *; subst
           | context [if cn then _ else _] => destruct cn
           end; simpl in Hstep; try discriminate;
    injection Hstep as <- <-; simpl;
    (split; [try discriminate; try assumption|]);
    try (right; simpl; auto; fail).
  all: try (unfold timeutil.afterSend; destruct (next _); discriminate).
  all: left; do 2 eexists; repeat split; reflexivity.
Qed.

End SchedulerFacts.

Section SchedulerRuns.

Variable next : Time -> option Time.
Variable tz : Location.

Local Abbreviation step := (step next tz).
Local Abbreviation run := (run next tz).
Local Abbreviation occurrences := (occurrences next tz).
Local Abbreviation afterSend := (afterSend next tz).

Lemma run_ticks_prefix (inputs : list Input) :
  forall c c' evs,
    started (loop c) ->
    run c inputs = Some (c', evs) ->
    match pending (loop c) with
    | Some n => exists rest,
        occurrences (List.length inputs) n = (ticks evs ++ rest)%list
    | None => ticks evs = []
    end.
Proof.
  induction inputs as [|i inputs IH]; intros c c' evs Hst Hrun.
  - simpl in Hrun. injection Hrun as <- <-. simpl.
    destruct (pending (loop c)); [exists []|]; reflexivity.
  - simpl in Hrun.
    destruct (step c i) as [[c1 evs1]|] eqn:Hstep; [|discriminate].
    destruct (timeutil.run next tz c1 inputs) as [[c2 evs2]|] eqn:Hrest;
      [|discriminate].
    injection Hrun as <- <-.
    destruct (step_pending next tz c c1 i evs1 Hst Hstep) as [Hst1 Hcase].
    specialize (IH c1 c2 evs2 Hst1 Hrest).
    rewrite ticks_app.
    destruct Hcase as [(n & d & Hl & -> & -> & Hl1)|(Hnil & Hpend)].
    + rewrite Hl. cbv beta iota delta [pending]. rewrite Hl1 in IH.
      change (ticks [Tick n]) with [n].
      simpl List.length. rewrite occurrences_S.
      unfold timeutil.afterSend in IH.
      destruct (next (In_ n tz)) as [n'|]; simpl in IH.
      * destruct IH as [rest ->]. exists rest. reflexivity.
      * rewrite IH. exists []. reflexivity.
    + rewrite Hnil. simpl app.
      destruct Hpend as [Hsame|Hnone].
      * rewrite <- Hsame. destruct (pending (loop c1)) as [n|]; [|exact IH].
        destruct IH as [rest Hrest'].
        destruct (occurrences_S_prefix next tz (List.length inputs) n) as [r2 Hr2].
        exists (rest ++ r2)%list. simpl List.length.
        rewrite Hr2, Hrest'. now rewrite app_assoc.
      * rewrite Hnone in IH. rewrite IH.
        destruct (pending (loop c)); [|reflexivity].
        eexists. reflexivity.
Qed.

Lemma step_belowCeiling (c c' : Config) (i : Input) (evs : list Event) :
  belowCeiling (loop c) -> step c i = Some (c', evs) -> belowCeiling (loop c').
Proof.
  intros Hinv Hstep.
  destruct c as [cn l]. unfold timeutil.step in Hstep. simpl in *.
  destruct i, l; simpl in Hstep; try discriminate;
    repeat match type of Hstep with
           | context [sleepEnter ?a ?b] => destruct (sleepEnter a b)
           | context [next ?a] => destruct (next a) eqn:?
           | context [afterSleep ?n ?d ?ok] =>
               destruct (afterSleep_cases n d ok)
                 as [(? & ? & ?)|[(? & ? & ? & ?)|(? & ? & ? & ?)]];
               destruct (afterSleep n d ok); simpl in *; subst
           | context [if cn then _ else _] => destruct cn
           end; simpl in Hstep; try discriminate;
    injection Hstep as <- <-; simpl; auto.
  all: unfold timeutil.afterSend; destruct (next _); exact I.
Qed.

Lemma run_belowCeiling (inputs : list Input) :
  forall c c' evs,
    belowCeiling (loop c) -> run c inputs = Some (c', evs) ->
    belowCeiling (loop c').
Proof.
  induction inputs as [|i inputs IH]; intros c c' evs Hinv Hrun; simpl in Hrun.
  - injection Hrun as <- <-. exact Hinv.
  - destruct (step c i) as [[c1 evs1]|] eqn:Hstep; [|discriminate].
    destruct (timeutil.run next tz c1 inputs) as [[c2 evs2]|] eqn:Hrest;
      [|discriminate].
    injection Hrun as <- <-.
    eapply IH; [|exact Hrest]. eapply step_belowCeiling; eassumption.
Qed.

(** A tick is emitted by the move out of [Sending] and by no other. *)
Lemma step_tick_from_sending (c c' : Config) (i : Input) (evs : list Event) (t : Time) :
  step c i = Some (c', evs) -> In (Tick t) evs ->
  exists d, loop c = Sending t d /\ i = Receive.
Proof.
  intros Hstep Hin.
  destruct c as [cn l]. unfold timeutil.step in Hstep. simpl in *.
  destruct i, l; simpl in Hstep; try discriminate;
    repeat match type of Hstep with
           | context [sleepEnter ?a ?b] => destruct (sleepEnter a b)
           | context [next ?a] => destruct (next a) eqn:?
           | context [afterSleep ?n ?d ?ok] =>
               destruct (afterSleep_cases n d ok)
                 as [(? & ? & ?)|[(? & ? & ? & ?)|(? & ? & ? & ?)]];
               destruct (afterSleep n d ok); simpl in *; subst
           | context [if cn then _ else _] => destruct cn
           end; simpl in Hstep; try discriminate;
    injection Hstep as <- <-; simpl in Hin;
    repeat match type of Hin with
           | _ \/ _ => destruct Hin as [Hin|Hin]
           | False => contradiction
           | _ = _ => try discriminate Hin
           end.
  all: injection Hin as ->; eauto.
Qed.

End SchedulerRuns.

(** C7: in the scheduler loop, once the tick [n] has been delivered the
    following occurrence is [provider.Next(n)], computed from the delivered
    tick and not from a reading of the clock; when [d = n - now] is zero or
    negative the loop starts no timer and goes straight to the delivery;
    and so the ticks delivered in any run are, one by one and in order, the
    occurrences [n], [Next(n)], [Next(Next(n))], ... with none left out and
    none merged. *)
Theorem scheduler_delivers_every_occurrence :
  forall (next : Time -> option Time) (tz : Location),
    (forall c n d,
        loop c = Sending n d ->
        step next tz c Receive
        = Some (mkConfig (cancelled c)
                  (match next (In_ n tz) with
                   | Some n' => AtUntil n'
                   | None => InNext n
                   end), [Tick n]))
    /\ (forall c n now,
          loop c = AtUntil n -> cancelled c = false ->
          unixNano n - now <= 0 ->
          step next tz c (Now now)
          = Some (mkConfig false (Sending n (unixNano n - now)), []))
    /\ (forall c n inputs c' evs,
          loop c = AtUntil n ->
          run next tz c inputs = Some (c', evs) ->
          exists rest,
            occurrences next tz (List.length inputs) n = (ticks evs ++ rest)%list).
Proof.
  intros next tz. split; [|split].
  - intros [cn l] n d Hl. simpl in Hl. subst l. reflexivity.
  - intros [cn l] n now Hl Hc Hd. simpl in Hl, Hc. subst l cn.
    unfold step. simpl.
    assert (Hlt : (scheduleMaxSleepTime <=? unixNano n - now) = false).
    { apply Z.leb_gt. unfold scheduleMaxSleepTime, Minute, Second. lia. }
    rewrite Hlt. unfold sleepEnter.
    destruct (Z.leb_spec (unixNano n - now) 0); [|lia].
    simpl. unfold afterSleep. simpl. rewrite Hlt. reflexivity.
  - intros c n inputs c' evs Hl Hrun.
    pose proof (run_ticks_prefix next tz inputs c c' evs) as H.
    rewrite Hl in H. apply H; [|exact Hrun].
    unfold started. discriminate.
Qed.

Lemma scheduler_delivers_every_occurrence_witness :
  let c := mkConfig false (AtUntil (mkTime 0 UTC)) in
  let inputs := [Now 5; Receive; Now 1000000000; Receive; Now 1999999995;
                 TimerFires; Receive] in
  let evs := [Tick (mkTime 0 UTC); Tick (mkTime 1000000000 UTC); Sleep 5;
              Tick (mkTime 2000000000 UTC)] in
  step everySecond UTC (mkConfig false (Sending (mkTime 0 UTC) (-5))) Receive
  = Some (mkConfig false (AtUntil (mkTime 1000000000 UTC)), [Tick (mkTime 0 UTC)])
  /\ step everySecond UTC c (Now 5)
     = Some (mkConfig false (Sending (mkTime 0 UTC) (-5)), [])
  /\ exists rest,
       occurrences everySecond UTC (List.length inputs) (mkTime 0 UTC)
       = (ticks evs ++ rest)%list.
Proof.
  intros c inputs evs.
  destruct (scheduler_delivers_every_occurrence everySecond UTC)
    as (H1 & H2 & H3).
  split; [|split].
  - exact (H1 (mkConfig false (Sending (mkTime 0 UTC) (-5))) (mkTime 0 UTC) (-5)
             eq_refl).
  - refine (H2 c (mkTime 0 UTC) 5 eq_refl eq_refl _). simpl. lia.
  - refine (H3 c (mkTime 0 UTC) inputs
              (mkConfig false (AtUntil (mkTime 3000000000 UTC))) evs eq_refl _).
    vm_compute. reflexivity.
Defined.

(** C9: when [d = n - now] exceeds [scheduleMaxSleepTime] (15 minutes) the
    loop sleeps for [scheduleMaxSleepTime] only and, when the timer fires,
    is back at the head of the loop with the same [n] and no tick emitted;
    whatever ends that sleep emits no tick. A tick is only ever emitted
    from an iteration whose [d] is below [scheduleMaxSleepTime]. *)
Theorem scheduler_ceiling_sleep :
  forall (next : Time -> option Time) (tz : Location),
    (forall c n now,
        loop c = AtUntil n ->
        scheduleMaxSleepTime < unixNano n - now ->
        let sleeping :=
          mkConfig (cancelled c)
            (Sleeping n (unixNano n - now) scheduleMaxSleepTime) in
        step next tz c (Now now) = Some (sleeping, [Sleep scheduleMaxSleepTime])
        /\ step next tz sleeping TimerFires
           = Some (mkConfig (cancelled c) (AtUntil n), [])
        /\ forall i c' evs,
             step next tz sleeping i = Some (c', evs) ->
             ticks evs = []
             /\ (pending (loop c') = Some n \/ loop c' = Exited))
    /\ (forall c0 inputs c evs i c' evs' t,
          loop c0 = Starting ->
          run next tz c0 inputs = Some (c, evs) ->
          step next tz c i = Some (c', evs') ->
          In (Tick t) evs' ->
          exists d, loop c = Sending t d /\ d < scheduleMaxSleepTime).
Proof.
  intros next tz. split.
  - intros [cn l] n now Hl Hd sleeping. simpl in Hl. subst l.
    assert (Hle : (scheduleMaxSleepTime <=? unixNano n - now) = true)
      by (apply Z.leb_le; lia).
    split; [|split].
    + unfold step. simpl. rewrite Hle. reflexivity.
    + unfold step, sleeping. simpl. unfold afterSleep. simpl.
      rewrite Hle. reflexivity.
    + intros i c' evs Hstep. unfold step, sleeping in Hstep. simpl in Hstep.
      unfold afterSleep in Hstep. simpl in Hstep.
      destruct i; simpl in Hstep; try discriminate.
      * rewrite Hle in Hstep. injection Hstep as <- <-. simpl. auto.
      * destruct cn; simpl in Hstep; [|discriminate].
        injection Hstep as <- <-. simpl. auto.
      * injection Hstep as <- <-. simpl. auto.
  - intros c0 inputs c evs i c' evs' t Hl0 Hrun Hstep Hin.
    destruct (step_tick_from_sending next tz c c' i evs' t Hstep Hin)
      as (d & Hl & _).
    exists d. split; [exact Hl|].
    assert (Hinv : belowCeiling (loop c)).
    { eapply run_belowCeiling; [|exact Hrun]. rewrite Hl0. exact I. }
    rewrite Hl in Hinv. exact Hinv.
Qed.

Lemma scheduler_ceiling_sleep_witness :
  let n := mkTime (3600 * 1000000000) UTC in
  step everySecond UTC (mkConfig false (AtUntil n)) (Now 0)
  = Some (mkConfig false (Sleeping n (3600 * 1000000000) scheduleMaxSleepTime),
          [Sleep scheduleMaxSleepTime])
  /\ exists d, Sending (mkTime 1000000007 UTC) (-3) = Sending (mkTime 1000000007 UTC) d
               /\ d < scheduleMaxSleepTime.
Proof.
  intros n.
  destruct (scheduler_ceiling_sleep everySecond UTC) as (H1 & H2).
  split.
  - refine (proj1 (H1 (mkConfig false (AtUntil n)) n 0 eq_refl _)).
    vm_compute. reflexivity.
  - refine (H2 (mkConfig false Starting) [Now 7; Now 1000000010]
              (mkConfig false (Sending (mkTime 1000000007 UTC) (-3))) []
              Receive _ _ (mkTime 1000000007 UTC) eq_refl _ _ _).
    + vm_compute. reflexivity.
    + vm_compute. reflexivity.
    + simpl. left. reflexivity.
Defined.

(** The sleeps do watch the context: once it is cancelled, the [select]
    of [sleep] may take [ctx.Done()], and the loop returns and closes the
    channel. *)
Lemma sleep_observes_cancellation (next : Time -> option Time) (tz : Location)
    (n : Time) (d timer : Duration) :
  step next tz (mkConfig true (Sleeping n d timer)) CtxDone
  = Some (mkConfig true Exited, [Close]).
Proof. reflexivity. Qed.

(** The channel is closed only by a move that ends the loop with the
    context cancelled. *)
Lemma close_only_on_cancellation (next : Time -> option Time) (tz : Location)
    (c c' : Config) (i : Input) (evs : list Event) :
  step next tz c i = Some (c', evs) -> In Close evs ->
  cancelled c = true /\ loop c' = Exited /\ loop c <> Exited.
Proof.
  intros Hstep Hin.
  destruct c as [cn l]. unfold step in Hstep. simpl in *.
  destruct i, l; simpl in Hstep; try discriminate;
    repeat match type of Hstep with
           | context [sleepEnter ?a ?b] =>
               unfold sleepEnter in Hstep; destruct (Z.leb_spec b 0)
           | context [next ?a] => destruct (next a) eqn:?
           | context [afterSleep ?n ?d ?ok] =>
               destruct (afterSleep_cases n d ok)
                 as [(? & ? & ?)|[(? & ? & ? & ?)|(? & ? & ? & ?)]];
               destruct (afterSleep n d ok); simpl in *; subst
           | context [if cn then _ else _] => destruct cn
           end; simpl in Hstep; try discriminate;
    injection Hstep as <- <-; simpl in Hin;
    repeat match type of Hin with
           | _ \/ _ => destruct Hin as [Hin|Hin]
           | False => contradiction
           | _ = _ => try discriminate Hin
           end; simpl;
    repeat split; try reflexivity; try discriminate.
  all: destruct cn; [reflexivity|discriminate].
Qed.

(** C8: the send [s.c <- n] is not in a [select] with [ctx.Done()]. With
    the loop blocked in it and the context cancelled, as long as no
    consumer receives, no move ends the loop or closes the channel: the
    loop stays where it is and emits nothing. *)
Theorem send_ignores_cancellation :
  forall (next : Time -> option Time) (tz : Location) (n : Time) (d : Duration)
         (inputs : list Input) (c' : Config) (evs : list Event),
    ~ In Receive inputs ->
    run next tz (mkConfig true (Sending n d)) inputs = Some (c', evs) ->
    c' = mkConfig true (Sending n d) /\ evs = [].
Proof.
  intros next tz n d inputs. induction inputs as [|i inputs IH];
    intros c' evs Hno Hrun; simpl in Hrun.
  - injection Hrun as <- <-. auto.
  - destruct i; simpl in Hrun; try discriminate.
    + exfalso. apply Hno. left. reflexivity.
    + destruct (run next tz (mkConfig true (Sending n d)) inputs)
        as [[c2 evs2]|] eqn:Hrest; [|discriminate].
      injection Hrun as <- <-.
      apply (IH c2 evs2); [|reflexivity].
      intros Hin. apply Hno. right. exact Hin.
Qed.

Lemma send_ignores_cancellation_witness :
  let blocked := mkConfig false (Sending (mkTime 0 UTC) (-5)) in
  step everySecond UTC blocked Cancel
  = Some (mkConfig true (Sending (mkTime 0 UTC) (-5)), [])
  /\ step everySecond UTC (mkConfig true (Sending (mkTime 0 UTC) (-5))) CtxDone = None
  /\ (mkConfig true (Sending (mkTime 0 UTC) (-5)) = mkConfig true (Sending (mkTime 0 UTC) (-5))
      /\ @nil Event = []).
Proof.
  intros blocked. split; [reflexivity|]. split; [reflexivity|].
  refine (send_ignores_cancellation everySecond UTC (mkTime 0 UTC) (-5)
            [Cancel; Cancel] _ _ _ _).
  - simpl. intros [H|[H|H]]; [discriminate H|discriminate H|exact H].
  - reflexivity.
Defined.

(** ** The loop of [Next] *)

Section NextLoop.

Variable s : ScheduledTicker.

(** What holds of the starting time and is kept by the five steps holds
    of the result. *)
Lemma nextLoop_invariant (P : Time -> Prop) :
  (forall at_, P at_ -> P (nextMonth s at_)) ->
  (forall at_, P at_ -> P (nextDay s at_)) ->
  (forall at_, P at_ -> P (nextHour s at_)) ->
  (forall at_, P at_ -> P (nextMinute s at_)) ->
  (forall at_, P at_ -> P (nextSecond s at_)) ->
  forall fuel at_ r, P at_ -> nextLoop fuel s at_ = Some r -> P r.
Proof.
  intros Hmo Hd Hh Hmi Hs. induction fuel as [|fuel IH]; intros at_ r HP Hr.
  - discriminate.
  - simpl in Hr.
    repeat match type of Hr with
           | (if ?b then _ else _) = _ => destruct b
           end;
    try (eapply IH; [|exact Hr]; auto; fail).
    injection Hr as <-. exact HP.
Qed.

(** The loop returns a time only when all six tests accept it. *)
Lemma nextLoop_matches (fuel : nat) :
  forall at_ r,
    nextLoop fuel s at_ = Some r ->
    matchMonth s r = true /\ matchWeekday s r = true /\ matchDay s r = true
    /\ matchHour s r = true /\ matchMinute s r = true /\ matchSecond s r = true.
Proof.
  induction fuel as [|fuel IH]; intros at_ r Hr.
  - discriminate.
  - simpl in Hr.
    destruct (matchMonth s at_) eqn:Hmo; simpl in Hr; [|eauto].
    destruct (matchWeekday s at_) eqn:Hw; simpl in Hr; [|eauto].
    destruct (matchDay s at_) eqn:Hd; simpl in Hr; [|eauto].
    destruct (matchHour s at_) eqn:Hh; simpl in Hr; [|eauto].
    destruct (matchMinute s at_) eqn:Hmi; simpl in Hr; [|eauto].
    destruct (matchSecond s at_) eqn:Hs; simpl in Hr; [|eauto].
    injection Hr as <-. auto 10.
Qed.

(** More fuel does not change a result. *)
Lemma nextLoop_more_fuel (fuel : nat) :
  forall at_ r k,
    nextLoop fuel s at_ = Some r -> nextLoop (fuel + k) s at_ = Some r.
Proof.
  induction fuel as [|fuel IH]; intros at_ r k Hr.
  - discriminate.
  - simpl in Hr |- *.
    repeat match type of Hr with
           | (if ?b then _ else _) = _ => destruct b
           end; auto.
Qed.

End NextLoop.

Lemma matches_spec (l : list Z) (x : Z) :
  matches l x = true <-> l = [] \/ In x l.
Proof.
  unfold matches, len. destruct l as [|y l].
  - simpl. tauto.
  - change (Z.of_nat (List.length (y :: l)) =? 0) with false.
    cbv beta iota. rewrite existsb_exists. split.
    + intros (v & Hin & Hv). apply Z.eqb_eq in Hv. subst v. right. exact Hin.
    + intros [H|H]; [discriminate|]. exists x. split; [exact H|apply Z.eqb_refl].
Qed.

(** ** Whole seconds *)

(** A location without transitions has one offset. *)
Lemma lookup_fixed (l : Location) (sec : Z) :
  tx l = [] -> lookup l sec = (zoneOffset l, alpha, omega).
Proof. unfold lookup. intros ->. reflexivity. Qed.

Lemma offsetAt_fixed (l : Location) (sec : Z) :
  tx l = [] -> offsetAt l sec = zoneOffset l.
Proof. unfold offsetAt. intros H. now rewrite lookup_fixed. Qed.

Lemma toInstant_fixed (l : Location) (unix : Z) :
  tx l = [] -> toInstant l unix = unix - zoneOffset l.
Proof.
  intros H. unfold toInstant. rewrite (lookup_fixed l unix H).
  destruct (Z.eqb_spec (zoneOffset l) 0) as [E|_]; [lia|].
  rewrite (offsetAt_fixed l _ H). destruct (_ || _); reflexivity.
Qed.

Lemma localSec_fixed (t : Time) :
  tx (Loc t) = [] -> localSec t = Unix t + zoneOffset (Loc t).
Proof. intros H. unfold localSec. now rewrite offsetAt_fixed. Qed.

Lemma Date_midnight (y : Z) (m : Month) (d : Z) (loc : Location) :
  Date y m d 0 0 0 0 loc
  = mkTime (toInstant loc
              (dateToDays (y + (m - 1) / 12) ((m - 1) mod 12 + 1) d
               * secondsPerDay) * 1000000000) loc.
Proof.
  unfold Date, norm.
  repeat (progress (change (0 mod 1000000000) with 0;
                    change (0 / 1000000000) with 0;
                    change (0 + 0) with 0;
                    change (0 mod 60) with 0; change (0 / 60) with 0;
                    change (0 mod 24) with 0; change (0 / 24) with 0)).
  rewrite (Z.add_0_r d). rewrite !Z.mul_0_l, !Z.add_0_r. reflexivity.
Qed.

Lemma Nanosecond_of_Add_whole (at_ : Time) (k : Z) :
  Nanosecond_of (Add at_ (k * Second - Nanosecond_of at_)) = 0.
Proof.
  unfold Nanosecond_of, Add, Second. simpl.
  Z.div_mod_to_equations. lia.
Qed.

Lemma jump_whole_second (at_ : Time) (j : Jump) :
  match j with
  | ByDate _ _ _ hh mm ss ns => hh = 0 /\ mm = 0 /\ ss = 0 /\ ns = 0
  | ByAdd d => exists k, d = k * Second - Nanosecond_of at_
  end ->
  Nanosecond_of (jump at_ j) = 0.
Proof.
  destruct j as [y m d hh mm ss ns|d]; simpl.
  - intros (-> & -> & -> & ->). rewrite Date_midnight.
    unfold Nanosecond_of. simpl. apply Z.mod_mul. lia.
  - intros (k & ->). apply Nanosecond_of_Add_whole.
Qed.

(** Each step either builds a midnight with [time.Date] or adds whole
    seconds less the nanoseconds of [at]. *)
Lemma stepJump_shape (k : Step) (s : ScheduledTicker) (at_ : Time) :
  match stepJump k s at_ with
  | ByDate _ _ _ hh mm ss ns => hh = 0 /\ mm = 0 /\ ss = 0 /\ ns = 0
  | ByAdd d => exists k, d = k * Second - Nanosecond_of at_
  end.
Proof.
  destruct k; simpl.
  - unfold nextMonthJump. destruct (Date_of at_) as [[y m] d].
    destruct (len (months s) =? 0); [auto|].
    destruct (firstAbove (months s) m); auto.
  - unfold nextDayJump. destruct (Date_of at_) as [[y m] d].
    destruct (len (days s) =? 0); [auto|].
    destruct (firstAbove (days s) d); auto.
  - unfold nextHourJump, Clock.
    destruct (len (hours s) =? 0);
      [|destruct (firstAbove (hours s) (Hour_of at_))];
      eexists; unfold Hour, Minute; ring_simplify;
      match goal with
      | |- ?a = _ => instantiate (1 := (a + Nanosecond_of at_) / Second)
      end;
      unfold Second; Z.div_mod_to_equations; lia.
  - unfold nextMinuteJump.
    destruct (len (minutes s) =? 0);
      [|destruct (firstAbove (minutes s) (Minute_of at_))];
      eexists; unfold Hour, Minute; ring_simplify;
      match goal with
      | |- ?a = _ => instantiate (1 := (a + Nanosecond_of at_) / Second)
      end;
      unfold Second; Z.div_mod_to_equations; lia.
  - unfold nextSecondJump.
    destruct (len (seconds s) =? 0);
      [|destruct (firstAbove (seconds s) (Second_of at_))];
      eexists; unfold Hour, Minute; ring_simplify;
      match goal with
      | |- ?a = _ => instantiate (1 := (a + Nanosecond_of at_) / Second)
      end;
      unfold Second; Z.div_mod_to_equations; lia.
Qed.

(** C10: whatever the schedule and the time it is asked about (sub-second
    part or not), every step of [Next] lands on a whole second (it subtracts
    the nanoseconds of [at] or builds a time with zero nanoseconds), and the
    time [Next] returns has a nanosecond part of zero. *)
Theorem Next_whole_second :
  (forall (k : Step) (s : ScheduledTicker) (at_ : Time),
      Nanosecond_of (jump at_ (stepJump k s at_)) = 0)
  /\ (forall (fuel : nat) (s : ScheduledTicker) (at_ r : Time),
        Next fuel s at_ = Some r -> Nanosecond_of r = 0).
Proof.
  assert (Hstep : forall k s at_, Nanosecond_of (jump at_ (stepJump k s at_)) = 0).
  { intros k s at_. apply jump_whole_second, stepJump_shape. }
  split; [exact Hstep|].
  intros fuel s at_ r Hr. unfold Next in Hr.
  eapply (nextLoop_invariant s (fun t => Nanosecond_of t = 0));
    [..|exact Hr]; intros.
  - apply (Hstep StepMonth).
  - apply (Hstep StepDay).
  - apply (Hstep StepHour).
  - apply (Hstep StepMinute).
  - apply (Hstep StepSecond).
  - apply (Hstep StepSecond).
Qed.

Lemma Next_whole_second_witness :
  Next 10 (mkScheduledTicker [0; 30] [] [] [] [] [])
    (mkTime 1577836800123456789 UTC)
  = Some (mkTime 1577836830000000000 UTC)
  /\ Nanosecond_of (mkTime 1577836830000000000 UTC) = 0.
Proof.
  split; [vm_compute; reflexivity|].
  apply (proj2 Next_whole_second 10%nat (mkScheduledTicker [0; 30] [] [] [] [] [])
           (mkTime 1577836800123456789 UTC)).
  vm_compute. reflexivity.
Defined.

(** ** The calendar *)

Lemma yearDayOk_checked :
  allBelow 366 (yearDayOk true) = true /\ allBelow 365 (yearDayOk false) = true.
Proof. split; vm_compute; reflexivity. Qed.

Lemma monthDay_spec (leap : bool) (yd : Z) :
  0 <= yd < 365 + (if leap then 1 else 0) ->
  let '(m, d) := monthDay leap yd in
  1 <= m <= 12
  /\ 1 <= d <= (if (m =? February) && leap then 29
                else daysBefore m - daysBefore (m - 1))
  /\ daysBefore (m - 1) + (if leap && (March <=? m) then 1 else 0) + (d - 1) = yd.
Proof.
  intros Hyd.
  assert (Hok : yearDayOk leap yd = true).
  { destruct yearDayOk_checked as [Ht Hf]. destruct leap.
    - apply (allBelow_spec 366 _ Ht). lia.
    - apply (allBelow_spec 365 _ Hf). lia. }
  unfold yearDayOk in Hok. destruct (monthDay leap yd) as [m d].
  rewrite !andb_true_iff, !Z.leb_le, Z.eqb_eq in Hok.
  destruct Hok as ((((? & ?) & ?) & ?) & ?); auto.
Qed.

(** The date of a day is a date of the calendar and counts back to the
    day. *)
Lemma civil_spec (n : Z) :
  let '(y, m, d) := civil n in
  dateToDays y m d = n /\ 1 <= m <= 12 /\ 1 <= d <= daysIn y m.
Proof.
  unfold civil.
  pose proof (yearDay_spec (n + unixEpochDays)) as Hy.
  destruct (yearDay (n + unixEpochDays)) as [y yd].
  destruct Hy as [Hsum Hyd].
  pose proof (monthDay_spec (isLeap y) yd Hyd) as Hm.
  destruct (monthDay (isLeap y) yd) as [m d].
  destruct Hm as (Hm & Hd & Hback).
  unfold dateToDays, daysIn. repeat split; lia.
Qed.

Lemma daysSinceYear1_succ (y : Z) :
  daysSinceYear1 (y + 1) = daysSinceYear1 y + 365 + (if isLeap y then 1 else 0).
Proof.
  unfold daysSinceYear1, isLeap.
  repeat match goal with
         | |- context [Z.eqb ?a ?b] => destruct (Z.eqb_spec a b)
         end; cbn [andb orb negb]; Z.div_mod_to_equations; lia.
Qed.

Lemma month_cases (m : Z) :
  1 <= m <= 12 ->
  m = 1 \/ m = 2 \/ m = 3 \/ m = 4 \/ m = 5 \/ m = 6
  \/ m = 7 \/ m = 8 \/ m = 9 \/ m = 10 \/ m = 11 \/ m = 12.
Proof. lia. Qed.

Ltac each_month H :=
  destruct (month_cases _ H)
    as [->|[->|[->|[->|[->|[->|[->|[->|[->|[->|[->| ->]]]]]]]]]]].

Ltac days_before :=
  repeat match goal with
         | |- context [daysBefore ?k] =>
             let v := eval vm_compute in (daysBefore k) in
             change (daysBefore k) with v
         | H : context [daysBefore ?k] |- _ =>
             let v := eval vm_compute in (daysBefore k) in
             change (daysBefore k) with v in H
         end.

(** The last day of month [m] is day [daysBefore m] of the year (one more
    in a leap year, from February on), counted from 1. *)
Lemma dateToDays_month_end (y m d : Z) :
  1 <= m <= 12 -> d <= daysIn y m ->
  dateToDays y m d
  <= daysSinceYear1 y - unixEpochDays + daysBefore m
     + (if isLeap y && (February <=? m) then 1 else 0) - 1.
Proof.
  intros Hm Hd. unfold dateToDays, daysIn in *.
  each_month Hm; destruct (isLeap y); simpl in *; days_before; lia.
Qed.

Lemma dateToDays_month_start (y m v d : Z) :
  1 <= m <= 12 -> m < v <= 12 -> 1 <= d ->
  daysSinceYear1 y - unixEpochDays + daysBefore m
  + (if isLeap y && (February <=? m) then 1 else 0)
  <= dateToDays y v d.
Proof.
  intros Hm Hv Hd. unfold dateToDays.
  assert (Hv' : 1 <= v <= 12) by lia.
  each_month Hm; each_month Hv'; try lia; destruct (isLeap y); simpl;
    days_before; lia.
Qed.

(** A later month of the same year, or any month of the year after, begins
    after every day of the month [m]. *)
Lemma dateToDays_later_month (y m d v d' : Z) :
  1 <= m <= 12 -> d <= daysIn y m -> m < v <= 12 -> 1 <= d' ->
  dateToDays y m d < dateToDays y v d'.
Proof.
  intros Hm Hd Hv Hd'.
  pose proof (dateToDays_month_end y m d Hm Hd).
  pose proof (dateToDays_month_start y m v d' Hm Hv Hd'). lia.
Qed.

Lemma dateToDays_next_year (y m d v d' : Z) :
  1 <= m <= 12 -> d <= daysIn y m -> 1 <= v <= 12 -> 1 <= d' ->
  dateToDays y m d < dateToDays (y + 1) v d'.
Proof.
  intros Hm Hd Hv Hd'.
  pose proof (dateToDays_month_end y m d Hm Hd) as Hend.
  assert (Hstart : daysSinceYear1 (y + 1) - unixEpochDays <= dateToDays (y + 1) v d').
  { unfold dateToDays.
    each_month Hv; destruct (isLeap (y + 1)); simpl; days_before; lia. }
  rewrite daysSinceYear1_succ in Hstart.
  assert (daysBefore m + (if isLeap y && (February <=? m) then 1 else 0)
          <= 365 + (if isLeap y then 1 else 0)).
  { each_month Hm; destruct (isLeap y); simpl; days_before; lia. }
  lia.
Qed.

(** In a location without transitions, [time.Date] of a midnight on a
    later day of the local calendar is a later instant. *)
Lemma Date_midnight_after (at_ : Time) (y : Z) (m : Month) (d : Z) :
  tx (Loc at_) = [] ->
  localDays at_ < dateToDays (y + (m - 1) / 12) ((m - 1) mod 12 + 1) d ->
  unixNano at_ < unixNano (Date y m d 0 0 0 0 (Loc at_)).
Proof.
  intros Hfix. rewrite Date_midnight, (toInstant_fixed _ _ Hfix). simpl.
  generalize (dateToDays (y + (m - 1) / 12) ((m - 1) mod 12 + 1) d).
  intros D. unfold localDays. rewrite (localSec_fixed _ Hfix).
  unfold Unix, secondsPerDay.
  generalize (zoneOffset (Loc at_)) (unixNano at_). intros off u H.
  Z.div_mod_to_equations. lia.
Qed.

(** ** The steps of [Next] go forward *)

Lemma firstAbove_Some (l : list Z) (x v : Z) :
  firstAbove l x = Some v -> In v l /\ x < v.
Proof.
  unfold firstAbove. intros H. apply find_some in H as [Hin Hlt].
  apply Z.ltb_lt in Hlt. auto.
Qed.

Lemma firstAbove_None (l : list Z) (x : Z) :
  firstAbove l x = None -> forall v, In v l -> v <= x.
Proof.
  unfold firstAbove. intros H v Hin.
  pose proof (find_none _ _ H v Hin) as Hv. simpl in Hv.
  apply Z.ltb_ge in Hv. exact Hv.
Qed.

Lemma first_In (l : list Z) : (len l =? 0) = false -> In (first l) l.
Proof.
  destruct l as [|x l]; [discriminate|]. intros _. left. reflexivity.
Qed.

Lemma inRange_In (lo hi : Z) (l : list Z) (v : Z) :
  inRange lo hi l -> In v l -> lo <= v <= hi.
Proof.
  unfold inRange. rewrite Forall_forall. auto.
Qed.

Lemma clock_ranges (t : Time) :
  0 <= Nanosecond_of t < 1000000000
  /\ 0 <= Second_of t <= 59 /\ 0 <= Minute_of t <= 59 /\ 0 <= Hour_of t <= 23.
Proof.
  unfold Nanosecond_of, Second_of, Minute_of, Hour_of, secondsPerMinute,
    secondsPerHour, secondsPerDay.
  generalize (localSec t) (unixNano t). intros a b.
  Z.div_mod_to_equations. lia.
Qed.

Lemma jump_Loc (at_ : Time) (j : Jump) : Loc (jump at_ j) = Loc at_.
Proof. destruct j; reflexivity. Qed.

Section Forward.

Variable s : ScheduledTicker.
Hypothesis Hs : Ranges s.

Lemma nextSecondJump_bounds (at_ : Time) :
  exists d, nextSecondJump s at_ = ByAdd d /\ 0 < d <= Minute.
Proof.
  destruct (clock_ranges at_) as (Hn & Hsec & _).
  unfold nextSecondJump.
  destruct (len (seconds s) =? 0) eqn:Hlen.
  - eexists. split; [reflexivity|]. unfold Minute, Second. lia.
  - pose proof (inRange_In _ _ _ (first (seconds s)) (seconds_range s Hs)
                  (first_In _ Hlen)) as Hf.
    destruct (firstAbove (seconds s) (Second_of at_)) as [v|] eqn:Hfa.
    + apply firstAbove_Some in Hfa as [Hin Hlt].
      pose proof (inRange_In _ _ _ v (seconds_range s Hs) Hin).
      eexists. split; [reflexivity|]. unfold Minute, Second. lia.
    + pose proof (firstAbove_None _ _ Hfa _ (first_In _ Hlen)).
      eexists. split; [reflexivity|].
      unfold Minute, Second, secondsInMinute. lia.
Qed.

Lemma nextMinuteJump_bounds (at_ : Time) :
  exists d, nextMinuteJump s at_ = ByAdd d /\ 0 < d <= Hour.
Proof.
  destruct (clock_ranges at_) as (Hn & Hsec & Hmin & _).
  unfold nextMinuteJump.
  destruct (len (minutes s) =? 0) eqn:Hlen.
  - eexists. split; [reflexivity|]. unfold Hour, Minute, Second. lia.
  - pose proof (inRange_In _ _ _ (first (minutes s)) (minutes_range s Hs)
                  (first_In _ Hlen)) as Hf.
    destruct (firstAbove (minutes s) (Minute_of at_)) as [v|] eqn:Hfa.
    + apply firstAbove_Some in Hfa as [Hin Hlt].
      pose proof (inRange_In _ _ _ v (minutes_range s Hs) Hin).
      eexists. split; [reflexivity|]. unfold Hour, Minute, Second. lia.
    + pose proof (firstAbove_None _ _ Hfa _ (first_In _ Hlen)).
      eexists. split; [reflexivity|].
      unfold Hour, Minute, Second, minutesInHour. lia.
Qed.

Lemma nextHourJump_bounds (at_ : Time) :
  exists d, nextHourJump s at_ = ByAdd d /\ 0 < d <= 24 * Hour.
Proof.
  destruct (clock_ranges at_) as (Hn & Hsec & Hmin & Hhrs).
  unfold nextHourJump, Clock.
  destruct (len (hours s) =? 0) eqn:Hlen.
  - eexists. split; [reflexivity|]. unfold Hour, Minute, Second. lia.
  - pose proof (inRange_In _ _ _ (first (hours s)) (hours_range s Hs)
                  (first_In _ Hlen)) as Hf.
    destruct (firstAbove (hours s) (Hour_of at_)) as [v|] eqn:Hfa.
    + apply firstAbove_Some in Hfa as [Hin Hlt].
      pose proof (inRange_In _ _ _ v (hours_range s Hs) Hin).
      eexists. split; [reflexivity|]. unfold Hour, Minute, Second. lia.
    + pose proof (firstAbove_None _ _ Hfa _ (first_In _ Hlen)).
      eexists. split; [reflexivity|].
      unfold Hour, Minute, Second, hoursInDay. lia.
Qed.

Lemma norm_month (v : Z) :
  1 <= v <= 12 -> (v - 1) / 12 = 0 /\ (v - 1) mod 12 + 1 = v.
Proof. intros H. Z.div_mod_to_equations. lia. Qed.

Lemma nextMonth_after (at_ : Time) :
  tx (Loc at_) = [] -> unixNano at_ < unixNano (nextMonth s at_).
Proof.
  intros Hfix. unfold nextMonth, nextMonthJump, Date_of.
  pose proof (civil_spec (localDays at_)) as Hc.
  destruct (civil (localDays at_)) as [[y m] d].
  destruct Hc as (Hback & Hm & Hd).
  assert (Hgo : forall v, 1 <= v <= 12 ->
            unixNano at_ < unixNano (Date (y + 1) v 1 0 0 0 0 (Loc at_))).
  { intros v Hv. apply (Date_midnight_after _ _ _ _ Hfix).
    destruct (norm_month v Hv) as [-> ->]. rewrite Z.add_0_r, <- Hback.
    apply dateToDays_next_year; lia. }
  destruct (len (months s) =? 0) eqn:Hlen; unfold jump.
  - apply Hgo. lia.
  - destruct (firstAbove (months s) m) as [v|] eqn:Hfa.
    + apply firstAbove_Some in Hfa as [Hin Hlt].
      pose proof (inRange_In _ _ _ v (months_range s Hs) Hin) as Hv.
      apply (Date_midnight_after _ _ _ _ Hfix).
      destruct (norm_month v Hv) as [-> ->]. rewrite Z.add_0_r, <- Hback.
      apply dateToDays_later_month; lia.
    + apply Hgo.
      exact (inRange_In _ _ _ _ (months_range s Hs) (first_In _ Hlen)).
Qed.

Lemma nextDay_after (at_ : Time) :
  tx (Loc at_) = [] -> unixNano at_ < unixNano (nextDay s at_).
Proof.
  intros Hfix. unfold nextDay, nextDayJump, Date_of.
  pose proof (civil_spec (localDays at_)) as Hc.
  destruct (civil (localDays at_)) as [[y m] d].
  destruct Hc as (Hback & Hm & Hd).
  assert (Hsame : forall v, d < v ->
            unixNano at_ < unixNano (Date y m v 0 0 0 0 (Loc at_))).
  { intros v Hv. apply (Date_midnight_after _ _ _ _ Hfix).
    destruct (norm_month m Hm) as [-> ->]. rewrite Z.add_0_r, <- Hback.
    unfold dateToDays. lia. }
  destruct (len (days s) =? 0) eqn:Hlen; unfold jump.
  - apply Hsame. lia.
  - destruct (firstAbove (days s) d) as [v|] eqn:Hfa.
    + apply firstAbove_Some in Hfa as [Hin Hlt]. apply Hsame. exact Hlt.
    + pose proof (inRange_In _ _ _ _ (days_range s Hs) (first_In _ Hlen)) as Hf.
      apply (Date_midnight_after _ _ _ _ Hfix). rewrite <- Hback.
      destruct (Z.eq_dec m 12) as [->|Hne].
      * change ((12 + 1 - 1) / 12) with 1.
        change ((12 + 1 - 1) mod 12 + 1) with 1.
        apply dateToDays_next_year; lia.
      * assert (Hv : 1 <= m + 1 <= 12) by lia.
        destruct (norm_month (m + 1) Hv) as [-> ->]. rewrite Z.add_0_r.
        apply dateToDays_later_month; lia.
Qed.

Lemma nextHour_after (at_ : Time) : unixNano at_ < unixNano (nextHour s at_).
Proof.
  unfold nextHour. destruct (nextHourJump_bounds at_) as (d & -> & Hd).
  simpl. lia.
Qed.

Lemma nextMinute_after (at_ : Time) : unixNano at_ < unixNano (nextMinute s at_).
Proof.
  unfold nextMinute. destruct (nextMinuteJump_bounds at_) as (d & -> & Hd).
  simpl. lia.
Qed.

Lemma nextSecond_after (at_ : Time) : unixNano at_ < unixNano (nextSecond s at_).
Proof.
  unfold nextSecond. destruct (nextSecondJump_bounds at_) as (d & -> & Hd).
  simpl. lia.
Qed.

Lemma Next_after (fuel : nat) (at_ r : Time) :
  tx (Loc at_) = [] ->
  Next fuel s at_ = Some r -> unixNano at_ < unixNano r.
Proof.
  unfold Next. intros Hfix Hr.
  refine (proj1 (nextLoop_invariant s
            (fun t => unixNano at_ < unixNano t /\ Loc t = Loc at_)
            _ _ _ _ _ fuel _ r _ Hr)).
  - intros x [Hx Hl]. split; [|unfold nextMonth; now rewrite jump_Loc].
    pose proof (nextMonth_after x ltac:(now rewrite Hl)). lia.
  - intros x [Hx Hl]. split; [|unfold nextDay; now rewrite jump_Loc].
    pose proof (nextDay_after x ltac:(now rewrite Hl)). lia.
  - intros x [Hx Hl]. split; [|unfold nextHour; now rewrite jump_Loc].
    pose proof (nextHour_after x). lia.
  - intros x [Hx Hl]. split; [|unfold nextMinute; now rewrite jump_Loc].
    pose proof (nextMinute_after x). lia.
  - intros x [Hx Hl]. split; [|unfold nextSecond; now rewrite jump_Loc].
    pose proof (nextSecond_after x). lia.
  - split; [apply nextSecond_after|unfold nextSecond; now rewrite jump_Loc].
Qed.

End Forward.

(** ** Sorting and removing duplicates *)

Lemma insert_In (x y : Z) (l : list Z) : In y (insert x l) <-> y = x \/ In y l.
Proof.
  induction l as [|z l IH]; simpl.
  - intuition.
  - destruct (x <=? z); simpl; rewrite ?IH; intuition.
Qed.

Lemma insert_sorted (x : Z) (l : list Z) :
  StronglySorted Z.le l -> StronglySorted Z.le (insert x l).
Proof.
  induction 1 as [|z l Hss IH Hall]; simpl.
  - repeat constructor.
  - destruct (Z.leb_spec x z).
    + constructor; [constructor; assumption|].
      constructor; [assumption|].
      rewrite Forall_forall in Hall |- *. intros y Hy.
      specialize (Hall y Hy). lia.
    + constructor; [exact IH|].
      rewrite Forall_forall in Hall |- *. intros y Hy.
      apply insert_In in Hy as [->|Hy]; [lia|auto].
Qed.

Lemma sortSlice_In (y : Z) (l : list Z) : In y (sortSlice l) <-> In y l.
Proof.
  induction l as [|x l IH]; simpl; [tauto|].
  rewrite insert_In, IH. intuition.
Qed.

Lemma sortSlice_sorted (l : list Z) : StronglySorted Z.le (sortSlice l).
Proof.
  induction l as [|x l IH]; simpl; [constructor|].
  apply insert_sorted, IH.
Qed.

Lemma Unique_In (y : Z) (l : list Z) : In y (sliceutil.Unique l) <-> In y l.
Proof.
  induction l as [|x l IH]; simpl; [tauto|].
  rewrite filter_In, IH. rewrite negb_true_iff, Z.eqb_neq.
  destruct (Z.eq_dec x y); intuition.
Qed.

Lemma filter_ascending (f : Z -> bool) (l : list Z) :
  ascending l -> ascending (filter f l).
Proof.
  unfold ascending. induction 1 as [|x l Hss IH Hall]; simpl; [constructor|].
  destruct (f x); [|exact IH].
  constructor; [exact IH|].
  rewrite Forall_forall in Hall |- *. intros y Hy.
  apply filter_In in Hy as [Hy _]. auto.
Qed.

Lemma Unique_ascending (l : list Z) :
  StronglySorted Z.le l -> ascending (sliceutil.Unique l).
Proof.
  induction 1 as [|x l Hss IH Hall]; simpl; [constructor|].
  constructor.
  - apply filter_ascending, IH.
  - rewrite Forall_forall in Hall |- *. intros y Hy.
    apply filter_In in Hy as [Hy Hne].
    apply (proj1 (Unique_In _ _)) in Hy. specialize (Hall y Hy).
    apply negb_true_iff, Z.eqb_neq in Hne. lia.
Qed.

Lemma insert_ascending (x : Z) (l : list Z) :
  Forall (Z.lt x) l -> insert x l = x :: l.
Proof.
  destruct l as [|y l]; [reflexivity|]. intros H. simpl.
  apply Forall_inv in H. destruct (Z.leb_spec x y); [reflexivity|lia].
Qed.

Lemma sortSlice_ascending (l : list Z) : ascending l -> sortSlice l = l.
Proof.
  induction 1 as [|x l Hss IH Hall]; simpl; [reflexivity|].
  rewrite IH. apply insert_ascending, Hall.
Qed.

Lemma filter_above (x : Z) (l : list Z) :
  Forall (Z.lt x) l -> filter (fun y => negb (y =? x)) l = l.
Proof.
  induction 1 as [|y l Hy Hall IH]; simpl; [reflexivity|].
  destruct (Z.eqb_spec y x); [lia|]. simpl. now rewrite IH.
Qed.

Lemma Unique_ascending_id (l : list Z) : ascending l -> sliceutil.Unique l = l.
Proof.
  induction 1 as [|x l Hss IH Hall]; simpl; [reflexivity|].
  rewrite IH. f_equal. apply filter_above, Hall.
Qed.

Lemma ascending_length (l : list Z) :
  ascending l -> forall lo hi, lo <= hi + 1 -> inRange lo hi l ->
  len l <= hi - lo + 1.
Proof.
  unfold len, inRange.
  induction 1 as [|x l Hss IH Hall]; intros lo hi Hlo Hr; simpl List.length.
  - simpl. lia.
  - inversion Hr as [|? ? Hx Hr']; subst.
    assert (Hr2 : Forall (fun v => x + 1 <= v <= hi) l).
    { rewrite Forall_forall in *. intros v Hv.
      specialize (Hall v Hv). specialize (Hr' v Hv). lia. }
    specialize (IH (x + 1) hi ltac:(lia) Hr2). lia.
Qed.

Lemma zrange_In (lo : Z) (n : nat) (v : Z) :
  In v (zrange lo n) <-> lo <= v < lo + Z.of_nat n.
Proof.
  unfold zrange. rewrite in_map_iff. split.
  - intros (i & <- & Hi). apply in_seq in Hi. lia.
  - intros Hv. exists (Z.to_nat (v - lo)). split; [lia|].
    apply in_seq. lia.
Qed.

Lemma zrange_NoDup (lo : Z) (n : nat) : NoDup (zrange lo n).
Proof.
  unfold zrange. apply Injective_map_NoDup; [|apply seq_NoDup].
  intros a b Hab. lia.
Qed.

Lemma zrange_length (lo : Z) (n : nat) : List.length (zrange lo n) = n.
Proof. unfold zrange. now rewrite length_map, length_seq. Qed.

(** A list that holds every value from [lo] to [hi] has at least that many
    elements. *)
Lemma covering_length (l : list Z) (lo hi : Z) :
  (forall v, lo <= v <= hi -> In v l) -> hi - lo + 1 <= len l.
Proof.
  intros Hcov. unfold len.
  destruct (Z.le_gt_cases lo hi) as [Hle|Hgt]; [|lia].
  pose proof (NoDup_incl_length (zrange_NoDup lo (Z.to_nat (hi - lo + 1)))
                (l' := l)) as H.
  rewrite zrange_length in H.
  assert (Hincl : incl (zrange lo (Z.to_nat (hi - lo + 1))) l).
  { intros v Hv. apply zrange_In in Hv. apply Hcov. lia. }
  specialize (H Hincl). lia.
Qed.

(** ** [parse], field by field *)

Lemma Split_len_pos (s : string) (sep : ascii) : 1 <= len (Split s sep).
Proof.
  unfold len. induction s as [|c r IH]; simpl; [lia|].
  destruct (Ascii.eqb c sep); simpl List.length; [lia|].
  destruct (Split r sep); simpl List.length in *; lia.
Qed.

Lemma NewScheduledTicker_fields (spec : string) :
  NewScheduledTicker spec
  = if Z.of_nat (String.length spec) =? 0 then inr ErrSpecEmpty
    else if 6 <? len (Split spec " ") then inr (ErrSpec spec)
    else fieldsOf (Split spec " ").
Proof.
  unfold NewScheduledTicker, parse, fieldsOf, partValue, present, partOf, field.
  pose proof (Split_len_pos spec " ") as Hpos.
  set (parts := Split spec " ") in *.
  destruct (Z.of_nat (String.length spec) =? 0); [reflexivity|].
  destruct (6 <? len parts); [reflexivity|].
  cbv beta iota zeta delta [fieldIndex fieldSuffix fieldParser].
  repeat match goal with
         | |- context [?a <=? len parts] => destruct (Z.leb_spec a (len parts))
         | |- context [?a <? len parts] => destruct (Z.ltb_spec a (len parts))
         end; try lia;
    repeat match goal with
           | |- context [parsePart ?a ?b ?c] => destruct (parsePart a b c)
           end; reflexivity.
Qed.

Lemma fieldParser_range (f : Field) (tok : string) (v : Z) :
  fieldParser f tok = inl v -> fieldLow f <= v <= fieldHigh f.
Proof.
  destruct f; simpl;
    unfold parseSecond, parseMinute, parseHour, parseDay, parseMonth,
      parseWeekday, secondsInMinute, minutesInHour, hoursInDay, maxDaysInMonth.
  1-4: destruct (Atoi tok) as [i|e]; [|discriminate];
       match goal with
       | |- (if ?a || ?b then _ else _) = _ -> _ =>
           destruct a eqn:Ha; destruct b eqn:Hb; simpl; try discriminate
       end;
       intros [= <-]; lia.
  all: repeat match goal with
              | |- (if ?b then _ else _) = _ -> _ => destruct b
              end;
       intros [= <-]; vm_compute; split; discriminate.
Qed.

Lemma parseAll_Forall (fn : string -> Z + error) (P : Z -> Prop) :
  (forall tok v, fn tok = inl v -> P v) ->
  forall parts nums, parseAll fn parts = inl nums -> Forall P nums.
Proof.
  intros Hfn. induction parts as [|part rest IH]; intros nums H; simpl in H.
  - injection H as <-. constructor.
  - destruct (fn part) as [num|e] eqn:Hnum; [|discriminate].
    destruct (parseAll fn rest) as [nums'|e]; [|discriminate].
    injection H as <-. constructor; eauto.
Qed.

Lemma parsePart_supplied (f : Field) (part : string) :
  parsePart part (fieldSuffix f) (fieldParser f)
  = match supplied f part with
    | inr e => inr e
    | inl nums =>
        if String.eqb (TrimSuffix part (fieldSuffix f)) "*" then inl []
        else if len nums =? 1 then inl nums
        else inl (sliceutil.Unique (sortSlice nums))
    end.
Proof.
  unfold parsePart, supplied, tokens.
  destruct (String.eqb (TrimSuffix part (fieldSuffix f)) "*"); [reflexivity|].
  destruct (parseAll _ _); reflexivity.
Qed.

Lemma single_ascending (l : list Z) : len l = 1 -> ascending l.
Proof.
  destruct l as [|x [|y l]]; unfold len; simpl List.length; try lia.
  intros _. repeat constructor.
Qed.

Lemma parsePart_spec (f : Field) (part : string) (nums : list Z) :
  parsePart part (fieldSuffix f) (fieldParser f) = inl nums ->
  inRange (fieldLow f) (fieldHigh f) nums /\ ascending nums.
Proof.
  rewrite parsePart_supplied. unfold supplied.
  destruct (parseAll _ _) as [raw|e] eqn:Hraw; [|discriminate].
  pose proof (parseAll_Forall _ _ (fieldParser_range f) _ _ Hraw) as Hr.
  destruct (String.eqb _ "*").
  { intros [= <-]. split; constructor. }
  destruct (Z.eqb_spec (len raw) 1) as [Hone|_]; intros [= <-].
  - split; [exact Hr|apply single_ascending, Hone].
  - split.
    + unfold inRange in *. rewrite Forall_forall in *. intros v Hv.
      apply Hr. apply sortSlice_In, Unique_In. exact Hv.
    + apply Unique_ascending, sortSlice_sorted.
Qed.

Lemma partValue_spec (parts : list string) (f : Field) (nums : list Z) :
  partValue parts f = inl nums ->
  inRange (fieldLow f) (fieldHigh f) nums /\ ascending nums.
Proof.
  unfold partValue. destruct (present parts f).
  - apply parsePart_spec.
  - intros [= <-]. split; constructor.
Qed.

Lemma collapse_cases (n : Z) (l : list Z) :
  (collapse n l = [] /\ len l = n) \/ (collapse n l = l /\ len l <> n).
Proof.
  unfold collapse. destruct (Z.eqb_spec (len l) n); auto.
Qed.

Lemma collapse_spec (f : Field) (l : list Z) :
  inRange (fieldLow f) (fieldHigh f) l -> ascending l ->
  inRange (fieldLow f) (fieldHigh f) (collapse (fieldCount f) l)
  /\ ascending (collapse (fieldCount f) l)
  /\ len (collapse (fieldCount f) l) < fieldCount f.
Proof.
  intros Hr Ha.
  assert (Hlen : len l <= fieldCount f).
  { pose proof (ascending_length l Ha (fieldLow f) (fieldHigh f)) as H.
    destruct f; simpl in *; apply H; auto; lia. }
  destruct (collapse_cases (fieldCount f) l) as [[-> _]|[-> Hne]].
  - repeat split; try constructor. destruct f; reflexivity.
  - repeat split; try assumption. lia.
Qed.

(** A specification that [parse] accepts gives a ticker in normal form. *)
Lemma fieldsOf_Normal (parts : list string) (s : ScheduledTicker) :
  fieldsOf parts = inl s -> Normal s.
Proof.
  unfold fieldsOf.
  destruct (partValue parts FSecond) as [v0|] eqn:H0; [|discriminate].
  destruct (partValue parts FMinute) as [v1|] eqn:H1; [|discriminate].
  destruct (partValue parts FHour) as [v2|] eqn:H2; [|discriminate].
  destruct (partValue parts FDay) as [v3|] eqn:H3; [|discriminate].
  destruct (partValue parts FMonth) as [v4|] eqn:H4; [|discriminate].
  destruct (partValue parts FWeekday) as [v5|] eqn:H5; [|discriminate].
  intros [= <-].
  apply partValue_spec in H0 as [R0 A0]. apply partValue_spec in H1 as [R1 A1].
  apply partValue_spec in H2 as [R2 A2]. apply partValue_spec in H3 as [R3 A3].
  apply partValue_spec in H4 as [R4 A4]. apply partValue_spec in H5 as [R5 A5].
  destruct (collapse_spec FSecond v0 R0 A0) as (? & ? & ?).
  destruct (collapse_spec FMinute v1 R1 A1) as (? & ? & ?).
  destruct (collapse_spec FHour v2 R2 A2) as (? & ? & ?).
  destruct (collapse_spec FDay v3 R3 A3) as (? & ? & ?).
  destruct (collapse_spec FMonth v4 R4 A4) as (? & ? & ?).
  destruct (collapse_spec FWeekday v5 R5 A5) as (? & ? & ?).
  constructor; [constructor|..]; assumption.
Qed.

Lemma NewScheduledTicker_fieldsOf (spec : string) (s : ScheduledTicker) :
  NewScheduledTicker spec = inl s -> fieldsOf (Split spec " ") = inl s.
Proof.
  rewrite NewScheduledTicker_fields.
  destruct (_ =? 0); [discriminate|]. destruct (6 <? _); [discriminate|]. auto.
Qed.

Lemma NewScheduledTicker_Normal (spec : string) (s : ScheduledTicker) :
  NewScheduledTicker spec = inl s -> Normal s.
Proof.
  intros H. eapply fieldsOf_Normal, NewScheduledTicker_fieldsOf, H.
Qed.

(** ** Schedules of the clock only: [Next] returns *)

Lemma localSec_Add (at_ : Time) (d k : Z) :
  tx (Loc at_) = [] ->
  d = k * Second - Nanosecond_of at_ ->
  localSec (Add at_ d) = localSec at_ + k.
Proof.
  intros Hfix ->. rewrite !localSec_fixed by exact Hfix.
  unfold Unix, Add, Nanosecond_of, Second. simpl.
  generalize (unixNano at_). intros u. Z.div_mod_to_equations. lia.
Qed.

Lemma matches_In (l : list Z) (x : Z) : In x l -> matches l x = true.
Proof. intros H. apply matches_spec. auto. Qed.

Lemma matches_false (l : list Z) (x : Z) :
  matches l x = false -> (len l =? 0) = false /\ ~ In x l.
Proof.
  intros H. split.
  - unfold matches in H. destruct (len l =? 0); [discriminate|reflexivity].
  - intros Hin. rewrite (matches_In _ _ Hin) in H. discriminate.
Qed.

(** Where the value [x] of the time is not listed, and is the lowest of
    its range, a listed value above it is found. *)
Lemma firstAbove_lowest (l : list Z) (lo hi x : Z) :
  inRange lo hi l -> x = lo -> matches l x = false ->
  exists v, firstAbove l x = Some v /\ In v l /\ x < v <= hi.
Proof.
  intros Hr -> Hm. apply matches_false in Hm as [Hlen Hnot].
  destruct (firstAbove l lo) as [v|] eqn:Hfa.
  - apply firstAbove_Some in Hfa as [Hin Hlt].
    pose proof (inRange_In _ _ _ _ Hr Hin). exists v. repeat split; auto; lia.
  - pose proof (first_In l Hlen) as Hin.
    pose proof (firstAbove_None _ _ Hfa _ Hin).
    pose proof (inRange_In _ _ _ _ Hr Hin).
    assert (first l = lo) by lia. congruence.
Qed.

Section ClockOnly.

Variable s : ScheduledTicker.
Hypothesis Hs : Ranges s.

Lemma nextSecond_matchSecond (at_ : Time) :
  tx (Loc at_) = [] -> matchSecond s (nextSecond s at_) = true.
Proof.
  intros Hfix. unfold matchSecond, nextSecond, nextSecondJump.
  destruct (clock_ranges at_) as (_ & Hsec & _).
  destruct (len (seconds s) =? 0) eqn:Hlen.
  { unfold matches. now rewrite Hlen. }
  pose proof (first_In _ Hlen) as Hfirst.
  pose proof (inRange_In _ _ _ _ (seconds_range s Hs) Hfirst) as Hf.
  destruct (firstAbove (seconds s) (Second_of at_)) as [v|] eqn:Hfa;
    cbn [jump]; apply matches_In.
  - apply firstAbove_Some in Hfa as [Hin Hlt].
    pose proof (inRange_In _ _ _ _ (seconds_range s Hs) Hin) as Hv.
    replace (Second_of (Add at_ _)) with v; [exact Hin|].
    unfold Second_of in *. erewrite (localSec_Add _ _ _ Hfix) by reflexivity.
    unfold secondsPerMinute in *. Z.div_mod_to_equations. lia.
  - replace (Second_of (Add at_ _)) with (first (seconds s)); [exact Hfirst|].
    unfold Second_of in *. erewrite (localSec_Add _ _ _ Hfix) by reflexivity.
    unfold secondsPerMinute, secondsInMinute in *.
    Z.div_mod_to_equations. lia.
Qed.

(** From second 0 of a minute whose second is not listed, the second step
    stays within the minute. *)
Lemma nextSecond_same_minute (at_ : Time) :
  tx (Loc at_) = [] ->
  Second_of at_ = 0 -> matchSecond s at_ = false ->
  Hour_of (nextSecond s at_) = Hour_of at_
  /\ Minute_of (nextSecond s at_) = Minute_of at_.
Proof.
  intros Hfix Hz Hm. unfold matchSecond in Hm.
  destruct (firstAbove_lowest _ 0 59 _ (seconds_range s Hs) Hz Hm)
    as (v & Hfa & _ & Hv).
  apply matches_false in Hm as [Hlen _].
  unfold nextSecond, nextSecondJump. rewrite Hlen, Hfa. cbn [jump].
  unfold Hour_of, Minute_of, Second_of in *.
  erewrite (localSec_Add _ _ _ Hfix) by reflexivity.
  unfold secondsPerMinute, secondsPerHour, secondsPerDay in *.
  Z.div_mod_to_equations. lia.
Qed.

Lemma nextMinute_matchMinute (at_ : Time) :
  tx (Loc at_) = [] ->
  matchMinute s (nextMinute s at_) = true /\ Second_of (nextMinute s at_) = 0.
Proof.
  intros Hfix. unfold matchMinute, nextMinute, nextMinuteJump.
  destruct (clock_ranges at_) as (_ & Hsec & Hmin & _).
  destruct (len (minutes s) =? 0) eqn:Hlen.
  { split; [unfold matches; now rewrite Hlen|]. cbn [jump].
    unfold Second_of in *.
    erewrite (localSec_Add _ _ (60 - localSec at_ mod secondsPerMinute) Hfix)
      by (unfold Minute; ring).
    unfold secondsPerMinute. Z.div_mod_to_equations. lia. }
  pose proof (first_In _ Hlen) as Hfirst.
  pose proof (inRange_In _ _ _ _ (minutes_range s Hs) Hfirst) as Hf.
  destruct (firstAbove (minutes s) (Minute_of at_)) as [v|] eqn:Hfa; cbn [jump].
  - apply firstAbove_Some in Hfa as [Hin Hlt].
    pose proof (inRange_In _ _ _ _ (minutes_range s Hs) Hin) as Hv.
    assert (Hl : localSec (Add at_ ((v - Minute_of at_) * Minute
                                     - (Second_of at_ * Second + Nanosecond_of at_)))
                 = localSec at_ + ((v - Minute_of at_) * 60 - Second_of at_)).
    { apply (localSec_Add _ _ _ Hfix). unfold Minute. ring. }
    split.
    + apply matches_In. replace (Minute_of (Add at_ _)) with v; [exact Hin|].
      unfold Minute_of, Second_of in *. rewrite Hl.
      unfold secondsPerMinute, secondsPerHour in *.
      Z.div_mod_to_equations. lia.
    + unfold Minute_of, Second_of in *. rewrite Hl.
      unfold secondsPerMinute, secondsPerHour in *.
      Z.div_mod_to_equations. lia.
  - assert (Hl : localSec (Add at_ ((minutesInHour - Minute_of at_
                                      + first (minutes s)) * Minute
                                     - (Second_of at_ * Second + Nanosecond_of at_)))
                 = localSec at_ + ((60 - Minute_of at_ + first (minutes s)) * 60
                                   - Second_of at_)).
    { apply (localSec_Add _ _ _ Hfix). unfold Minute, minutesInHour. ring. }
    split.
    + apply matches_In.
      replace (Minute_of (Add at_ _)) with (first (minutes s)); [exact Hfirst|].
      unfold Minute_of, Second_of in *. rewrite Hl.
      unfold secondsPerMinute, secondsPerHour in *.
      Z.div_mod_to_equations. lia.
    + unfold Minute_of, Second_of in *. rewrite Hl.
      unfold secondsPerMinute, secondsPerHour in *.
      Z.div_mod_to_equations. lia.
Qed.

(** From minute 0, second 0 of an hour whose minute is not listed, the
    minute step stays within the hour. *)
Lemma nextMinute_same_hour (at_ : Time) :
  tx (Loc at_) = [] ->
  Minute_of at_ = 0 -> Second_of at_ = 0 -> matchMinute s at_ = false ->
  Hour_of (nextMinute s at_) = Hour_of at_.
Proof.
  intros Hfix Hz Hsz Hm. unfold matchMinute in Hm.
  destruct (firstAbove_lowest _ 0 59 _ (minutes_range s Hs) Hz Hm)
    as (v & Hfa & _ & Hv).
  apply matches_false in Hm as [Hlen _].
  unfold nextMinute, nextMinuteJump. rewrite Hlen, Hfa. cbn [jump].
  assert (Hl : localSec (Add at_ ((v - Minute_of at_) * Minute
                                   - (Second_of at_ * Second + Nanosecond_of at_)))
               = localSec at_ + ((v - Minute_of at_) * 60 - Second_of at_)).
  { apply (localSec_Add _ _ _ Hfix). unfold Minute. ring. }
  unfold Hour_of, Minute_of, Second_of in *. rewrite Hl.
  unfold secondsPerMinute, secondsPerHour, secondsPerDay in *.
  Z.div_mod_to_equations. lia.
Qed.

Lemma nextHour_matchHour (at_ : Time) :
  tx (Loc at_) = [] ->
  matchHour s (nextHour s at_) = true
  /\ Minute_of (nextHour s at_) = 0 /\ Second_of (nextHour s at_) = 0.
Proof.
  intros Hfix. unfold matchHour, nextHour, nextHourJump, Clock.
  destruct (clock_ranges at_) as (_ & Hsec & Hmin & Hhrs).
  destruct (len (hours s) =? 0) eqn:Hlen.
  { split; [unfold matches; now rewrite Hlen|]. cbn [jump].
    assert (Hl : localSec (Add at_ (Hour - (Minute_of at_ * Minute
                                            + Second_of at_ * Second
                                            + Nanosecond_of at_)))
                 = localSec at_ + (3600 - Minute_of at_ * 60 - Second_of at_)).
    { apply (localSec_Add _ _ _ Hfix). unfold Hour, Minute. ring. }
    unfold Hour_of, Minute_of, Second_of in *. rewrite Hl.
    unfold secondsPerMinute, secondsPerHour, secondsPerDay in *.
    Z.div_mod_to_equations. lia. }
  pose proof (first_In _ Hlen) as Hfirst.
  pose proof (inRange_In _ _ _ _ (hours_range s Hs) Hfirst) as Hf.
  destruct (firstAbove (hours s) (Hour_of at_)) as [v|] eqn:Hfa; cbn [jump].
  - apply firstAbove_Some in Hfa as [Hin Hlt].
    pose proof (inRange_In _ _ _ _ (hours_range s Hs) Hin) as Hv.
    assert (Hl : localSec (Add at_ ((v - Hour_of at_) * Hour
                                     - (Minute_of at_ * Minute
                                        + Second_of at_ * Second
                                        + Nanosecond_of at_)))
                 = localSec at_ + ((v - Hour_of at_) * 3600
                                   - Minute_of at_ * 60 - Second_of at_)).
    { apply (localSec_Add _ _ _ Hfix). unfold Hour, Minute. ring. }
    split; [apply matches_In;
            replace (Hour_of (Add at_ _)) with v; [exact Hin|]|];
      unfold Hour_of, Minute_of, Second_of in *; rewrite Hl;
      unfold secondsPerMinute, secondsPerHour, secondsPerDay in *;
      Z.div_mod_to_equations; lia.
  - assert (Hl : localSec (Add at_ ((hoursInDay - Hour_of at_
                                      + first (hours s)) * Hour
                                     - (Minute_of at_ * Minute
                                        + Second_of at_ * Second
                                        + Nanosecond_of at_)))
                 = localSec at_ + ((24 - Hour_of at_ + first (hours s)) * 3600
                                   - Minute_of at_ * 60 - Second_of at_)).
    { apply (localSec_Add _ _ _ Hfix). unfold Hour, Minute, hoursInDay. ring. }
    split; [apply matches_In;
            replace (Hour_of (Add at_ _)) with (first (hours s));
            [exact Hfirst|]|];
      unfold Hour_of, Minute_of, Second_of in *; rewrite Hl;
      unfold secondsPerMinute, secondsPerHour, secondsPerDay in *;
      Z.div_mod_to_equations; lia.
Qed.

Hypothesis Hdays : days s = [].
Hypothesis Hmonths : months s = [].
Hypothesis Hweekdays : weekdays s = [].

Lemma nextLoop_clock (fuel : nat) (at_ : Time) :
  nextLoop (S fuel) s at_
  = if negb (matchHour s at_) then nextLoop fuel s (nextHour s at_)
    else if negb (matchMinute s at_) then nextLoop fuel s (nextMinute s at_)
    else if negb (matchSecond s at_) then nextLoop fuel s (nextSecond s at_)
    else Some at_.
Proof.
  cbn [nextLoop]. unfold matchMonth, matchWeekday, matchDay.
  rewrite Hdays, Hmonths, Hweekdays. reflexivity.
Qed.

Lemma returns_matching (fuel : nat) (at_ : Time) :
  matchHour s at_ = true -> matchMinute s at_ = true ->
  matchSecond s at_ = true ->
  nextLoop (S fuel) s at_ = Some at_.
Proof. intros Hh Hm Hsec. now rewrite nextLoop_clock, Hh, Hm, Hsec. Qed.

Lemma nextHour_Loc (at_ : Time) : Loc (nextHour s at_) = Loc at_.
Proof. unfold nextHour. apply jump_Loc. Qed.

Lemma nextMinute_Loc (at_ : Time) : Loc (nextMinute s at_) = Loc at_.
Proof. unfold nextMinute. apply jump_Loc. Qed.

Lemma nextSecond_Loc (at_ : Time) : Loc (nextSecond s at_) = Loc at_.
Proof. unfold nextSecond. apply jump_Loc. Qed.

Lemma returns_from_minute (fuel : nat) (at_ : Time) :
  tx (Loc at_) = [] ->
  matchHour s at_ = true -> matchMinute s at_ = true -> Second_of at_ = 0 ->
  exists r, nextLoop (S (S fuel)) s at_ = Some r.
Proof.
  intros Hfix Hh Hm Hz. destruct (matchSecond s at_) eqn:Hsec.
  - eexists. apply returns_matching; assumption.
  - rewrite nextLoop_clock, Hh, Hm, Hsec. cbn [negb].
    destruct (nextSecond_same_minute at_ Hfix Hz Hsec) as [Eh Em].
    eexists. apply returns_matching.
    + unfold matchHour in *. now rewrite Eh.
    + unfold matchMinute in *. now rewrite Em.
    + apply nextSecond_matchSecond, Hfix.
Qed.

Lemma returns_from_hour (fuel : nat) (at_ : Time) :
  tx (Loc at_) = [] ->
  matchHour s at_ = true -> Minute_of at_ = 0 -> Second_of at_ = 0 ->
  exists r, nextLoop (S (S (S fuel))) s at_ = Some r.
Proof.
  intros Hfix Hh Hmz Hz. destruct (matchMinute s at_) eqn:Hm.
  - apply returns_from_minute; assumption.
  - rewrite nextLoop_clock, Hh, Hm. cbn [negb].
    destruct (nextMinute_matchMinute at_ Hfix) as [Hm' Hz'].
    apply returns_from_minute; [now rewrite nextMinute_Loc| |assumption..].
    unfold matchHour in *. now rewrite (nextMinute_same_hour at_ Hfix Hmz Hz Hm).
Qed.

Lemma returns_after_minute (fuel : nat) (at_ : Time) :
  tx (Loc at_) = [] ->
  matchMinute s at_ = true -> Second_of at_ = 0 ->
  exists r, nextLoop (S (S (S (S fuel)))) s at_ = Some r.
Proof.
  intros Hfix Hm Hz. destruct (matchHour s at_) eqn:Hh.
  - apply returns_from_minute; assumption.
  - rewrite nextLoop_clock, Hh. cbn [negb].
    destruct (nextHour_matchHour at_ Hfix) as (Hh' & Hmz' & Hz').
    apply returns_from_hour; [now rewrite nextHour_Loc|assumption..].
Qed.

Lemma returns_after_second (fuel : nat) (at_ : Time) :
  tx (Loc at_) = [] ->
  matchSecond s at_ = true ->
  exists r, nextLoop (S (S (S (S (S fuel))))) s at_ = Some r.
Proof.
  intros Hfix Hsec. destruct (matchHour s at_) eqn:Hh.
  - destruct (matchMinute s at_) eqn:Hm.
    + eexists. apply returns_matching; assumption.
    + rewrite nextLoop_clock, Hh, Hm. cbn [negb].
      destruct (nextMinute_matchMinute at_ Hfix) as [Hm' Hz'].
      apply returns_after_minute; [now rewrite nextMinute_Loc|assumption..].
  - rewrite nextLoop_clock, Hh. cbn [negb].
    destruct (nextHour_matchHour at_ Hfix) as (Hh' & Hmz' & Hz').
    apply returns_from_hour; [now rewrite nextHour_Loc|assumption..].
Qed.

(** In a location without transitions, for a schedule that constrains
    the clock only (any day, any month, any weekday) the loop of [Next]
    ends within five iterations. *)
Lemma Next_returns (fuel : nat) (at_ : Time) :
  tx (Loc at_) = [] ->
  exists r, Next (5 + fuel) s at_ = Some r.
Proof.
  intros Hfix. unfold Next.
  apply returns_after_second;
    [now rewrite nextSecond_Loc|apply nextSecond_matchSecond, Hfix].
Qed.

End ClockOnly.

(** So for a specification of second, minute and hour only and a time in
    a location without transitions, [Next] returns, and returns a later
    time. *)
Lemma clock_schedule_has_next (spec : string) (s : ScheduledTicker) (t : Time) :
  NewScheduledTicker spec = inl s ->
  days s = [] -> months s = [] -> weekdays s = [] ->
  tx (Loc t) = [] ->
  exists r, Next 5 s t = Some r /\ After r t.
Proof.
  intros Hparse Hd Hm Hw Hfix.
  pose proof (normal_ranges s (NewScheduledTicker_Normal spec s Hparse)) as Hr.
  destruct (Next_returns s Hr Hd Hm Hw 0 t Hfix) as [r Hnext].
  exists r. split; [exact Hnext|].
  exact (Next_after s Hr _ t r Hfix Hnext).
Qed.

(** ** The occurrence [Next] returns *)

(** The second pass of 23:30 on 2010-11-06 in St. John's, after the clock
    went back at 00:01: with the schedule of every Sunday at midnight the
    day step calls [time.Date] for 2010-11-07 00:00, which Go resolves to
    the midnight before the change, and the loop returns that time, half
    an hour before the time [Next] was asked about. *)
Lemma Next_before_its_argument :
  let s := mkScheduledTicker [0] [0] [0] [] [] [Sunday] in
  let t := mkTime 1289098800000000000 StJohns in
  let r := mkTime 1289097000000000000 StJohns in
  NewScheduledTicker "0 0 0 * * sun" = inl s
  /\ reading t = (2010, 11, 6, (23, 30, 0), -12600)
  /\ nextDay s (nextSecond s t) = r
  /\ reading r = (2010, 11, 7, (0, 0, 0), -9000)
  /\ (forall fuel, Next (2 + fuel) s t = Some r)
  /\ Sub t r = 30 * Minute.
Proof.
  intros s t r. repeat split; vm_compute; reflexivity.
Qed.

(** C1: for a schedule built by a successful parse and a time [t] for
    which [Next] returns, the time returned satisfies every field of the
    schedule: the six tests (second, minute, hour, day of the month,
    month, weekday) all hold of it, that is, every field that is not the
    wildcard lists the value of the result. It is strictly after [t] when
    the location of [t] has no zone transitions. With transitions it need
    not be: in St. John's on 2010-11-06, asked at the second 23:30 for the
    next Sunday midnight, [Next] returns a time 30 minutes before [t]. *)
Theorem Next_matching_not_always_later :
  (forall (spec : string) (s : ScheduledTicker) (fuel : nat) (t r : Time),
      NewScheduledTicker spec = inl s ->
      Next fuel s t = Some r ->
      (matchSecond s r = true /\ matchMinute s r = true
       /\ matchHour s r = true /\ matchDay s r = true
       /\ matchMonth s r = true /\ matchWeekday s r = true)
      /\ (accepts (seconds s) (Second_of r) /\ accepts (minutes s) (Minute_of r)
          /\ accepts (hours s) (Hour_of r) /\ accepts (days s) (Day_of r)
          /\ accepts (months s) (Month_of r)
          /\ accepts (weekdays s) (Weekday_of r))
      /\ (tx (Loc t) = [] -> After r t))
  /\ (exists (s : ScheduledTicker) (r : Time),
        let t := mkTime 1289098800000000000 StJohns in
        NewScheduledTicker "0 0 0 * * sun" = inl s
        /\ Next 5 s t = Some r
        /\ After t r).
Proof.
  split.
  - intros spec s fuel t r Hparse Hnext.
    pose proof (normal_ranges s (NewScheduledTicker_Normal spec s Hparse)) as Hr.
    destruct (nextLoop_matches s fuel _ r Hnext)
      as (Hmo & Hw & Hd & Hh & Hmi & Hs).
    split; [auto 10|]. split.
    + unfold accepts. repeat split; apply matches_spec; assumption.
    + intros Hfix. exact (Next_after s Hr fuel t r Hfix Hnext).
  - exists (mkScheduledTicker [0] [0] [0] [] [] [Sunday]),
      (mkTime 1289097000000000000 StJohns).
    repeat split; vm_compute; reflexivity.
Qed.

Lemma Next_matching_not_always_later_witness :
  let s := mkScheduledTicker [0] [0] [0] [1] [January] [Wednesday] in
  let t := utc 2020 1 1 0 0 0 in
  let r := utc 2025 1 1 0 0 0 in
  (matchSecond s r = true /\ matchMinute s r = true
   /\ matchHour s r = true /\ matchDay s r = true
   /\ matchMonth s r = true /\ matchWeekday s r = true)
  /\ (accepts (seconds s) (Second_of r) /\ accepts (minutes s) (Minute_of r)
      /\ accepts (hours s) (Hour_of r) /\ accepts (days s) (Day_of r)
      /\ accepts (months s) (Month_of r)
      /\ accepts (weekdays s) (Weekday_of r))
  /\ After r t.
Proof.
  intros s t r.
  destruct (proj1 Next_matching_not_always_later
              "0 0 0 1 jan wed" s 100%nat t r) as (Hm & Ha & Hlater).
  - vm_compute. reflexivity.
  - vm_compute. reflexivity.
  - split; [exact Hm|]. split; [exact Ha|]. apply Hlater. reflexivity.
Defined.

(** C4: day of the month and weekday are both required. For a schedule
    that constrains both, the loop of [Next] keeps a time (does not move on
    to the next day) exactly when its day of the month is in the day set
    and its weekday is in the weekday set, and so a time is returned by
    [Next] only if both hold; one of the two is not enough. *)
Theorem day_and_weekday_both_required :
  forall (s : ScheduledTicker),
    days s <> [] -> weekdays s <> [] ->
    (forall at_,
        negb (matchWeekday s at_) || negb (matchDay s at_) = false <->
        In (Day_of at_) (days s) /\ In (Weekday_of at_) (weekdays s))
    /\ (forall fuel t r,
          Next fuel s t = Some r ->
          In (Day_of r) (days s) /\ In (Weekday_of r) (weekdays s)).
Proof.
  intros s Hdays Hweek.
  assert (Hboth : forall at_,
            matchWeekday s at_ = true /\ matchDay s at_ = true <->
            In (Day_of at_) (days s) /\ In (Weekday_of at_) (weekdays s)).
  { intros at_. unfold matchWeekday, matchDay. rewrite !matches_spec.
    intuition. }
  split.
  - intros at_. rewrite <- Hboth.
    destruct (matchWeekday s at_), (matchDay s at_); simpl; intuition discriminate.
  - intros fuel t r Hnext.
    destruct (nextLoop_matches s fuel _ r Hnext) as (_ & Hw & Hd & _).
    apply Hboth. auto.
Qed.

Lemma day_and_weekday_both_required_witness :
  let s := mkScheduledTicker [0] [0] [0] [1] [] [Wednesday] in
  Next 200 s (utc 2020 1 1 0 0 0) = Some (utc 2020 4 1 0 0 0)
  /\ negb (matchWeekday s (utc 2020 1 8 0 0 0))
     || negb (matchDay s (utc 2020 1 8 0 0 0)) = true
  /\ negb (matchWeekday s (utc 2020 2 1 0 0 0))
     || negb (matchDay s (utc 2020 2 1 0 0 0)) = true
  /\ In (Day_of (utc 2020 4 1 0 0 0)) (days s)
  /\ In (Weekday_of (utc 2020 4 1 0 0 0)) (weekdays s).
Proof.
  intros s. split; [vm_compute; reflexivity|].
  split; [vm_compute; reflexivity|]. split; [vm_compute; reflexivity|].
  refine (proj2 (day_and_weekday_both_required s _ _) 200%nat
            (utc 2020 1 1 0 0 0) (utc 2020 4 1 0 0 0) _).
  - discriminate.
  - discriminate.
  - vm_compute. reflexivity.
Defined.

(** The first of the month that is a Wednesday, not the first Wednesday
    (2020-01-08) and not the first of the next month (2020-02-01, a
    Saturday). *)
Example first_of_month_on_wednesday :
  match NewScheduledTicker "0 0 0 1 * wed" with
  | inl s => Next 200 s (utc 2020 1 1 0 0 0)
  | inr _ => None
  end = Some (utc 2020 4 1 0 0 0).
Proof. vm_compute. reflexivity. Qed.

(** ** How the steps jump *)

(** C3, as stated, fails: the hour step wraps past midnight by adding a
    duration. With the specification ["0 0 6"], asked at 2020-01-01
    06:00:00, [Next] comes to 07:00:00, where the hour test fails; the hour
    step then adds 23 hours and lands on the next day, which is the
    occurrence returned. *)
Lemma hour_wrap_adds_across_midnight :
  let at_ := utc 2020 1 1 7 0 0 in
  match NewScheduledTicker "0 0 6" with
  | inl s =>
      nextMinute s (nextSecond s (utc 2020 1 1 6 0 0)) = at_
      /\ matchHour s at_ = false
      /\ nextHourJump s at_ = ByAdd (23 * Hour)
      /\ Date_of at_ = (2020, 1, 1)
      /\ Date_of (nextHour s at_) = (2020, 1, 2)
      /\ Next 10 s (utc 2020 1 1 6 0 0) = Some (utc 2020 1 2 6 0 0)
  | inr _ => False
  end.
Proof. vm_compute. repeat split; reflexivity. Qed.

(** C3, amended: the month and day steps build the time with [time.Date],
    at 00:00:00; the hour, minute and second steps add a duration to the
    time, which is positive and at most 24 hours, one hour and one minute. *)
Theorem jumps_by_date_or_bounded_add :
  forall (spec : string) (s : ScheduledTicker) (at_ : Time),
    NewScheduledTicker spec = inl s ->
    (exists y m d, nextMonthJump s at_ = ByDate y m d 0 0 0 0)
    /\ (exists y m d, nextDayJump s at_ = ByDate y m d 0 0 0 0)
    /\ (exists d, nextHourJump s at_ = ByAdd d /\ 0 < d <= 24 * Hour)
    /\ (exists d, nextMinuteJump s at_ = ByAdd d /\ 0 < d <= Hour)
    /\ (exists d, nextSecondJump s at_ = ByAdd d /\ 0 < d <= Minute).
Proof.
  intros spec s at_ Hparse.
  pose proof (normal_ranges s (NewScheduledTicker_Normal spec s Hparse)) as Hr.
  split; [|split; [|split; [|split]]].
  - unfold nextMonthJump. destruct (Date_of at_) as [[y m] d].
    destruct (len (months s) =? 0); [eauto|].
    destruct (firstAbove (months s) m); eauto.
  - unfold nextDayJump. destruct (Date_of at_) as [[y m] d].
    destruct (len (days s) =? 0); [eauto|].
    destruct (firstAbove (days s) d); eauto.
  - apply nextHourJump_bounds, Hr.
  - apply nextMinuteJump_bounds, Hr.
  - apply nextSecondJump_bounds, Hr.
Qed.

Lemma jumps_by_date_or_bounded_add_witness :
  let s := mkScheduledTicker [0] [0] [6] [] [] [] in
  let at_ := utc 2020 1 1 7 0 0 in
  (exists y m d, nextMonthJump s at_ = ByDate y m d 0 0 0 0)
  /\ (exists y m d, nextDayJump s at_ = ByDate y m d 0 0 0 0)
  /\ (exists d, nextHourJump s at_ = ByAdd d /\ 0 < d <= 24 * Hour)
  /\ (exists d, nextMinuteJump s at_ = ByAdd d /\ 0 < d <= Hour)
  /\ (exists d, nextSecondJump s at_ = ByAdd d /\ 0 < d <= Minute).
Proof.
  intros s at_.
  apply (jumps_by_date_or_bounded_add "0 0 6" s at_).
  vm_compute. reflexivity.
Defined.

(** ** Strings *)

Lemma append_nil_r (s : string) : s ++ "" = s.
Proof. induction s as [|c r IH]; simpl; [reflexivity|now rewrite IH]. Qed.

Lemma append_assoc (a b c : string) : (a ++ b) ++ c = a ++ (b ++ c).
Proof. induction a as [|x a IH]; simpl; [reflexivity|now rewrite IH]. Qed.

Lemma length_append (a b : string) :
  String.length (a ++ b) = (String.length a + String.length b)%nat.
Proof. induction a as [|x a IH]; simpl; [reflexivity|now rewrite IH]. Qed.

Lemma hasChar_append (c : ascii) (a b : string) :
  hasChar c (a ++ b) = hasChar c a || hasChar c b.
Proof.
  induction a as [|x a IH]; simpl; [reflexivity|].
  rewrite IH. now rewrite orb_assoc.
Qed.

Lemma Split_no_sep (a : string) (sep : ascii) :
  hasChar sep a = false -> Split a sep = [a].
Proof.
  induction a as [|c r IH]; simpl; [reflexivity|].
  intros H. apply orb_false_iff in H as [Hc Hr].
  rewrite Hc, (IH Hr). reflexivity.
Qed.

Lemma Split_append_sep (a b : string) (sep : ascii) :
  hasChar sep a = false ->
  Split (a ++ String sep b) sep = a :: Split b sep.
Proof.
  induction a as [|c r IH]; simpl.
  - intros _. now rewrite Ascii.eqb_refl.
  - intros H. apply orb_false_iff in H as [Hc Hr].
    rewrite Hc, (IH Hr). reflexivity.
Qed.

Lemma HasSuffix_append (x suffix : string) : HasSuffix (x ++ suffix) suffix = true.
Proof.
  induction x as [|c r IH]; cbn [append HasSuffix].
  - destruct suffix; cbn [HasSuffix]; rewrite String.eqb_refl; reflexivity.
  - rewrite IH. apply orb_true_r.
Qed.

Lemma substring_append (x y : string) : substring 0 (String.length x) (x ++ y) = x.
Proof.
  induction x as [|c r IH]; simpl.
  - destruct y; reflexivity.
  - now rewrite IH.
Qed.

Lemma TrimSuffix_append (x suffix : string) : TrimSuffix (x ++ suffix) suffix = x.
Proof.
  unfold TrimSuffix. rewrite HasSuffix_append, length_append, Nat.add_sub.
  apply substring_append.
Qed.

Lemma TrimSuffix_nil (x : string) : TrimSuffix x "" = x.
Proof.
  rewrite <- (append_nil_r x) at 1. apply TrimSuffix_append.
Qed.

(** ** What [String] writes *)

Lemma writeItems_pos (show : Z -> string) (i : nat) (l : list Z) :
  writeItems show (S i) l = writeItems show 1 l.
Proof.
  revert i. induction l as [|x l IH]; intros i; [reflexivity|].
  cbn [writeItems]. rewrite (IH (S i)), (IH 1%nat). reflexivity.
Qed.

Lemma writeItems_cons (show : Z -> string) (x : Z) (l : list Z) :
  writeItems show 0 (x :: l) = show x ++ writeItems show 1 l.
Proof. reflexivity. Qed.

Lemma writeItems_next (show : Z -> string) (x : Z) (l : list Z) :
  writeItems show 1 (x :: l) = String "," (show x ++ writeItems show 1 l).
Proof. simpl. now rewrite writeItems_pos. Qed.

Lemma writeItems_hasChar (show : Z -> string) (c : ascii) (l : list Z) :
  Ascii.eqb "," c = false ->
  Forall (fun v => hasChar c (show v) = false) l ->
  hasChar c (writeItems show 1 l) = false
  /\ hasChar c (writeItems show 0 l) = false.
Proof.
  intros Hc. induction 1 as [|x l Hx Hall [IH1 IH0]]; [auto|].
  rewrite writeItems_cons, writeItems_next. cbn [hasChar].
  rewrite Hc, !hasChar_append, Hx, IH1. auto.
Qed.

Lemma writeItems_Split (show : Z -> string) (l : list Z) :
  Forall (fun v => hasChar "," (show v) = false) l ->
  forall x, hasChar "," (show x) = false ->
  Split (show x ++ writeItems show 1 l) "," = show x :: map show l.
Proof.
  induction 1 as [|y l Hy Hall IH]; intros x Hx.
  - simpl. rewrite append_nil_r. apply Split_no_sep, Hx.
  - rewrite writeItems_next, (Split_append_sep _ _ _ Hx), (IH y Hy).
    reflexivity.
Qed.

Lemma range_check (lo hi : Z) (p : Z -> bool) :
  forallb p (zrange lo (Z.to_nat (hi - lo + 1))) = true ->
  forall v, lo <= v <= hi -> p v = true.
Proof.
  intros H v Hv. rewrite forallb_forall in H. apply H, zrange_In. lia.
Qed.

Lemma showOk_checked :
  forallb (fun f => forallb (showOk f)
                      (zrange (fieldLow f)
                         (Z.to_nat (fieldHigh f - fieldLow f + 1))))
    allFields = true.
Proof. vm_compute. reflexivity. Qed.

Lemma showOk_spec (f : Field) (v : Z) :
  fieldLow f <= v <= fieldHigh f ->
  fieldParser f (fieldShow f v) = inl v
  /\ hasChar "," (fieldShow f v) = false
  /\ hasChar " " (fieldShow f v) = false
  /\ hasChar "*" (fieldShow f v) = false.
Proof.
  intros Hv.
  assert (Hok : showOk f v = true).
  { pose proof showOk_checked as H. rewrite forallb_forall in H.
    apply (range_check _ _ _ (H f ltac:(destruct f; simpl; tauto)) v Hv). }
  unfold showOk in Hok. rewrite !andb_true_iff, !negb_true_iff in Hok.
  destruct Hok as (((Hp & ?) & ?) & ?).
  destruct (fieldParser f (fieldShow f v)) as [v'|]; [|discriminate].
  apply Z.eqb_eq in Hp. subst v'. auto.
Qed.

Lemma inRange_show (f : Field) (l : list Z) (c : ascii) :
  c = ","%char \/ c = " "%char \/ c = "*"%char ->
  inRange (fieldLow f) (fieldHigh f) l ->
  Forall (fun v => hasChar c (fieldShow f v) = false) l.
Proof.
  unfold inRange. intros Hc Hr. rewrite Forall_forall in *. intros v Hv.
  destruct (showOk_spec f v (Hr v Hv)) as (_ & ? & ? & ?).
  destruct Hc as [->|[->| ->]]; assumption.
Qed.

Lemma writeField_hasChar (f : Field) (l : list Z) :
  inRange (fieldLow f) (fieldHigh f) l ->
  hasChar " " (writeField f l) = false.
Proof.
  intros Hr. unfold writeField. destruct (len l =? 0); [reflexivity|].
  apply writeItems_hasChar; [reflexivity|].
  apply inRange_show; auto.
Qed.

Lemma parseAll_show (f : Field) (l : list Z) :
  inRange (fieldLow f) (fieldHigh f) l ->
  parseAll (fieldParser f) (map (fieldShow f) l) = inl l.
Proof.
  unfold inRange. induction 1 as [|x l Hx Hall IH]; [reflexivity|].
  simpl. destruct (showOk_spec f x Hx) as (-> & _). now rewrite IH.
Qed.

(** Reading back a field that [String] wrote. *)
Lemma parsePart_writeField (f : Field) (l : list Z) :
  inRange (fieldLow f) (fieldHigh f) l -> ascending l ->
  parsePart (writeField f l ++ fieldSuffix f) (fieldSuffix f) (fieldParser f)
  = inl l.
Proof.
  intros Hr Ha. unfold parsePart. rewrite TrimSuffix_append.
  unfold writeField. destruct l as [|x l]; [reflexivity|].
  change (len (x :: l) =? 0) with false. cbv beta iota.
  pose proof (inRange_show f (x :: l) "*" ltac:(auto) Hr) as Hstar.
  destruct (writeItems_hasChar (fieldShow f) "*" (x :: l) eq_refl Hstar)
    as [_ Hno].
  destruct (String.eqb_spec (writeItems (fieldShow f) 0 (x :: l)) "*") as [E|_].
  { rewrite E in Hno. discriminate Hno. }
  pose proof (inRange_show f (x :: l) "," ltac:(auto) Hr) as Hcomma.
  inversion Hcomma as [|? ? Hx Hl]; subst.
  rewrite writeItems_cons, (writeItems_Split _ _ Hl x Hx).
  change (fieldShow f x :: map (fieldShow f) l)
    with (map (fieldShow f) (x :: l)).
  rewrite (parseAll_show f _ Hr).
  destruct (len (x :: l) =? 1); [reflexivity|].
  now rewrite (sortSlice_ascending _ Ha), (Unique_ascending_id _ Ha).
Qed.

Lemma String_form (s : ScheduledTicker) :
  String_ s
  = (writeField FSecond (seconds s) ++ fieldSuffix FSecond) ++ String " "
    ((writeField FMinute (minutes s) ++ fieldSuffix FMinute) ++ String " "
     ((writeField FHour (hours s) ++ fieldSuffix FHour) ++ String " "
      ((writeField FDay (days s) ++ fieldSuffix FDay) ++ String " "
       ((writeField FMonth (months s) ++ fieldSuffix FMonth) ++ String " "
        (writeField FWeekday (weekdays s) ++ fieldSuffix FWeekday))))).
Proof.
  unfold String_. cbn [fieldSuffix].
  rewrite !append_assoc, !append_nil_r. reflexivity.
Qed.

Lemma String_Split (s : ScheduledTicker) :
  Ranges s ->
  Split (String_ s) " "
  = map (fun f => writeField f (fieldOf f s) ++ fieldSuffix f) allFields.
Proof.
  intros [R0 R1 R2 R3 R4 R5]. rewrite String_form.
  assert (H : forall f l, inRange (fieldLow f) (fieldHigh f) l ->
                          hasChar " " (writeField f l ++ fieldSuffix f) = false).
  { intros f l Hr. rewrite hasChar_append, (writeField_hasChar f l Hr).
    destruct f; reflexivity. }
  rewrite (Split_append_sep _ _ _ (H FSecond _ R0)).
  rewrite (Split_append_sep _ _ _ (H FMinute _ R1)).
  rewrite (Split_append_sep _ _ _ (H FHour _ R2)).
  rewrite (Split_append_sep _ _ _ (H FDay _ R3)).
  rewrite (Split_append_sep _ _ _ (H FMonth _ R4)).
  rewrite (Split_no_sep _ _ (H FWeekday _ R5)).
  reflexivity.
Qed.

Lemma collapse_partial (n : Z) (l : list Z) : len l < n -> collapse n l = l.
Proof.
  intros H. unfold collapse. destruct (Z.eqb_spec (len l) n); [lia|reflexivity].
Qed.

Lemma String_nonempty (s : ScheduledTicker) :
  (Z.of_nat (String.length (String_ s)) =? 0) = false.
Proof.
  rewrite String_form, length_append. simpl String.length.
  apply Z.eqb_neq. lia.
Qed.

(** Parsing what [String] wrote gives the ticker back. *)
Lemma NewScheduledTicker_String (s : ScheduledTicker) :
  Normal s -> NewScheduledTicker (String_ s) = inl s.
Proof.
  intros Hn. pose proof (normal_ranges s Hn) as Hr.
  rewrite NewScheduledTicker_fields, String_nonempty, (String_Split s Hr).
  change (6 <? len (map _ allFields)) with false. cbv beta iota.
  unfold fieldsOf, partValue.
  change (present (map _ allFields) FSecond) with true.
  change (present (map _ allFields) FMinute) with true.
  change (present (map _ allFields) FHour) with true.
  change (present (map _ allFields) FDay) with true.
  change (present (map _ allFields) FMonth) with true.
  change (present (map _ allFields) FWeekday) with true.
  cbv beta iota.
  destruct Hn as [[R0 R1 R2 R3 R4 R5] A0 A1 A2 A3 A4 A5 P0 P1 P2 P3 P4 P5].
  unfold partOf, allFields. cbn [map nth fieldIndex fieldOf].
  rewrite (parsePart_writeField FSecond _ R0 A0).
  rewrite (parsePart_writeField FMinute _ R1 A1).
  rewrite (parsePart_writeField FHour _ R2 A2).
  rewrite (parsePart_writeField FDay _ R3 A3).
  rewrite (parsePart_writeField FMonth _ R4 A4).
  rewrite (parsePart_writeField FWeekday _ R5 A5).
  unfold collapseAll. cbn [seconds minutes hours days months weekdays fieldOf].
  rewrite !collapse_partial by assumption.
  destruct s; reflexivity.
Qed.

(** ** Normal form *)

(** C2: for a specification that parses, formatting the result and parsing
    that again succeeds and gives a schedule equal to the first one: the
    six field sets are the same. *)
Theorem parse_format_parse :
  forall (spec : string) (s : ScheduledTicker),
    NewScheduledTicker spec = inl s ->
    NewScheduledTicker (String_ s) = inl s.
Proof.
  intros spec s H. apply NewScheduledTicker_String.
  exact (NewScheduledTicker_Normal spec s H).
Qed.

Lemma parse_format_parse_witness :
  let s := mkScheduledTicker [15; 45] [] [6; 12] [1] [June; September] [Monday] in
  String_ s = "15,45s *m 6,12h 1d jun,sep mon"
  /\ NewScheduledTicker (String_ s) = inl s.
Proof.
  intros s. split; [vm_compute; reflexivity|].
  apply (parse_format_parse "45,15,45 * 12,6h 1 sep,jun,6 monday" s).
  vm_compute. reflexivity.
Defined.

(** ** A field that lists its whole range *)

Lemma fieldsOf_field (parts : list string) (s : ScheduledTicker) (f : Field) :
  fieldsOf parts = inl s ->
  exists v, partValue parts f = inl v /\ fieldOf f s = collapse (fieldCount f) v.
Proof.
  unfold fieldsOf.
  destruct (partValue parts FSecond) as [v0|] eqn:H0; [|discriminate].
  destruct (partValue parts FMinute) as [v1|] eqn:H1; [|discriminate].
  destruct (partValue parts FHour) as [v2|] eqn:H2; [|discriminate].
  destruct (partValue parts FDay) as [v3|] eqn:H3; [|discriminate].
  destruct (partValue parts FMonth) as [v4|] eqn:H4; [|discriminate].
  destruct (partValue parts FWeekday) as [v5|] eqn:H5; [|discriminate].
  intros [= <-]. destruct f; eexists; (split; [eassumption|reflexivity]).
Qed.

Lemma fieldCount_range (f : Field) : fieldHigh f - fieldLow f + 1 = fieldCount f.
Proof. destruct f; reflexivity. Qed.

Lemma fieldCount_min (f : Field) : 7 <= fieldCount f.
Proof.
  destruct f;
    unfold fieldCount, secondsInMinute, minutesInHour, hoursInDay,
      maxDaysInMonth, monthsInYear, daysInWeek; lia.
Qed.

Lemma String_field (s : ScheduledTicker) (f : Field) :
  Ranges s ->
  nth (fieldIndex f) (Split (String_ s) " ") ""
  = writeField f (fieldOf f s) ++ fieldSuffix f.
Proof.
  intros Hr. rewrite (String_Split s Hr). destruct f; reflexivity.
Qed.

(** C5: for a specification that parses and any of its fields, if the
    values supplied for the field enumerate the whole legal range of the
    field (60 seconds, 60 minutes, 24 hours, 31 days, 12 months, 7
    weekdays), the field is stored as the wildcard (the empty set) and
    [String] writes it as [*] (with the suffix letter of the field). *)
Theorem full_range_is_wildcard :
  forall (spec : string) (s : ScheduledTicker) (f : Field) (nums : list Z),
    NewScheduledTicker spec = inl s ->
    present (Split spec " ") f = true ->
    supplied f (partOf (Split spec " ") f) = inl nums ->
    (forall v, fieldLow f <= v <= fieldHigh f -> In v nums) ->
    fieldOf f s = []
    /\ nth (fieldIndex f) (Split (String_ s) " ") "" = "*" ++ fieldSuffix f.
Proof.
  intros spec s f nums Hparse Hpres Hsup Hcov.
  pose proof (normal_ranges s (NewScheduledTicker_Normal spec s Hparse)) as Hr.
  apply NewScheduledTicker_fieldsOf in Hparse.
  destruct (fieldsOf_field _ s f Hparse) as (v & Hv & Hf).
  assert (Hempty : fieldOf f s = []).
  { rewrite Hf. pose proof (partValue_spec _ f v Hv) as [Hvr Hva].
    unfold partValue in Hv. rewrite Hpres, parsePart_supplied, Hsup in Hv.
    destruct (String.eqb _ "*").
    { injection Hv as <-. unfold collapse. destruct (_ =? _); reflexivity. }
    pose proof (covering_length nums _ _ Hcov) as Hlen.
    rewrite fieldCount_range in Hlen.
    destruct (Z.eqb_spec (len nums) 1) as [Hone|_].
    { pose proof (fieldCount_min f). lia. }
    injection Hv as <-.
    pose proof (ascending_length _ Hva (fieldLow f) (fieldHigh f)
                  ltac:(destruct f; simpl; lia) Hvr) as Hle.
    rewrite fieldCount_range in Hle.
    assert (Hge : fieldCount f <= len (sliceutil.Unique (sortSlice nums))).
    { rewrite <- fieldCount_range. apply covering_length. intros x Hx.
      apply Unique_In, sortSlice_In, Hcov, Hx. }
    unfold collapse.
    destruct (Z.eqb_spec (len (sliceutil.Unique (sortSlice nums))) (fieldCount f));
      [reflexivity|lia]. }
  split; [exact Hempty|].
  rewrite (String_field s f Hr), Hempty. reflexivity.
Qed.

Lemma full_range_is_wildcard_witness :
  let spec := "0 0 0 * * tue,mon,wed,thu,sunday,fri,sat,mon" in
  let s := mkScheduledTicker [0] [0] [0] [] [] [] in
  supplied FWeekday (partOf (Split spec " ") FWeekday)
  = inl [Tuesday; Monday; Wednesday; Thursday; Sunday; Friday; Saturday; Monday]
  /\ fieldOf FWeekday s = []
  /\ nth (fieldIndex FWeekday) (Split (String_ s) " ") "" = "*" ++ fieldSuffix FWeekday.
Proof.
  intros spec s. split; [vm_compute; reflexivity|].
  apply (full_range_is_wildcard spec s FWeekday
           [Tuesday; Monday; Wednesday; Thursday; Sunday; Friday; Saturday; Monday]).
  - vm_compute. reflexivity.
  - vm_compute. reflexivity.
  - vm_compute. reflexivity.
  - simpl. unfold Sunday, Monday, Tuesday, Wednesday, Thursday, Friday, Saturday.
    intros v Hv. lia.
Defined.

(** ** Errors of [parse] *)

Lemma parseAll_error (fn : string -> Z + error) (toks : list string) (e : error) :
  parseAll fn toks = inr e -> exists tok, In tok toks /\ fn tok = inr e.
Proof.
  induction toks as [|tok rest IH]; simpl; [discriminate|].
  destruct (fn tok) as [num|e'] eqn:Htok.
  - destruct (parseAll fn rest) as [nums|e'']; [discriminate|].
    intros [= <-]. destruct (IH eq_refl) as (t & Hin & Ht). eauto.
  - intros [= <-]. eauto.
Qed.

Lemma parseAll_rejects (fn : string -> Z + error) (toks : list string)
    (tok : string) (e : error) :
  In tok toks -> fn tok = inr e -> exists e', parseAll fn toks = inr e'.
Proof.
  induction toks as [|t rest IH]; simpl; [contradiction|].
  intros [->|Hin] Htok.
  - rewrite Htok. eauto.
  - destruct (fn t); [|eauto].
    destruct (IH Hin Htok) as [e' ->]. eauto.
Qed.

Lemma fieldParser_error (f : Field) (tok : string) (e : error) :
  fieldParser f tok = inr e ->
  (exists ne, e = ErrWrap f tok ne) \/ e = ErrValue f tok.
Proof.
  destruct f; simpl;
    unfold parseSecond, parseMinute, parseHour, parseDay, parseMonth,
      parseWeekday.
  1-4: destruct (Atoi tok) as [i|ne]; [|intros [= <-]; eauto];
       match goal with
       | |- (if ?c then _ else _) = _ -> _ => destruct c
       end; [intros [= <-]; auto|discriminate].
  all: repeat match goal with
              | |- (if ?b then _ else _) = _ -> _ => destruct b
              end; try discriminate; intros [= <-]; auto.
Qed.

Lemma Error_names_field (quote : string -> string) (f : Field) (tok : string)
    (e : error) :
  fieldParser f tok = inr e ->
  exists detail,
    Error quote e = "timeutil: invalid " ++ fieldName f ++ ": " ++ detail.
Proof.
  intros H. destruct (fieldParser_error f tok e H) as [[ne ->]| ->]; simpl;
    eexists; reflexivity.
Qed.

Lemma oneOf_app (s : string) (a b : list string) :
  oneOf s (a ++ b) = oneOf s a || oneOf s b.
Proof. unfold oneOf. apply existsb_app. Qed.

Lemma sum_error_iff (r : Z + error) :
  (exists e, r = inr e) <-> match r with inl _ => false | inr _ => true end = true.
Proof. destruct r; split; eauto; try discriminate. intros [e He]. discriminate. Qed.

(** Goes down a chain [if oneOf tok l1 then _ else if oneOf tok l2 ...],
    one test at a time. *)
Ltac word_chain tok :=
  repeat match goal with
         | |- context [oneOf tok ?l] =>
             destruct (oneOf tok l);
             [simpl; split; intros H; discriminate H|]
         end;
  simpl; split; reflexivity.

(** The parser of a field turns down exactly the pieces that are not
    legal for the field. *)
Lemma fieldParser_legal (f : Field) (tok : string) :
  (exists e, fieldParser f tok = inr e) <-> legal f tok = false.
Proof.
  destruct f; cbn [fieldParser legal fieldLow fieldHigh];
    unfold parseSecond, parseMinute, parseHour, parseDay, secondsInMinute,
      minutesInHour, hoursInDay, maxDaysInMonth.
  1-4: destruct (Atoi tok) as [i|ne]; [|split; eauto];
       repeat match goal with
              | |- context [Z.leb ?a ?b] => destruct (Z.leb_spec a b)
              | |- context [Z.ltb ?a ?b] => destruct (Z.ltb_spec a b)
              end; simpl; try lia;
       (split; [intros [e He]; try discriminate; reflexivity
               |intros; try discriminate; eauto]).
  - rewrite sum_error_iff. unfold parseMonth, monthWords.
    change ["1"; "jan"; "january"; "2"; "feb"; "february"; "3"; "mar"; "march";
            "4"; "apr"; "april"; "5"; "may"; "6"; "jun"; "june"; "7"; "jul";
            "july"; "8"; "aug"; "august"; "9"; "sep"; "september"; "10"; "oct";
            "october"; "11"; "nov"; "november"; "12"; "dec"; "december"]%string
      with (["1"; "jan"; "january"] ++ ["2"; "feb"; "february"]
            ++ ["3"; "mar"; "march"] ++ ["4"; "apr"; "april"] ++ ["5"; "may"]
            ++ ["6"; "jun"; "june"] ++ ["7"; "jul"; "july"]
            ++ ["8"; "aug"; "august"] ++ ["9"; "sep"; "september"]
            ++ ["10"; "oct"; "october"] ++ ["11"; "nov"; "november"]
            ++ ["12"; "dec"; "december"])%list%string.
    rewrite !oneOf_app. word_chain tok.
  - rewrite sum_error_iff. unfold parseWeekday, weekdayWords.
    change ["sun"; "sunday"; "mon"; "monday"; "tue"; "tuesday"; "wed";
            "wednesday"; "thu"; "thursday"; "fri"; "friday"; "sat";
            "saturday"]%string
      with (["sun"; "sunday"] ++ ["mon"; "monday"] ++ ["tue"; "tuesday"]
            ++ ["wed"; "wednesday"] ++ ["thu"; "thursday"]
            ++ ["fri"; "friday"] ++ ["sat"; "saturday"])%list%string.
    rewrite !oneOf_app. word_chain tok.
Qed.

Lemma partValue_error (parts : list string) (f : Field) (e : error) :
  partValue parts f = inr e <->
  present parts f = true /\ supplied f (partOf parts f) = inr e.
Proof.
  unfold partValue. destruct (present parts f).
  - rewrite parsePart_supplied.
    destruct (supplied f (partOf parts f)) as [nums|e'].
    + destruct (String.eqb _ "*"); [|destruct (len nums =? 1)];
        split; try discriminate; intros [_ H]; discriminate H.
    + split; [intros [= <-]; auto|intros [_ [= <-]]; reflexivity].
  - split; [discriminate|intros [H _]; discriminate H].
Qed.

Lemma fieldsOf_error (parts : list string) (e : error) :
  fieldsOf parts = inr e -> exists f, partValue parts f = inr e.
Proof.
  unfold fieldsOf.
  destruct (partValue parts FSecond) eqn:H0; [|intros [= <-]; eauto].
  destruct (partValue parts FMinute) eqn:H1; [|intros [= <-]; eauto].
  destruct (partValue parts FHour) eqn:H2; [|intros [= <-]; eauto].
  destruct (partValue parts FDay) eqn:H3; [|intros [= <-]; eauto].
  destruct (partValue parts FMonth) eqn:H4; [|intros [= <-]; eauto].
  destruct (partValue parts FWeekday) eqn:H5; [|intros [= <-]; eauto].
  discriminate.
Qed.

Lemma fieldsOf_rejects (parts : list string) (f : Field) (e : error) :
  partValue parts f = inr e -> exists e', fieldsOf parts = inr e'.
Proof.
  unfold fieldsOf. intros H.
  destruct (partValue parts FSecond) eqn:H0; [|eauto].
  destruct (partValue parts FMinute) eqn:H1; [|eauto].
  destruct (partValue parts FHour) eqn:H2; [|eauto].
  destruct (partValue parts FDay) eqn:H3; [|eauto].
  destruct (partValue parts FMonth) eqn:H4; [|eauto].
  destruct (partValue parts FWeekday) eqn:H5; [|eauto].
  destruct f; congruence.
Qed.

Lemma length_zero (s : string) :
  (Z.of_nat (String.length s) =? 0) = true <-> s = "".
Proof.
  destruct s; simpl; split; try reflexivity; discriminate.
Qed.

(** C6, as stated, fails: the errors for the empty specification and for
    more than six fields name no field. *)
Lemma spec_errors_name_no_field :
  NewScheduledTicker "" = inr ErrSpecEmpty
  /\ Error (fun num => num) ErrSpecEmpty = "timeutil: invalid spec: spec is empty"
  /\ namesField (Error (fun num => num) ErrSpecEmpty) = false
  /\ NewScheduledTicker "* * * * * * *" = inr (ErrSpec "* * * * * * *")
  /\ Error (fun num => num) (ErrSpec "* * * * * * *")
     = "timeutil: invalid spec: * * * * * * *"
  /\ namesField (Error (fun num => num) (ErrSpec "* * * * * * *")) = false.
Proof. vm_compute. repeat split; reflexivity. Qed.

(** C6, amended: [parse] is total (it always returns), and it returns an
    error exactly when the specification is empty, has more than six
    fields, or has a field with a piece that is not legal for it (a number
    out of range, an unknown month or weekday word, something that is not a
    number). The error for a piece of a field has the message
    ["timeutil: invalid F: ..."] with the name [F] of that field; the
    errors for the empty specification and for too many fields have the
    message ["timeutil: invalid spec: ..."]. *)
Theorem parse_errors :
  forall (spec : string),
    let parts := Split spec " " in
    ((exists e, NewScheduledTicker spec = inr e) <->
     (spec = "" \/ 6 < len parts
      \/ exists f tok,
           present parts f = true /\ In tok (tokens f (partOf parts f))
           /\ legal f tok = false))
    /\ (forall e,
          NewScheduledTicker spec = inr e ->
          (spec = "" /\ e = ErrSpecEmpty)
          \/ (6 < len parts /\ e = ErrSpec spec)
          \/ exists f tok,
               present parts f = true /\ In tok (tokens f (partOf parts f))
               /\ legal f tok = false
               /\ forall quote, exists detail,
                    Error quote e
                    = "timeutil: invalid " ++ fieldName f ++ ": " ++ detail).
Proof.
  intros spec parts.
  assert (Hfwd : forall e,
            NewScheduledTicker spec = inr e ->
            (spec = "" /\ e = ErrSpecEmpty)
            \/ (6 < len parts /\ e = ErrSpec spec)
            \/ exists f tok,
                 present parts f = true /\ In tok (tokens f (partOf parts f))
                 /\ legal f tok = false
                 /\ forall quote, exists detail,
                      Error quote e
                      = "timeutil: invalid " ++ fieldName f ++ ": " ++ detail).
  { intros e. rewrite NewScheduledTicker_fields. fold parts.
    destruct (Z.of_nat (String.length spec) =? 0) eqn:Hlen.
    { intros [= <-]. left. split; [apply length_zero, Hlen|reflexivity]. }
    destruct (Z.ltb_spec 6 (len parts)) as [Hmany|_].
    { intros [= <-]. right. left. auto. }
    intros He. right. right.
    destruct (fieldsOf_error parts e He) as [f Hf].
    apply partValue_error in Hf as [Hpres Hsup].
    destruct (parseAll_error _ _ _ Hsup) as (tok & Hin & Htok).
    exists f, tok. repeat split; try assumption.
    - apply fieldParser_legal. eauto.
    - intros quote. eapply Error_names_field, Htok. }
  split; [|exact Hfwd]. split.
  - intros [e He].
    destruct (Hfwd e He) as [[? _]|[[? _]|(f & tok & ? & ? & ? & _)]]; eauto 10.
  - rewrite NewScheduledTicker_fields. fold parts.
    intros [->|[Hmany|(f & tok & Hpres & Hin & Hleg)]].
    + simpl. eauto.
    + destruct (Z.of_nat (String.length spec) =? 0); [eauto|].
      destruct (Z.ltb_spec 6 (len parts)); [eauto|lia].
    + destruct (Z.of_nat (String.length spec) =? 0); [eauto|].
      destruct (6 <? len parts); [eauto|].
      apply fieldParser_legal in Hleg as [e He].
      destruct (parseAll_rejects _ _ _ _ Hin He) as [e' He'].
      apply (fieldsOf_rejects parts f e'), partValue_error. auto.
Qed.

Lemma parse_errors_witness :
  let spec := "0 61" in
  let e := ErrValue FMinute "61" in
  NewScheduledTicker spec = inr e
  /\ Error (fun num => num) e = "timeutil: invalid minute: 61"
  /\ ((spec = "" /\ e = ErrSpecEmpty)
      \/ (6 < len (Split spec " ") /\ e = ErrSpec spec)
      \/ exists f tok,
           present (Split spec " ") f = true
           /\ In tok (tokens f (partOf (Split spec " ") f))
           /\ legal f tok = false
           /\ forall quote, exists detail,
                Error quote e
                = "timeutil: invalid " ++ fieldName f ++ ": " ++ detail).
Proof.
  intros spec e. split; [vm_compute; reflexivity|].
  split; [vm_compute; reflexivity|].
  apply (proj2 (parse_errors spec) e).
  vm_compute. reflexivity.
Defined.

(** ** Parsing into a receiver that is in use *)

Lemma parse_parseFrom (s : ScheduledTicker) (spec : string) :
  parse s spec
  = if Z.of_nat (String.length spec) =? 0 then (s, Some ErrSpecEmpty)
    else if 6 <? len (Split spec " ") then (s, Some (ErrSpec spec))
    else parseFrom s (Split spec " ").
Proof.
  unfold parse, parseFrom, partValueFrom, present, partOf, field.
  pose proof (Split_len_pos spec " ") as Hpos.
  set (parts := Split spec " ") in *.
  destruct (Z.of_nat (String.length spec) =? 0); [reflexivity|].
  destruct (6 <? len parts); [reflexivity|].
  cbv beta iota zeta delta [fieldIndex fieldSuffix fieldParser].
  repeat match goal with
         | |- context [?a <=? len parts] => destruct (Z.leb_spec a (len parts))
         | |- context [?a <? len parts] => destruct (Z.ltb_spec a (len parts))
         end; try lia;
    repeat match goal with
           | |- context [parsePart ?a ?b ?c] => destruct (parsePart a b c)
           end; destruct s; reflexivity.
Qed.

Lemma parseFrom_ok (s s' : ScheduledTicker) (parts : list string) (f : Field) :
  parseFrom s parts = (s', None) ->
  exists v, partValueFrom s parts f = inl v
            /\ fieldOf f s' = collapse (fieldCount f) v.
Proof.
  unfold parseFrom. cbv zeta.
  assert (E : forall t g, partValueFrom t parts g
                = if present parts g
                  then parsePart (partOf parts g) (fieldSuffix g) (fieldParser g)
                  else inl (fieldOf g t)) by reflexivity.
  destruct (partValueFrom s parts FSecond) as [v0|] eqn:H0; [|discriminate].
  destruct (partValueFrom _ parts FMinute) as [v1|] eqn:H1; [|discriminate].
  destruct (partValueFrom _ parts FHour) as [v2|] eqn:H2; [|discriminate].
  destruct (partValueFrom _ parts FDay) as [v3|] eqn:H3; [|discriminate].
  destruct (partValueFrom _ parts FMonth) as [v4|] eqn:H4; [|discriminate].
  destruct (partValueFrom _ parts FWeekday) as [v5|] eqn:H5; [|discriminate].
  intros [= <-].
  destruct f; eexists; (split; [|reflexivity]);
    rewrite E in *; cbn [fieldOf setSeconds setMinutes setHours setDays
      setMonths setWeekdays seconds minutes hours days months weekdays] in *;
    assumption.
Qed.

Lemma Normal_field (s : ScheduledTicker) (f : Field) :
  Normal s ->
  inRange (fieldLow f) (fieldHigh f) (fieldOf f s) /\ ascending (fieldOf f s).
Proof.
  intros [[R0 R1 R2 R3 R4 R5] A0 A1 A2 A3 A4 A5 _ _ _ _ _ _].
  destruct f; split; assumption.
Qed.

Ltac normal_ticker :=
  constructor; [constructor|..];
  cbn [seconds minutes hours days months weekdays];
  unfold inRange, ascending, len, January, February, March, April, May, June,
    July, August, September, October, November, December, Sunday, Monday,
    Tuesday, Wednesday, Thursday, Friday, Saturday;
  repeat first [ constructor | lia | reflexivity ].

(** X1: [parse] keeps the invariant the struct documents. When the ticker
    it is called on has its six fields in range, strictly ascending
    (sorted and unique) and none listing its whole range, and the
    specification is accepted, the ticker it leaves has them so too;
    [NewScheduledTicker] and [UnmarshalText] call it on the zero value and
    on the receiver. *)
Theorem parse_keeps_normal_form :
  forall (s s' : ScheduledTicker) (spec : string),
    Normal s -> parse s spec = (s', None) -> Normal s'.
Proof.
  intros s s' spec Hn H. rewrite parse_parseFrom in H.
  destruct (_ =? 0); [discriminate|]. destruct (6 <? _); [discriminate|].
  assert (F : forall f,
             inRange (fieldLow f) (fieldHigh f) (fieldOf f s')
             /\ ascending (fieldOf f s')
             /\ len (fieldOf f s') < fieldCount f).
  { intros f. destruct (parseFrom_ok _ _ _ f H) as (v & Hv & ->).
    apply collapse_spec; unfold partValueFrom in Hv;
      destruct (present _ f).
    - apply (parsePart_spec f _ _ Hv).
    - injection Hv as <-. apply (Normal_field s f Hn).
    - apply (parsePart_spec f _ _ Hv).
    - injection Hv as <-. apply (Normal_field s f Hn). }
  destruct (F FSecond) as (? & ? & ?). destruct (F FMinute) as (? & ? & ?).
  destruct (F FHour) as (? & ? & ?). destruct (F FDay) as (? & ? & ?).
  destruct (F FMonth) as (? & ? & ?). destruct (F FWeekday) as (? & ? & ?).
  constructor; [constructor|..]; assumption.
Qed.

Lemma parse_keeps_normal_form_witness :
  let s := mkScheduledTicker [30] [15] [6] [] [] [] in
  let s' := mkScheduledTicker [10; 20] [15] [6] [] [] [] in
  Normal s /\ parse s "20,10,20" = (s', None) /\ Normal s'.
Proof.
  intros s s'.
  assert (Hn : Normal s) by (subst s; normal_ticker).
  split; [exact Hn|]. split; [vm_compute; reflexivity|].
  apply (parse_keeps_normal_form s s' "20,10,20" Hn).
  vm_compute. reflexivity.
Defined.

(** X2: [UnmarshalText] parses into the receiver without clearing it
    first. After a call that succeeds, a field the text has holds what
    [parsePart] read for it, and a field the text stops before holds what
    the receiver held before the call (both with a full range replaced by
    the empty slice): the result can differ from [NewScheduledTicker] of
    the same text. *)
Theorem UnmarshalText_keeps_omitted_fields :
  forall (s s' : ScheduledTicker) (text : string),
    UnmarshalText s text = (s', None) ->
    forall f : Field,
      if present (Split text " ") f
      then exists v,
             parsePart (partOf (Split text " ") f) (fieldSuffix f) (fieldParser f)
             = inl v
             /\ fieldOf f s' = collapse (fieldCount f) v
      else fieldOf f s' = collapse (fieldCount f) (fieldOf f s).
Proof.
  intros s s' text H f. unfold UnmarshalText in H.
  rewrite parse_parseFrom in H.
  destruct (_ =? 0); [discriminate|]. destruct (6 <? _); [discriminate|].
  destruct (parseFrom_ok _ _ _ f H) as (v & Hv & Hf).
  unfold partValueFrom in Hv. destruct (present _ f).
  - exists v. auto.
  - injection Hv as <-. exact Hf.
Qed.

Lemma UnmarshalText_keeps_omitted_fields_witness :
  let s := mkScheduledTicker [30] [15] [6] [] [] [] in
  let s' := mkScheduledTicker [0] [15] [6] [] [] [] in
  UnmarshalText s "0" = (s', None)
  /\ NewScheduledTicker "0" = inl (mkScheduledTicker [0] [] [] [] [] [])
  /\ fieldOf FMinute s' = collapse (fieldCount FMinute) (fieldOf FMinute s).
Proof.
  intros s s'. split; [vm_compute; reflexivity|].
  split; [vm_compute; reflexivity|].
  apply (UnmarshalText_keeps_omitted_fields s s' "0" eq_refl FMinute).
Defined.

(** X3: what a failed [parse] leaves in the receiver. For an empty
    specification or one of more than six fields the receiver is not
    touched. Otherwise the error is the one [parsePart] gave for some
    field the specification has; that field is left empty (nil), the
    fields before it hold their new values as read (a full range not
    replaced), and the fields after it hold what they held before. *)
Theorem failed_parse_leaves_receiver :
  forall (s s' : ScheduledTicker) (spec : string) (e : error),
    parse s spec = (s', Some e) ->
    ((e = ErrSpecEmpty \/ e = ErrSpec spec) /\ s' = s)
    \/ exists f : Field,
         present (Split spec " ") f = true
         /\ parsePart (partOf (Split spec " ") f) (fieldSuffix f) (fieldParser f)
            = inr e
         /\ fieldOf f s' = []
         /\ (forall g, (fieldIndex g < fieldIndex f)%nat ->
                       partValueFrom s (Split spec " ") g = inl (fieldOf g s'))
         /\ (forall g, (fieldIndex f < fieldIndex g)%nat ->
                       fieldOf g s' = fieldOf g s).
Proof.
  intros s s' spec e. rewrite parse_parseFrom.
  destruct (_ =? 0); [intros [= <- <-]; auto|].
  destruct (6 <? _); [intros [= <- <-]; auto|].
  set (parts := Split spec " "). intros H. right.
  assert (E : forall t g, partValueFrom t parts g
                = if present parts g
                  then parsePart (partOf parts g) (fieldSuffix g) (fieldParser g)
                  else inl (fieldOf g t)) by reflexivity.
  unfold parseFrom in H. cbv zeta in H.
  assert (P : forall t g err, partValueFrom t parts g = inr err ->
                present parts g = true
                /\ parsePart (partOf parts g) (fieldSuffix g) (fieldParser g)
                   = inr err).
  { intros t g err. rewrite E. destruct (present parts g); [auto|discriminate]. }
  destruct (partValueFrom s parts FSecond) as [v0|] eqn:H0.
  2:{ injection H as <- <-. exists FSecond. destruct (P _ _ _ H0).
      repeat split; auto; intros g Hg; destruct g; simpl in Hg; try lia;
        reflexivity. }
  destruct (partValueFrom _ parts FMinute) as [v1|] eqn:H1.
  2:{ injection H as <- <-. exists FMinute. destruct (P _ _ _ H1).
      repeat split; auto; intros g Hg; destruct g; simpl in Hg; try lia;
        try reflexivity; rewrite E in *; assumption. }
  destruct (partValueFrom _ parts FHour) as [v2|] eqn:H2.
  2:{ injection H as <- <-. exists FHour. destruct (P _ _ _ H2).
      repeat split; auto; intros g Hg; destruct g; simpl in Hg; try lia;
        try reflexivity; rewrite E in *; assumption. }
  destruct (partValueFrom _ parts FDay) as [v3|] eqn:H3.
  2:{ injection H as <- <-. exists FDay. destruct (P _ _ _ H3).
      repeat split; auto; intros g Hg; destruct g; simpl in Hg; try lia;
        try reflexivity; rewrite E in *; assumption. }
  destruct (partValueFrom _ parts FMonth) as [v4|] eqn:H4.
  2:{ injection H as <- <-. exists FMonth. destruct (P _ _ _ H4).
      repeat split; auto; intros g Hg; destruct g; simpl in Hg; try lia;
        try reflexivity; rewrite E in *; assumption. }
  destruct (partValueFrom _ parts FWeekday) as [v5|] eqn:H5.
  2:{ injection H as <- <-. exists FWeekday. destruct (P _ _ _ H5).
      repeat split; auto; intros g Hg; destruct g; simpl in Hg; try lia;
        try reflexivity; rewrite E in *; assumption. }
  discriminate.
Qed.

Lemma failed_parse_leaves_receiver_witness :
  let s := mkScheduledTicker [1] [2] [3] [4] [5] [6] in
  let s' := mkScheduledTicker [0] [] [3] [4] [5] [6] in
  parse s "0 60 12" = (s', Some (ErrValue FMinute "60"))
  /\ (((ErrValue FMinute "60" = ErrSpecEmpty
        \/ ErrValue FMinute "60" = ErrSpec "0 60 12") /\ s' = s)
      \/ exists f : Field,
         present (Split "0 60 12" " ") f = true
         /\ parsePart (partOf (Split "0 60 12" " ") f) (fieldSuffix f)
              (fieldParser f) = inr (ErrValue FMinute "60")
         /\ fieldOf f s' = []
         /\ (forall g, (fieldIndex g < fieldIndex f)%nat ->
                       partValueFrom s (Split "0 60 12" " ") g
                       = inl (fieldOf g s'))
         /\ (forall g, (fieldIndex f < fieldIndex g)%nat ->
                       fieldOf g s' = fieldOf g s)).
Proof.
  intros s s'. split; [vm_compute; reflexivity|].
  apply (failed_parse_leaves_receiver s s' "0 60 12" (ErrValue FMinute "60")).
  vm_compute. reflexivity.
Defined.

(** X4: [UnmarshalText] of what [MarshalText] gives for a ticker in normal
    form succeeds and leaves that ticker in the receiver, whatever the
    receiver held before: the text [String] writes has all six fields. *)
Theorem UnmarshalText_MarshalText :
  forall s : ScheduledTicker,
    Normal s ->
    forall r : ScheduledTicker,
      UnmarshalText r (fst (MarshalText s)) = (s, None).
Proof.
  intros s Hn r. pose proof (normal_ranges s Hn) as Hr.
  unfold UnmarshalText, MarshalText, fst.
  rewrite parse_parseFrom, String_nonempty, (String_Split s Hr).
  change (6 <? len (map _ allFields)) with false. cbv beta iota.
  unfold parseFrom, partValueFrom. cbv zeta.
  change (present (map _ allFields) FSecond) with true.
  change (present (map _ allFields) FMinute) with true.
  change (present (map _ allFields) FHour) with true.
  change (present (map _ allFields) FDay) with true.
  change (present (map _ allFields) FMonth) with true.
  change (present (map _ allFields) FWeekday) with true.
  cbv beta iota.
  destruct Hn as [[R0 R1 R2 R3 R4 R5] A0 A1 A2 A3 A4 A5 P0 P1 P2 P3 P4 P5].
  unfold partOf, allFields. cbn [map nth fieldIndex fieldOf].
  rewrite (parsePart_writeField FSecond _ R0 A0).
  rewrite (parsePart_writeField FMinute _ R1 A1).
  rewrite (parsePart_writeField FHour _ R2 A2).
  rewrite (parsePart_writeField FDay _ R3 A3).
  rewrite (parsePart_writeField FMonth _ R4 A4).
  rewrite (parsePart_writeField FWeekday _ R5 A5).
  unfold collapseAll.
  cbn [seconds minutes hours days months weekdays fieldOf setSeconds
       setMinutes setHours setDays setMonths setWeekdays].
  rewrite !collapse_partial by assumption.
  destruct s; reflexivity.
Qed.

Lemma UnmarshalText_MarshalText_witness :
  let s := mkScheduledTicker [15; 45] [] [6; 12] [1] [June; September] [Monday] in
  let r := mkScheduledTicker [1] [2] [3] [4] [5] [6] in
  Normal s /\ UnmarshalText r (fst (MarshalText s)) = (s, None).
Proof.
  intros s r.
  assert (Hn : Normal s) by (subst s; normal_ticker).
  split; [exact Hn|]. exact (UnmarshalText_MarshalText s Hn r).
Defined.

(** X5: [String] tells tickers in normal form apart: two of them with the
    same text are equal. *)
Theorem String_injective :
  forall a b : ScheduledTicker,
    Normal a -> Normal b -> String_ a = String_ b -> a = b.
Proof.
  intros a b Ha Hb E.
  pose proof (NewScheduledTicker_String a Ha) as Pa.
  pose proof (NewScheduledTicker_String b Hb) as Pb.
  rewrite E in Pa. congruence.
Qed.

Lemma String_injective_witness :
  let a := mkScheduledTicker [0] [15; 45] [] [] [] [] in
  Normal a /\ String_ a = "0s 15,45m *h *d * *" /\ a = a.
Proof.
  intros a.
  assert (Hn : Normal a) by (subst a; normal_ticker).
  split; [exact Hn|]. split; [vm_compute; reflexivity|].
  exact (String_injective a a Hn Hn eq_refl).
Defined.

(** ** Equivalent specifications *)

Lemma Split_append (a b : string) (sep : ascii) :
  Split (a ++ String sep b) sep = (Split a sep ++ Split b sep)%list.
Proof.
  induction a as [|c a IH].
  - simpl. rewrite Ascii.eqb_refl. reflexivity.
  - change (String c a ++ String sep b) with (String c (a ++ String sep b)).
    cbn [Split]. rewrite IH.
    destruct (Ascii.eqb c sep); [reflexivity|].
    destruct (Split a sep) as [|h t] eqn:E.
    + pose proof (Split_len_pos a sep) as H. rewrite E in H.
      unfold len in H. simpl in H. lia.
    + reflexivity.
Qed.

Lemma partValue_trailing_wildcard (parts : list string) (f : Field) :
  partValue (parts ++ ["*"]) f = partValue parts f.
Proof.
  unfold partValue, present, partOf, len. rewrite length_app. simpl List.length.
  destruct (Z.ltb_spec (Z.of_nat (fieldIndex f)) (Z.of_nat (List.length parts)))
    as [Hlt|Hge].
  - rewrite app_nth1 by lia.
    destruct (Z.ltb_spec (Z.of_nat (fieldIndex f))
                (Z.of_nat (List.length parts + 1))); [reflexivity|lia].
  - destruct (Z.ltb_spec (Z.of_nat (fieldIndex f))
                (Z.of_nat (List.length parts + 1))); [|reflexivity].
    rewrite app_nth2 by lia.
    replace (fieldIndex f - List.length parts)%nat with 0%nat by lia.
    destruct f; reflexivity.
Qed.

(** X6: trailing asterisks can be left out. For a specification that is
    not empty and has at most five fields, one more field [*] at its end
    changes neither the ticker nor the error that [NewScheduledTicker]
    returns. *)
Theorem trailing_wildcard_is_optional :
  forall spec : string,
    spec <> "" -> len (Split spec " ") <= 5 ->
    NewScheduledTicker (spec ++ " *") = NewScheduledTicker spec.
Proof.
  intros spec Hne Hlen. rewrite !NewScheduledTicker_fields.
  rewrite length_append.
  change (" *") with (String " " "*"). rewrite Split_append.
  change (Split "*" " ") with ["*"].
  destruct (Z.eqb_spec (Z.of_nat (String.length spec)) 0) as [E|_].
  { destruct spec; [congruence|simpl in E; lia]. }
  destruct (Z.eqb_spec (Z.of_nat (String.length spec + String.length (String " " "*"))) 0)
    as [E|_]; [simpl in E; lia|].
  assert (L : len (Split spec " " ++ ["*"]) = len (Split spec " ") + 1).
  { unfold len. rewrite length_app. simpl. lia. }
  destruct (Z.ltb_spec 6 (len (Split spec " " ++ ["*"]))); [lia|].
  destruct (Z.ltb_spec 6 (len (Split spec " "))); [lia|].
  unfold fieldsOf. rewrite !partValue_trailing_wildcard. reflexivity.
Qed.

Lemma trailing_wildcard_is_optional_witness :
  "0 15,45 6" <> "" /\ len (Split "0 15,45 6" " ") <= 5
  /\ NewScheduledTicker ("0 15,45 6" ++ " *") = NewScheduledTicker "0 15,45 6".
Proof.
  split; [discriminate|]. split; [vm_compute; discriminate|].
  apply (trailing_wildcard_is_optional "0 15,45 6"); [discriminate|].
  vm_compute. discriminate.
Defined.

Lemma ascending_ext (a b : list Z) :
  ascending a -> ascending b -> (forall v, In v a <-> In v b) -> a = b.
Proof.
  unfold ascending. intros Ha. revert b.
  induction Ha as [|x a Ha IH Hx]; intros b Hb E.
  - destruct b as [|y b]; [reflexivity|]. destruct (proj2 (E y)). now left.
  - inversion Hb as [|y b' Hb' Hy]; subst.
    + destruct (proj1 (E x)). now left.
    + rewrite Forall_forall in Hx, Hy.
      assert (x = y).
      { destruct (proj1 (E x) (or_introl eq_refl)) as [->|Hin]; [reflexivity|].
        destruct (proj2 (E y) (or_introl eq_refl)) as [->|Hin']; [reflexivity|].
        specialize (Hx _ Hin'). specialize (Hy _ Hin). lia. }
      subst y. f_equal. apply IH; [assumption|].
      intros v. split; intros Hv.
      * destruct (proj1 (E v) (or_intror Hv)) as [->|]; [|assumption].
        specialize (Hx _ Hv). lia.
      * destruct (proj2 (E v) (or_intror Hv)) as [->|]; [|assumption].
        specialize (Hy _ Hv). lia.
Qed.

Lemma parsePart_elements (f : Field) (part : string) (nums : list Z) :
  supplied f part = inl nums ->
  exists r, parsePart part (fieldSuffix f) (fieldParser f) = inl r
            /\ ascending r /\ forall v, In v r <-> In v nums.
Proof.
  intros Hs. rewrite parsePart_supplied, Hs.
  unfold supplied, tokens in Hs.
  destruct (String.eqb _ "*").
  { injection Hs as <-. exists []. repeat split; auto; constructor. }
  destruct (Z.eqb_spec (len nums) 1) as [Hone|_].
  - exists nums. repeat split; auto. apply single_ascending, Hone.
  - exists (sliceutil.Unique (sortSlice nums)). split; [reflexivity|]. split.
    + apply Unique_ascending, sortSlice_sorted.
    + intros v. rewrite Unique_In, sortSlice_In. tauto.
Qed.

(** X7: neither the order of the values of a field nor a value given more
    than once matters. Two specifications with the same number of fields
    (at most six), whose fields convert without error to lists with the
    same members, give the same ticker. *)
Theorem order_and_repeats_do_not_matter :
  forall spec1 spec2 : string,
    len (Split spec1 " ") = len (Split spec2 " ") ->
    len (Split spec1 " ") <= 6 ->
    (forall f : Field,
        present (Split spec1 " ") f = true ->
        exists n1 n2,
          supplied f (partOf (Split spec1 " ") f) = inl n1
          /\ supplied f (partOf (Split spec2 " ") f) = inl n2
          /\ forall v, In v n1 <-> In v n2) ->
    NewScheduledTicker spec1 = NewScheduledTicker spec2.
Proof.
  intros spec1 spec2 Hlen Hsix H.
  assert (Hp : forall f, present (Split spec1 " ") f = present (Split spec2 " ") f).
  { intros f. unfold present. now rewrite Hlen. }
  assert (Hne : forall spec n, supplied FSecond (partOf (Split spec " ") FSecond)
                                 = inl n ->
                               (Z.of_nat (String.length spec) =? 0) = false).
  { intros [|c r] n; [discriminate|reflexivity]. }
  assert (H0 : present (Split spec1 " ") FSecond = true).
  { unfold present. pose proof (Split_len_pos spec1 " ").
    apply Z.ltb_lt. simpl. lia. }
  destruct (H FSecond H0) as (n1 & n2 & S1 & S2 & _).
  rewrite !NewScheduledTicker_fields, (Hne _ _ S1), (Hne _ _ S2), <- Hlen.
  destruct (Z.ltb_spec 6 (len (Split spec1 " "))); [lia|].
  assert (V : forall f, partValue (Split spec1 " ") f = partValue (Split spec2 " ") f).
  { intros f. unfold partValue. rewrite <- Hp.
    destruct (present _ f) eqn:Pf; [|reflexivity].
    destruct (H f Pf) as (m1 & m2 & T1 & T2 & E).
    destruct (parsePart_elements f _ _ T1) as (r1 & -> & A1 & E1).
    destruct (parsePart_elements f _ _ T2) as (r2 & -> & A2 & E2).
    f_equal. apply ascending_ext; auto.
    intros v. rewrite E1, E2. apply E. }
  unfold fieldsOf. rewrite !V. reflexivity.
Qed.

Lemma order_and_repeats_do_not_matter_witness :
  NewScheduledTicker "45,15,45 * * * sep,6,jun"
  = inl (mkScheduledTicker [15; 45] [] [] [] [June; September] [])
  /\ NewScheduledTicker "45,15,45 * * * sep,6,jun"
     = NewScheduledTicker "15,45 * * * 6,9".
Proof.
  split; [vm_compute; reflexivity|].
  apply (order_and_repeats_do_not_matter
           "45,15,45 * * * sep,6,jun" "15,45 * * * 6,9").
  - vm_compute. reflexivity.
  - vm_compute. discriminate.
  - intros f Hf; destruct f; try discriminate Hf;
      eexists; eexists;
      (split; [vm_compute; reflexivity|]);
      (split; [vm_compute; reflexivity|]);
      intros v; simpl; tauto.
Defined.

(** ** Schedules of the clock only *)

(** X8: for a ticker in normal form that constrains the clock only (any
    day, any month, any weekday), and a time [t] in a location without
    zone transitions (one fixed offset, as [time.UTC]), the loop of
    [Next] ends within five iterations: [Next] returns, and the same time
    whatever fuel of five or more the loop is given. *)
Theorem clock_schedule_ends_in_five_iterations :
  forall (s : ScheduledTicker) (t : Time),
    Normal s -> days s = [] -> months s = [] -> weekdays s = [] ->
    tx (Loc t) = [] ->
    exists r, forall fuel, (5 <= fuel)%nat -> Next fuel s t = Some r.
Proof.
  intros s t Hn Hd Hm Hw Hfix.
  destruct (Next_returns s (normal_ranges s Hn) Hd Hm Hw 0 t Hfix) as [r H].
  exists r. intros fuel Hf.
  replace fuel with (5 + 0 + (fuel - 5))%nat by lia.
  unfold Next in *. apply nextLoop_more_fuel. exact H.
Qed.

Lemma clock_schedule_ends_in_five_iterations_witness :
  exists r, forall fuel, (5 <= fuel)%nat ->
    Next fuel (mkScheduledTicker [30] [15; 45] [6] [] [] [])
      (utc 2020 1 1 6 45 30) = Some r.
Proof.
  apply (clock_schedule_ends_in_five_iterations
           (mkScheduledTicker [30] [15; 45] [6] [] [] []) (utc 2020 1 1 6 45 30));
    [normal_ticker|reflexivity..].
Defined.

(** With zone transitions the bound does not hold. In CET on 2020-03-29,
    when 02:00 to 03:00 is skipped, from 00:15:30 with hours 0, 2 and 5
    the hour step adds two hours and lands on 03:00; the loop takes a
    sixth iteration and returns 05:15:30. *)
Example spring_forward_takes_six_iterations :
  let s := mkScheduledTicker [30] [15] [0; 2; 5] [] [] [] in
  let t := Date 2020 3 29 0 15 30 0 CET in
  Next 5 s t = None
  /\ option_map reading (Next 6 s t) = Some (2020, 3, 29, (5, 15, 30), 7200).
Proof. split; vm_compute; reflexivity. Qed.

Lemma firstAbove_least (l : list Z) (x v : Z) :
  ascending l -> firstAbove l x = Some v ->
  forall w, In w l -> x < w -> v <= w.
Proof.
  unfold ascending, firstAbove. induction 1 as [|y l Hl IH Hy]; simpl.
  - discriminate.
  - destruct (Z.ltb_spec x y) as [Hlt|Hge].
    + intros [= <-] w [<-|Hin] Hw; [lia|].
      rewrite Forall_forall in Hy. specialize (Hy _ Hin). lia.
    + intros Hf w [<-|Hin] Hw; [lia|]. eauto.
Qed.

Lemma first_least (l : list Z) (w : Z) :
  ascending l -> In w l -> first l <= w.
Proof.
  unfold ascending, first. destruct 1 as [|y l Hl Hy]; simpl; [tauto|].
  intros [<-|Hin]; [lia|].
  rewrite Forall_forall in Hy. specialize (Hy _ Hin). lia.
Qed.

Lemma matches_not_In (l : list Z) (x : Z) :
  (len l =? 0) = false -> ~ In x l -> matches l x = false.
Proof.
  intros Hlen Hnot. destruct (matches l x) eqn:E; [|reflexivity].
  apply matches_spec in E as [->|Hin]; [discriminate|contradiction].
Qed.

Lemma Next_whole_local (s : ScheduledTicker) (fuel : nat) (at_ r : Time) :
  Next fuel s at_ = Some r -> Nanosecond_of r = 0 /\ Loc r = Loc at_.
Proof.
  unfold Next. intros H.
  refine (nextLoop_invariant s
            (fun x => Nanosecond_of x = 0 /\ Loc x = Loc at_)
            _ _ _ _ _ fuel _ r _ H).
  1: intros x [_ Hl]; split;
       [apply jump_whole_second, (stepJump_shape StepMonth)
       |unfold nextMonth; now rewrite jump_Loc].
  1: intros x [_ Hl]; split;
       [apply jump_whole_second, (stepJump_shape StepDay)
       |unfold nextDay; now rewrite jump_Loc].
  1: intros x [_ Hl]; split;
       [apply jump_whole_second, (stepJump_shape StepHour)
       |unfold nextHour; now rewrite jump_Loc].
  1: intros x [_ Hl]; split;
       [apply jump_whole_second, (stepJump_shape StepMinute)
       |unfold nextMinute; now rewrite jump_Loc].
  1: intros x [_ Hl]; split;
       [apply jump_whole_second, (stepJump_shape StepSecond)
       |unfold nextSecond; now rewrite jump_Loc].
  split; [apply jump_whole_second, (stepJump_shape StepSecond)
         |unfold nextSecond; now rewrite jump_Loc].
Qed.

Section ClockFirst.

Variable s : ScheduledTicker.
Hypothesis Hs : Normal s.

Let Hr : Ranges s := normal_ranges s Hs.

(** The second step passes over no second that is listed. *)
Lemma nextSecond_skips (at_ : Time) (L : Z) :
  tx (Loc at_) = [] ->
  localSec at_ < L < localSec (nextSecond s at_) ->
  matches (seconds s) (secondAt L) = false.
Proof.
  intros Hfix. unfold nextSecond, nextSecondJump.
  destruct (clock_ranges at_) as (_ & Hsec & _).
  destruct (len (seconds s) =? 0) eqn:Hlen.
  { cbn [jump]. erewrite (localSec_Add _ _ 1 Hfix) by (unfold Second; ring). lia. }
  pose proof (first_In _ Hlen) as Hfirst.
  pose proof (inRange_In _ _ _ _ (seconds_range s Hr) Hfirst) as Hf.
  pose proof (seconds_ascending s Hs) as Ha.
  destruct (firstAbove (seconds s) (Second_of at_)) as [v|] eqn:Hfa;
    cbn [jump]; erewrite (localSec_Add _ _ _ Hfix) by reflexivity; intros HL;
    apply (matches_not_In _ _ Hlen); intros Hin.
  - pose proof (firstAbove_least _ _ _ Ha Hfa _ Hin) as Hleast.
    apply firstAbove_Some in Hfa as [Hv Hlt].
    pose proof (inRange_In _ _ _ _ (seconds_range s Hr) Hv) as Hvr.
    unfold Second_of, secondAt, secondsPerMinute in *.
    Z.div_mod_to_equations. lia.
  - pose proof (firstAbove_None _ _ Hfa _ Hin) as Hle.
    pose proof (first_least _ _ Ha Hin) as Hge.
    unfold Second_of, secondAt, secondsPerMinute, secondsInMinute in *.
    Z.div_mod_to_equations. lia.
Qed.

(** From a time whose minute is not listed, the minute step passes over
    no minute that is listed. *)
Lemma nextMinute_skips (at_ : Time) (L : Z) :
  tx (Loc at_) = [] ->
  matchMinute s at_ = false ->
  localSec at_ <= L < localSec (nextMinute s at_) ->
  matches (minutes s) (minuteAt L) = false.
Proof.
  intros Hfix Hm. unfold matchMinute in Hm.
  apply matches_false in Hm as [Hlen Hnot].
  unfold nextMinute, nextMinuteJump. rewrite Hlen.
  destruct (clock_ranges at_) as (_ & Hsec & Hmin & _).
  pose proof (first_In _ Hlen) as Hfirst.
  pose proof (inRange_In _ _ _ _ (minutes_range s Hr) Hfirst) as Hf.
  pose proof (minutes_ascending s Hs) as Ha.
  destruct (firstAbove (minutes s) (Minute_of at_)) as [v|] eqn:Hfa; cbn [jump].
  - erewrite (localSec_Add _ _ ((v - Minute_of at_) * 60 - Second_of at_) Hfix)
      by (unfold Minute; ring).
    intros HL. apply (matches_not_In _ _ Hlen). intros Hin.
    pose proof (firstAbove_least _ _ _ Ha Hfa _ Hin) as Hleast.
    apply firstAbove_Some in Hfa as [Hv Hlt].
    pose proof (inRange_In _ _ _ _ (minutes_range s Hr) Hv) as Hvr.
    assert (Minute_of at_ <= minuteAt L < v).
    { unfold Minute_of, Second_of, minuteAt, secondsPerMinute, secondsPerHour in *.
      Z.div_mod_to_equations. lia. }
    destruct (Z.eq_dec (minuteAt L) (Minute_of at_)) as [E|E];
      [rewrite E in Hin; contradiction|lia].
  - erewrite (localSec_Add _ _ ((60 - Minute_of at_ + first (minutes s)) * 60
                                - Second_of at_) Hfix)
      by (unfold Minute, minutesInHour; ring).
    intros HL. apply (matches_not_In _ _ Hlen). intros Hin.
    pose proof (firstAbove_None _ _ Hfa _ Hin) as Hle.
    pose proof (first_least _ _ Ha Hin) as Hge.
    assert (Minute_of at_ <= minuteAt L \/ minuteAt L < first (minutes s)).
    { unfold Minute_of, Second_of, minuteAt, secondsPerMinute, secondsPerHour in *.
      Z.div_mod_to_equations. lia. }
    destruct (Z.eq_dec (minuteAt L) (Minute_of at_)) as [E|E];
      [rewrite E in Hin; contradiction|lia].
Qed.

(** From a time whose hour is not listed, the hour step passes over no
    hour that is listed. *)
Lemma nextHour_skips (at_ : Time) (L : Z) :
  tx (Loc at_) = [] ->
  matchHour s at_ = false ->
  localSec at_ <= L < localSec (nextHour s at_) ->
  matches (hours s) (hourAt L) = false.
Proof.
  intros Hfix Hm. unfold matchHour in Hm.
  apply matches_false in Hm as [Hlen Hnot].
  unfold nextHour, nextHourJump, Clock. rewrite Hlen.
  destruct (clock_ranges at_) as (_ & Hsec & Hmin & Hhrs).
  pose proof (first_In _ Hlen) as Hfirst.
  pose proof (inRange_In _ _ _ _ (hours_range s Hr) Hfirst) as Hf.
  pose proof (hours_ascending s Hs) as Ha.
  destruct (firstAbove (hours s) (Hour_of at_)) as [v|] eqn:Hfa; cbn [jump].
  - erewrite (localSec_Add _ _ ((v - Hour_of at_) * 3600
                                - Minute_of at_ * 60 - Second_of at_) Hfix)
      by (unfold Hour, Minute; ring).
    intros HL. apply (matches_not_In _ _ Hlen). intros Hin.
    pose proof (firstAbove_least _ _ _ Ha Hfa _ Hin) as Hleast.
    apply firstAbove_Some in Hfa as [Hv Hlt].
    pose proof (inRange_In _ _ _ _ (hours_range s Hr) Hv) as Hvr.
    assert (Hour_of at_ <= hourAt L < v).
    { unfold Hour_of, Minute_of, Second_of, hourAt, secondsPerMinute,
        secondsPerHour, secondsPerDay in *.
      Z.div_mod_to_equations. lia. }
    destruct (Z.eq_dec (hourAt L) (Hour_of at_)) as [E|E];
      [rewrite E in Hin; contradiction|lia].
  - erewrite (localSec_Add _ _ ((24 - Hour_of at_ + first (hours s)) * 3600
                                - Minute_of at_ * 60 - Second_of at_) Hfix)
      by (unfold Hour, Minute, hoursInDay; ring).
    intros HL. apply (matches_not_In _ _ Hlen). intros Hin.
    pose proof (firstAbove_None _ _ Hfa _ Hin) as Hle.
    pose proof (first_least _ _ Ha Hin) as Hge.
    assert (Hour_of at_ <= hourAt L \/ hourAt L < first (hours s)).
    { unfold Hour_of, Minute_of, Second_of, hourAt, secondsPerMinute,
        secondsPerHour, secondsPerDay in *.
      Z.div_mod_to_equations. lia. }
    destruct (Z.eq_dec (hourAt L) (Hour_of at_)) as [E|E];
      [rewrite E in Hin; contradiction|lia].
Qed.

Hypothesis Hdays : days s = [].
Hypothesis Hmonths : months s = [].
Hypothesis Hweekdays : weekdays s = [].

Lemma nextLoop_noneBefore (t : Time) (fuel : nat) :
  forall at_ r,
    tx (Loc at_) = [] ->
    noneBefore s t at_ -> nextLoop fuel s at_ = Some r -> noneBefore s t r.
Proof.
  induction fuel as [|fuel IH]; intros at_ r Hfix HP H; [discriminate|].
  rewrite (nextLoop_clock s Hdays Hmonths Hweekdays) in H.
  destruct (matchHour s at_) eqn:Hh; cbn [negb] in H.
  2:{ refine (IH _ _ _ _ H);
        [unfold nextHour; now rewrite jump_Loc|]; intros L HL H1 H2 H3.
      pose proof (HP L HL H1 H2 H3).
      destruct (Z.lt_ge_cases L (localSec (nextHour s at_))) as [Hlt|]; [|lia].
      rewrite (nextHour_skips at_ L Hfix Hh) in H1 by lia. discriminate. }
  destruct (matchMinute s at_) eqn:Hm; cbn [negb] in H.
  2:{ refine (IH _ _ _ _ H);
        [unfold nextMinute; now rewrite jump_Loc|]; intros L HL H1 H2 H3.
      pose proof (HP L HL H1 H2 H3).
      destruct (Z.lt_ge_cases L (localSec (nextMinute s at_))) as [Hlt|]; [|lia].
      rewrite (nextMinute_skips at_ L Hfix Hm) in H2 by lia. discriminate. }
  destruct (matchSecond s at_) eqn:Hsec; cbn [negb] in H.
  2:{ refine (IH _ _ _ _ H);
        [unfold nextSecond; now rewrite jump_Loc|]; intros L HL H1 H2 H3.
      pose proof (HP L HL H1 H2 H3).
      destruct (Z.lt_ge_cases L (localSec (nextSecond s at_))) as [Hlt|]; [|lia].
      destruct (Z.eq_dec L (localSec at_)) as [->|Hne].
      - unfold matchSecond, Second_of in Hsec. unfold secondAt in H3.
        congruence.
      - rewrite (nextSecond_skips at_ L Hfix) in H3 by lia. discriminate. }
  injection H as <-. exact HP.
Qed.

Lemma Next_noneBefore (fuel : nat) (t r : Time) :
  tx (Loc t) = [] ->
  Next fuel s t = Some r -> noneBefore s t r.
Proof.
  intros Hfix. unfold Next. apply nextLoop_noneBefore.
  - unfold nextSecond. now rewrite jump_Loc.
  - intros L HL H1 H2 H3.
    destruct (Z.lt_ge_cases L (localSec (nextSecond s t))) as [Hlt|]; [|lia].
    rewrite (nextSecond_skips t L Hfix) in H3 by lia. discriminate.
Qed.

End ClockFirst.

Lemma whole_second_order (a b : Time) :
  tx (Loc b) = [] ->
  Loc a = Loc b -> Nanosecond_of a = 0 -> Nanosecond_of b = 0 ->
  localSec a <= localSec b -> unixNano a <= unixNano b.
Proof.
  intros Hfix Hl. rewrite !localSec_fixed by congruence. rewrite Hl.
  unfold Unix, Nanosecond_of. intros Ha Hb.
  Z.div_mod_to_equations. lia.
Qed.

Lemma whole_second_after (t m : Time) :
  tx (Loc t) = [] ->
  Loc m = Loc t -> Nanosecond_of m = 0 -> unixNano t < unixNano m ->
  localSec t < localSec m.
Proof.
  intros Hfix Hl. rewrite !localSec_fixed by congruence. rewrite Hl.
  unfold Unix, Nanosecond_of. intros Hm.
  Z.div_mod_to_equations. lia.
Qed.

(** X9: for a ticker in normal form that constrains the clock only, and
    a time [t] in a location without zone transitions (one fixed offset),
    [Next] returns the first occurrence: no whole-second time of the
    location of [t] that is after [t] and whose hour, minute and second
    the schedule accepts is before the time returned. *)
Theorem Next_is_first_occurrence :
  forall (s : ScheduledTicker) (fuel : nat) (t r m : Time),
    Normal s -> days s = [] -> months s = [] -> weekdays s = [] ->
    tx (Loc t) = [] ->
    Next fuel s t = Some r ->
    Loc m = Loc t -> Nanosecond_of m = 0 -> unixNano t < unixNano m ->
    matchHour s m = true -> matchMinute s m = true -> matchSecond s m = true ->
    unixNano r <= unixNano m.
Proof.
  intros s fuel t r m Hn Hd Hmo Hw Hfix Hnext Hloc Hnano Hafter Hh Hmi Hsec.
  destruct (Next_whole_local s fuel t r Hnext) as [Hr0 Hrl].
  apply whole_second_order; [congruence|congruence|assumption..|].
  apply (Next_noneBefore s Hn Hd Hmo Hw fuel t r Hfix Hnext).
  - apply whole_second_after; assumption.
  - exact Hh.
  - exact Hmi.
  - exact Hsec.
Qed.

Lemma Next_is_first_occurrence_witness :
  let s := mkScheduledTicker [0; 30] [15] [] [] [] [] in
  let t := utc 2020 1 1 0 15 30 in
  let m := utc 2020 1 1 1 15 0 in
  Next 5 s t = Some m
  /\ unixNano m <= unixNano (utc 2020 1 1 2 15 30).
Proof.
  intros s t m. split; [vm_compute; reflexivity|].
  apply (Next_is_first_occurrence s 5 t m (utc 2020 1 1 2 15 30)).
  - subst s. normal_ticker.
  - reflexivity.
  - reflexivity.
  - reflexivity.
  - reflexivity.
  - vm_compute. reflexivity.
  - reflexivity.
  - vm_compute. reflexivity.
  - vm_compute. reflexivity.
  - vm_compute. reflexivity.
  - vm_compute. reflexivity.
  - vm_compute. reflexivity.
Defined.

(** ** Runs of the scheduler loop *)

Section SchedulerOrder.

Variable next : Time -> option Time.
Variable tz : Location.

Local Abbreviation step := (step next tz).
Local Abbreviation run := (run next tz).

Lemma run_cons (c c' : Config) (i : Input) (inputs : list Input)
    (evs : list Event) :
  run c (i :: inputs) = Some (c', evs) ->
  exists c1 evs1 evs2,
    step c i = Some (c1, evs1) /\ run c1 inputs = Some (c', evs2)
    /\ evs = (evs1 ++ evs2)%list.
Proof.
  cbn [timeutil.run]. destruct (step c i) as [[c1 evs1]|]; [|discriminate].
  destruct (run c1 inputs) as [[c2 evs2]|] eqn:Hrest; [|discriminate].
  intros [= <- <-]. exists c1, evs1, evs2. auto.
Qed.

(** A move of a loop that has not started yet emits nothing. *)
Lemma step_Starting (c c' : Config) (i : Input) (evs : list Event) :
  loop c = Starting -> step c i = Some (c', evs) -> evs = [].
Proof.
  destruct c as [cn l]. simpl. intros ->. unfold timeutil.step. simpl.
  destruct i; try discriminate.
  - destruct (next _); intros [= <- <-]; reflexivity.
  - intros [= <- <-]. reflexivity.
Qed.

(** Every tick of a run is the provider's [Next] of the tick before it,
    and the first tick is the one the loop was waiting to deliver. *)
Lemma run_ticks_chain (inputs : list Input) :
  forall c c' evs,
    run c inputs = Some (c', evs) ->
    (forall k a b, nth_error (ticks evs) k = Some a ->
                   nth_error (ticks evs) (S k) = Some b ->
                   next (In_ a tz) = Some b)
    /\ (forall n a, pending (loop c) = Some n ->
                    nth_error (ticks evs) 0 = Some a -> a = n)
    /\ (started (loop c) -> pending (loop c) = None -> ticks evs = []).
Proof.
  induction inputs as [|i inputs IH]; intros c c' evs Hrun.
  - injection Hrun as <- <-. simpl. repeat split; try discriminate;
      try (intros k a b H; destruct k; discriminate H).
  - apply run_cons in Hrun as (c1 & evs1 & evs2 & Hstep & Hrest & ->).
    destruct (IH _ _ _ Hrest) as (Hchain & Hhead & Hnone).
    rewrite ticks_app.
    destruct (loop c) eqn:Hl.
    + (* Starting *)
      rewrite (step_Starting c c1 i evs1 Hl Hstep). simpl.
      repeat split; [exact Hchain|discriminate|].
      intros Hst. exfalso. apply Hst. reflexivity.
    + destruct (step_pending next tz c c1 i evs1) as [Hst1 Hcase];
        [unfold started; congruence|exact Hstep|].
      destruct Hcase as [(n' & d & Hl' & _)|(Hnil & Hp)]; [congruence|].
      rewrite Hnil. simpl app. rewrite Hl in Hp. simpl in Hp |- *.
      repeat split; [exact Hchain| |discriminate].
      intros n0 a [= <-] Ha. destruct Hp as [Hp|Hp].
      * eauto.
      * rewrite (Hnone Hst1 Hp) in Ha. discriminate.
    + destruct (step_pending next tz c c1 i evs1) as [Hst1 Hcase];
        [unfold started; congruence|exact Hstep|].
      destruct Hcase as [(n' & d' & Hl' & _)|(Hnil & Hp)]; [congruence|].
      rewrite Hnil. simpl app. rewrite Hl in Hp. simpl in Hp |- *.
      repeat split; [exact Hchain| |discriminate].
      intros n0 a [= <-] Ha. destruct Hp as [Hp|Hp].
      * eauto.
      * rewrite (Hnone Hst1 Hp) in Ha. discriminate.
    + destruct (step_pending next tz c c1 i evs1) as [Hst1 Hcase];
        [unfold started; congruence|exact Hstep|].
      destruct Hcase as [(n' & d' & Hl' & -> & -> & Hl1)|(Hnil & Hp)].
      * assert (n' = n) by congruence. subst n'.
        change (ticks [Tick n]) with [n]. simpl app.
        unfold afterSend in Hl1.
        repeat split; [|simpl; congruence|discriminate].
        intros k a b Ha Hb. destruct k as [|k].
        -- simpl in Ha, Hb. injection Ha as <-.
           destruct (next (In_ n tz)) as [n1|] eqn:Hn.
           ++ f_equal. symmetry. apply (Hhead n1 b); [now rewrite Hl1|exact Hb].
           ++ rewrite Hnone in Hb; [discriminate|exact Hst1|now rewrite Hl1].
        -- simpl in Ha, Hb. eauto.
      * rewrite Hnil. simpl app. rewrite Hl in Hp. simpl in Hp |- *.
        repeat split; [exact Hchain| |discriminate].
        intros n0 a [= <-] Ha. destruct Hp as [Hp|Hp].
        -- eauto.
        -- rewrite (Hnone Hst1 Hp) in Ha. discriminate.
    + destruct (step_pending next tz c c1 i evs1) as [Hst1 Hcase];
        [unfold started; congruence|exact Hstep|].
      destruct Hcase as [(n' & d' & Hl' & _)|(Hnil & Hp)]; [congruence|].
      rewrite Hnil. simpl app. rewrite Hl in Hp. simpl in Hp |- *.
      assert (Hp1 : pending (loop c1) = None) by (destruct Hp; assumption).
      rewrite (Hnone Hst1 Hp1).
      repeat split; try discriminate;
        try (intros k a b H; destruct k; discriminate H).
    + destruct (step_pending next tz c c1 i evs1) as [Hst1 Hcase];
        [unfold started; congruence|exact Hstep|].
      destruct Hcase as [(n' & d' & Hl' & _)|(Hnil & Hp)]; [congruence|].
      rewrite Hnil. simpl app. rewrite Hl in Hp. simpl in Hp |- *.
      assert (Hp1 : pending (loop c1) = None) by (destruct Hp; assumption).
      rewrite (Hnone Hst1 Hp1).
      repeat split; try discriminate;
        try (intros k a b H; destruct k; discriminate H).
Qed.

End SchedulerOrder.

Lemma chain_increasing (l : list Time) :
  (forall k a b, nth_error l k = Some a -> nth_error l (S k) = Some b ->
                 unixNano a < unixNano b) ->
  increasing l.
Proof.
  unfold increasing. induction l as [|x l IH]; intros H; constructor.
  - apply IH. intros k a b Ha Hb. apply (H (S k) a b); assumption.
  - destruct l as [|y l]; [constructor|].
    assert (Hxy : unixNano x < unixNano y) by (apply (H 0%nat); reflexivity).
    assert (Hs : StronglySorted (fun a b => unixNano a < unixNano b) (y :: l)).
    { apply IH. intros k a b Ha Hb. apply (H (S k) a b); assumption. }
    constructor; [exact Hxy|].
    inversion Hs as [|? ? _ Hall]; subst.
    eapply Forall_impl; [|exact Hall]. simpl. intros z Hz. lia.
Qed.

(** X10: with a [ScheduledTicker] in normal form as the provider and a
    scheduler whose location has no zone transitions (one fixed offset, as
    [time.UTC]), the loop delivers its ticks in strictly ascending order
    of time, from whatever state it is in and whatever the clock reads. *)
Theorem scheduled_ticks_increase :
  forall (s : ScheduledTicker) (fuel : nat) (tz : Location)
         (c c' : Config) (inputs : list Input) (evs : list Event),
    Normal s ->
    tx tz = [] ->
    run (Next fuel s) tz c inputs = Some (c', evs) ->
    increasing (ticks evs).
Proof.
  intros s fuel tz c c' inputs evs Hn Hfix Hrun.
  destruct (run_ticks_chain _ tz inputs c c' evs Hrun) as (Hchain & _).
  apply chain_increasing. intros k a b Ha Hb.
  exact (Next_after s (normal_ranges s Hn) fuel (In_ a tz) b Hfix
           (Hchain k a b Ha Hb)).
Qed.

Lemma scheduled_ticks_increase_witness :
  let s := mkScheduledTicker [0; 30] [] [] [] [] [] in
  let c := mkConfig false Starting in
  let inputs := [Now 0; Now 30000000000; Receive; Now 70000000000; Receive] in
  let c' := mkConfig false (AtUntil (mkTime 90000000000 UTC)) in
  let evs := [Tick (mkTime 30000000000 UTC); Tick (mkTime 60000000000 UTC)] in
  run (Next 5 s) UTC c inputs = Some (c', evs) /\ increasing (ticks evs).
Proof.
  intros s c inputs c' evs. split; [vm_compute; reflexivity|].
  apply (scheduled_ticks_increase s 5 UTC c c' inputs evs).
  - subst s. normal_ticker.
  - reflexivity.
  - vm_compute. reflexivity.
Defined.

(** X11: with an [IntervalTicker] as the provider the ticks do not drift.
    Each tick delivered after another is exactly the interval after it,
    however late the loop or its consumer was, and is in the zone of the
    scheduler. *)
Theorem interval_ticks_do_not_drift :
  forall (t : IntervalTicker) (tz : Location)
         (c c' : Config) (inputs : list Input) (evs : list Event),
    run (fun at_ => Some (IntervalNext t at_)) tz c inputs = Some (c', evs) ->
    forall k a b,
      nth_error (ticks evs) k = Some a ->
      nth_error (ticks evs) (S k) = Some b ->
      Sub b a = interval t /\ Loc b = tz.
Proof.
  intros t tz c c' inputs evs Hrun k a b Ha Hb.
  destruct (run_ticks_chain _ tz inputs c c' evs Hrun) as (Hchain & _).
  specialize (Hchain k a b Ha Hb). injection Hchain as <-.
  unfold Sub, IntervalNext, Add, In_. simpl. split; [lia|reflexivity].
Qed.

Lemma interval_ticks_do_not_drift_witness :
  let t := mkIntervalTicker Second in
  let c := mkConfig false Starting in
  let inputs := [Now 5; Now 1000000005; Receive; Now 5000000000; Receive] in
  let c' := mkConfig false (AtUntil (mkTime 3000000005 UTC)) in
  let a := mkTime 1000000005 UTC in
  let b := mkTime 2000000005 UTC in
  run (fun at_ => Some (IntervalNext t at_)) UTC c inputs
  = Some (c', [Tick a; Tick b])
  /\ Sub b a = interval t /\ Loc b = UTC.
Proof.
  intros t c inputs c' a b. split; [vm_compute; reflexivity|].
  apply (interval_ticks_do_not_drift t UTC c c' inputs [Tick a; Tick b])
    with (k := 0%nat); [vm_compute; reflexivity|reflexivity|reflexivity].
Defined.

Section SchedulerSafety.

Variable next : Time -> option Time.
Variable tz : Location.

Local Abbreviation step := (step next tz).
Local Abbreviation run := (run next tz).

(** What one move can emit. *)
Lemma step_events (c c' : Config) (i : Input) (evs : list Event) :
  step c i = Some (c', evs) ->
  evs = []
  \/ (exists timer, evs = [Sleep timer] /\ 0 < timer <= scheduleMaxSleepTime)
  \/ (exists n, evs = [Tick n])
  \/ (evs = [Close] /\ cancelled c = true /\ loop c' = Exited).
Proof.
  destruct c as [[|] l]; unfold timeutil.step; simpl;
    destruct i, l; simpl; try discriminate;
    unfold sleepEnter, afterSleep;
    repeat match goal with
           | |- context [next ?a] => destruct (next a)
           | |- context [?a <=? ?b] => destruct (Z.leb_spec a b)
           end; simpl; try discriminate; intros [= <- <-]; simpl;
    first [ now left
          | right; left; eexists; split; [reflexivity|];
            unfold scheduleMaxSleepTime, Minute, Second in *; lia
          | right; right; left; eexists; reflexivity
          | right; right; right; repeat split; reflexivity
          | exfalso; unfold scheduleMaxSleepTime, Minute, Second in *; lia ].
Qed.

Lemma step_cancelled (c c' : Config) (i : Input) (evs : list Event) :
  step c i = Some (c', evs) ->
  cancelled c' = true -> cancelled c = true \/ i = Cancel.
Proof.
  destruct c as [cn l]. unfold timeutil.step. simpl.
  destruct i, l; simpl; try discriminate; auto;
    unfold sleepEnter, afterSleep;
    repeat match goal with
           | |- context [next ?a] => destruct (next a)
           | |- context [?a <=? ?b] => destruct (Z.leb_spec a b)
           | |- context [if cn then _ else _] => destruct cn
           end; simpl; try discriminate; intros [= <- <-]; simpl; auto.
Qed.

Lemma step_stays_cancelled (c c' : Config) (i : Input) (evs : list Event) :
  step c i = Some (c', evs) -> cancelled c = true -> cancelled c' = true.
Proof.
  destruct c as [cn l]. unfold timeutil.step. simpl.
  destruct i, l; simpl; try discriminate; auto;
    unfold sleepEnter, afterSleep;
    repeat match goal with
           | |- context [next ?a] => destruct (next a)
           | |- context [?a <=? ?b] => destruct (Z.leb_spec a b)
           | |- context [if cn then _ else _] => destruct cn
           end; simpl; try discriminate; intros [= <- <-]; simpl; auto.
Qed.

(** A loop that has returned makes no move of its own. *)
Lemma run_Exited (inputs : list Input) :
  forall c c' evs,
    loop c = Exited -> run c inputs = Some (c', evs) ->
    evs = [] /\ loop c' = Exited /\ (cancelled c = true -> cancelled c' = true).
Proof.
  induction inputs as [|i inputs IH]; intros c c' evs Hl Hrun.
  - injection Hrun as <- <-. auto.
  - apply (run_cons next tz) in Hrun as (c1 & evs1 & evs2 & Hstep & Hrest & ->).
    destruct c as [cn l]. simpl in Hl. subst l.
    unfold timeutil.step in Hstep. simpl in Hstep.
    destruct i; try discriminate. injection Hstep as <- <-.
    destruct (IH (mkConfig true Exited) _ _ eq_refl Hrest) as (-> & He & Hc).
    repeat split; auto.
Qed.

End SchedulerSafety.

(** X12: every timer the loop starts is for a positive duration of at
    most [scheduleMaxSleepTime], with any provider. *)
Theorem timers_are_positive_and_capped :
  forall (next : Time -> option Time) (tz : Location)
         (c c' : Config) (inputs : list Input) (evs : list Event)
         (timer : Duration),
    run next tz c inputs = Some (c', evs) ->
    In (Sleep timer) evs ->
    0 < timer <= scheduleMaxSleepTime.
Proof.
  intros next tz c c' inputs. revert c c'.
  induction inputs as [|i inputs IH]; intros c c' evs timer Hrun Hin.
  - injection Hrun as <- <-. destruct Hin.
  - apply run_cons in Hrun as (c1 & evs1 & evs2 & Hstep & Hrest & ->).
    apply in_app_or in Hin as [Hin|Hin]; [|eauto].
    destruct (step_events _ _ _ _ _ _ Hstep)
      as [->|[(t & -> & Ht)|[(n & ->)|(-> & _)]]]; simpl in Hin;
      try tauto.
    + destruct Hin as [[= <-]|[]]. exact Ht.
    + destruct Hin as [|[]]. discriminate.
    + destruct Hin as [|[]]. discriminate.
Qed.

Lemma timers_are_positive_and_capped_witness :
  let c := mkConfig false Starting in
  let inputs := [Now 0; Now 10] in
  let n := mkTime 1000000000 UTC in
  let c' := mkConfig false (Sleeping n 999999990 999999990) in
  run everySecond UTC c inputs = Some (c', [Sleep 999999990])
  /\ 0 < 999999990 <= scheduleMaxSleepTime.
Proof.
  intros c inputs n c'. split; [vm_compute; reflexivity|].
  apply (timers_are_positive_and_capped everySecond UTC c c' inputs
           [Sleep 999999990] 999999990);
    [vm_compute; reflexivity|simpl; auto].
Defined.

(** X13: the tick channel is closed at most once, as the last thing the
    loop does: nothing is sent after it, and the loop has returned. *)
Theorem channel_is_closed_once_and_last :
  forall (next : Time -> option Time) (tz : Location)
         (c c' : Config) (inputs : list Input) (evs : list Event),
    run next tz c inputs = Some (c', evs) ->
    In Close evs ->
    (exists pre, evs = (pre ++ [Close])%list /\ ~ In Close pre)
    /\ loop c' = Exited.
Proof.
  intros next tz c c' inputs. revert c c'.
  induction inputs as [|i inputs IH]; intros c c' evs Hrun Hin.
  - injection Hrun as <- <-. destruct Hin.
  - apply run_cons in Hrun as (c1 & evs1 & evs2 & Hstep & Hrest & ->).
    destruct (step_events _ _ _ _ _ _ Hstep)
      as [->|[(t & -> & Ht)|[(n & ->)|(-> & _ & Hex)]]].
    + simpl in *. apply (IH _ _ _ Hrest Hin).
    + destruct Hin as [|Hin]; [discriminate|].
      destruct (IH _ _ _ Hrest Hin) as ((pre & -> & Hpre) & He).
      split; [|exact He]. exists (Sleep t :: pre). split; [reflexivity|].
      intros [|]; [discriminate|tauto].
    + destruct Hin as [|Hin]; [discriminate|].
      destruct (IH _ _ _ Hrest Hin) as ((pre & -> & Hpre) & He).
      split; [|exact He]. exists (Tick n :: pre). split; [reflexivity|].
      intros [|]; [discriminate|tauto].
    + destruct (run_Exited _ _ _ _ _ _ Hex Hrest) as (-> & He & _).
      split; [|exact He]. exists []. split; [reflexivity|tauto].
Qed.

Lemma channel_is_closed_once_and_last_witness :
  let c := mkConfig false Starting in
  let inputs := [Now 0; Now 10; Cancel; CtxDone; Cancel] in
  let c' := mkConfig true Exited in
  let evs := [Sleep 999999990; Close] in
  run everySecond UTC c inputs = Some (c', evs)
  /\ (exists pre, evs = (pre ++ [Close])%list /\ ~ In Close pre)
  /\ loop c' = Exited.
Proof.
  intros c inputs c' evs. split; [vm_compute; reflexivity|].
  apply (channel_is_closed_once_and_last everySecond UTC c c' inputs evs);
    [vm_compute; reflexivity|simpl; auto].
Defined.

(** X14: the tick channel is closed only once the context has been
    cancelled: a run that starts with the context live and closes the
    channel has the cancellation among its moves. *)
Theorem channel_is_closed_only_after_cancel :
  forall (next : Time -> option Time) (tz : Location)
         (c c' : Config) (inputs : list Input) (evs : list Event),
    run next tz c inputs = Some (c', evs) ->
    cancelled c = false ->
    In Close evs ->
    In Cancel inputs /\ cancelled c' = true.
Proof.
  intros next tz c c' inputs. revert c c'.
  assert (Hkeep : forall inputs c c' evs,
             run next tz c inputs = Some (c', evs) ->
             cancelled c = true -> cancelled c' = true).
  { induction inputs0 as [|i inputs0 IH]; intros c c' evs Hrun Hc.
    - injection Hrun as <- <-. exact Hc.
    - apply run_cons in Hrun as (c1 & evs1 & evs2 & Hstep & Hrest & ->).
      eapply IH; [exact Hrest|]. eapply step_stays_cancelled; eauto. }
  induction inputs as [|i inputs IH]; intros c c' evs Hrun Hc Hin.
  - injection Hrun as <- <-. destruct Hin.
  - apply run_cons in Hrun as (c1 & evs1 & evs2 & Hstep & Hrest & ->).
    destruct (cancelled c1) eqn:Hc1.
    + destruct (step_cancelled _ _ _ _ _ _ Hstep Hc1) as [Hc0| ->]; [congruence|].
      split; [now left|]. eapply Hkeep; eauto.
    + apply in_app_or in Hin as [Hin|Hin].
      * destruct (step_events _ _ _ _ _ _ Hstep)
          as [->|[(t & -> & Ht)|[(n & ->)|(-> & Hcc & _)]]];
          simpl in Hin; try tauto; try congruence.
        -- destruct Hin as [|[]]; discriminate.
        -- destruct Hin as [|[]]; discriminate.
      * destruct (IH _ _ _ Hrest Hc1 Hin) as [H1 H2].
        split; [now right|exact H2].
Qed.

Lemma channel_is_closed_only_after_cancel_witness :
  let c := mkConfig false (AtUntil (mkTime 1000000000 UTC)) in
  let inputs := [Cancel; Now 1000000000] in
  let c' := mkConfig true Exited in
  run everySecond UTC c inputs = Some (c', [Close])
  /\ In Cancel inputs /\ cancelled c' = true.
Proof.
  intros c inputs c'. split; [vm_compute; reflexivity|].
  apply (channel_is_closed_only_after_cancel everySecond UTC c c' inputs [Close]);
    [vm_compute; reflexivity|reflexivity|simpl; auto].
Defined.

Lemma step_overdue (t : IntervalTicker) (tz : Location) (b b' : Z)
    (c c' : Config) (i : Input) (evs : list Event) :
  interval t <= 0 ->
  overdue b (loop c) ->
  match i with Now now => b <= now /\ b' = now | _ => b' = b end ->
  step (fun at_ => Some (IntervalNext t at_)) tz c i = Some (c', evs) ->
  overdue b' (loop c') /\ forall e, In e evs -> isSleep e = false.
Proof.
  intros Ht. destruct c as [[|] l]; unfold step; simpl;
    destruct i, l; simpl; try discriminate; try tauto;
    unfold sleepEnter, afterSleep, afterSend, IntervalNext, Add, In_;
    intros Hov Hb;
    repeat match goal with
           | H : _ /\ _ |- _ => destruct H
           | H : b' = _ |- _ => subst b'
           end;
    repeat match goal with
           | |- context [?a <=? ?b] => destruct (Z.leb_spec a b)
           end; simpl; try discriminate; intros [= <- <-]; simpl;
    try (exfalso; unfold scheduleMaxSleepTime, Minute, Second in *; lia);
    (split; [try lia; try exact I
            |intros e He; simpl in He;
             repeat match type of He with
                    | _ \/ _ => destruct He as [<-|He]
                    | False => destruct He
                    end; try reflexivity]).
Qed.

(** X15: with an [IntervalTicker] whose interval is zero or negative the
    loop never sleeps. Started under a clock that does not go back, it
    finds every tick due at once and only waits for the consumer. *)
Theorem nonpositive_interval_never_sleeps :
  forall (t : IntervalTicker) (tz : Location) (b : Z)
         (c c' : Config) (inputs : list Input) (evs : list Event),
    interval t <= 0 ->
    loop c = Starting ->
    clockMonotone b inputs ->
    run (fun at_ => Some (IntervalNext t at_)) tz c inputs = Some (c', evs) ->
    forall e, In e evs -> isSleep e = false.
Proof.
  intros t tz b c c' inputs evs Ht Hl.
  assert (Hov : overdue b (loop c)) by (rewrite Hl; exact I).
  clear Hl. revert b c c' evs Hov.
  induction inputs as [|i inputs IH]; intros b c c' evs Hov Hclock Hrun e He.
  - injection Hrun as <- <-. destruct He.
  - apply run_cons in Hrun as (c1 & evs1 & evs2 & Hstep & Hrest & ->).
    assert (Hcase : exists b',
               match i with Now now => b <= now /\ b' = now | _ => b' = b end
               /\ clockMonotone b' inputs).
    { destruct i; simpl in Hclock; try (exists b; split; [reflexivity|assumption]).
      destruct Hclock as [Hb Hclock]. exists now. auto. }
    destruct Hcase as (b' & Hb' & Hclock').
    destruct (step_overdue t tz b b' _ _ _ _ Ht Hov Hb' Hstep) as [Hnext Hno].
    apply in_app_or in He as [He|He]; [auto|].
    apply (IH b' _ _ _ Hnext Hclock' Hrest e He).
Qed.

Lemma nonpositive_interval_never_sleeps_witness :
  let t := mkIntervalTicker 0 in
  let c := mkConfig false Starting in
  let inputs := [Now 5; Now 6; Receive; Now 7; Receive; Now 8] in
  let n := mkTime 5 UTC in
  let c' := mkConfig false (Sending n (-3)) in
  let evs := [Tick n; Tick n] in
  run (fun at_ => Some (IntervalNext t at_)) UTC c inputs = Some (c', evs)
  /\ forall e, In e evs -> isSleep e = false.
Proof.
  intros t c inputs n c' evs. split; [vm_compute; reflexivity|].
  apply (nonpositive_interval_never_sleeps t UTC 0 c c' inputs evs).
  - simpl. lia.
  - reflexivity.
  - simpl. lia.
  - vm_compute. reflexivity.
Defined.

Section SchedulerZone.

Variable next : Time -> option Time.
Variable tz : Location.
Hypothesis next_Loc : forall a b, next a = Some b -> Loc b = Loc a.

Lemma step_ticks_zone (c c' : Config) (i : Input) (evs : list Event) :
  (forall n, pending (loop c) = Some n -> Loc n = tz) ->
  step next tz c i = Some (c', evs) ->
  Forall (fun t => Loc t = tz) (ticks evs)
  /\ forall n, pending (loop c') = Some n -> Loc n = tz.
Proof.
  intros Hp Hstep. destruct (loop c) eqn:Hl.
  1:{ rewrite (step_Starting next tz c c' i evs Hl Hstep).
      split; [constructor|].
      intros n Hn. destruct c as [cn l]. simpl in Hl. subst l.
      unfold step in Hstep. simpl in Hstep. destruct i; try discriminate.
      - destruct (next {| unixNano := now; Loc := tz |}) as [n'|] eqn:Hn';
          injection Hstep as <- <-; simpl in Hn; [|discriminate].
        injection Hn as <-. apply (next_Loc _ _ Hn').
      - injection Hstep as <- <-. discriminate. }
  all: destruct (step_pending next tz c c' i evs) as [Hst1 Hcase];
    [unfold started; congruence|exact Hstep|];
    destruct Hcase as [(n' & d' & Hl' & -> & -> & Hl1)|(Hnil & Hq)];
    [split;
     [constructor; [apply Hp; rewrite <- Hl, Hl'; reflexivity|constructor]
     |intros m Hm; rewrite Hl1 in Hm; unfold afterSend in Hm;
      destruct (next (In_ n' tz)) as [n1|] eqn:Hn1; simpl in Hm;
      [injection Hm as <-; apply (next_Loc _ _ Hn1)|discriminate]]
    |rewrite Hnil; split; [constructor|];
     intros m Hm; destruct Hq as [Hq|Hq]; rewrite Hq in Hm; [|discriminate];
     rewrite Hl in Hm; apply Hp; exact Hm].
Qed.

Lemma run_ticks_zone (inputs : list Input) :
  forall c c' evs,
    (forall n, pending (loop c) = Some n -> Loc n = tz) ->
    run next tz c inputs = Some (c', evs) ->
    Forall (fun t => Loc t = tz) (ticks evs).
Proof.
  induction inputs as [|i inputs IH]; intros c c' evs Hp Hrun.
  - injection Hrun as <- <-. constructor.
  - apply run_cons in Hrun as (c1 & evs1 & evs2 & Hstep & Hrest & ->).
    destruct (step_ticks_zone _ _ _ _ Hp Hstep) as [H1 Hp1].
    rewrite ticks_app. apply Forall_app. split; [exact H1|].
    exact (IH _ _ _ Hp1 Hrest).
Qed.

End SchedulerZone.

(** X16: with a [ScheduledTicker] as the provider, every tick the loop
    delivers from its start on is a time in the zone of the scheduler. *)
Theorem scheduled_ticks_are_in_the_zone :
  forall (s : ScheduledTicker) (fuel : nat) (tz : Location)
         (c c' : Config) (inputs : list Input) (evs : list Event),
    loop c = Starting ->
    run (Next fuel s) tz c inputs = Some (c', evs) ->
    Forall (fun t => Loc t = tz) (ticks evs).
Proof.
  intros s fuel tz c c' inputs evs Hl Hrun.
  apply (run_ticks_zone (Next fuel s) tz) with (inputs := inputs) (c := c) (c' := c').
  - intros a b H. apply (Next_whole_local s fuel a b H).
  - rewrite Hl. discriminate.
  - exact Hrun.
Qed.

Lemma scheduled_ticks_are_in_the_zone_witness :
  let s := mkScheduledTicker [0; 30] [] [] [] [] [] in
  let tz := mkLocation 3600 [] in
  let c := mkConfig false Starting in
  let inputs := [Now 0; Now 30000000000; Receive; Now 70000000000; Receive] in
  let c' := mkConfig false (AtUntil (mkTime 90000000000 tz)) in
  let evs := [Tick (mkTime 30000000000 tz); Tick (mkTime 60000000000 tz)] in
  run (Next 5 s) tz c inputs = Some (c', evs)
  /\ Forall (fun t => Loc t = tz) (ticks evs).
Proof.
  intros s tz c inputs c' evs. split; [vm_compute; reflexivity|].
  apply (scheduled_ticks_are_in_the_zone s 5 tz c c' inputs evs);
    [reflexivity|vm_compute; reflexivity].
Defined.

(** ** Schedules that no date meets *)

Lemma Day_of_in_month (t : Time) :
  1 <= Day_of t <= daysIn (Year_of t) (Month_of t).
Proof.
  unfold Day_of, Year_of, Month_of, Date_of.
  pose proof (civil_spec (localDays t)) as H.
  destruct (civil (localDays t)) as [[y m] d]. simpl. tauto.
Qed.

(** X17: [Next] does not return for a schedule no date meets. When the
    ticker lists months and days of the month, and every listed day is
    beyond the end of every listed month (day 30 or 31 of February, day 31
    of a month of 30 days), the loop of [Next] ends with no amount of
    fuel: the Go function loops for ever. [NewScheduledTicker] accepts
    such a specification. *)
Theorem impossible_date_never_returns :
  forall (s : ScheduledTicker) (fuel : nat) (t : Time),
    months s <> [] -> days s <> [] ->
    (forall m d y, In m (months s) -> In d (days s) -> daysIn y m < d) ->
    Next fuel s t = None.
Proof.
  intros s fuel t Hm Hd Himp.
  destruct (Next fuel s t) as [r|] eqn:Hr; [exfalso|reflexivity].
  unfold Next in Hr.
  destruct (nextLoop_matches s fuel _ r Hr) as (Hmo & _ & Hda & _).
  unfold matchMonth in Hmo. unfold matchDay in Hda.
  apply matches_spec in Hmo as [|Hmo]; [contradiction|].
  apply matches_spec in Hda as [|Hda]; [contradiction|].
  pose proof (Himp _ _ (Year_of r) Hmo Hda).
  pose proof (Day_of_in_month r). lia.
Qed.

Lemma impossible_date_never_returns_witness :
  NewScheduledTicker "0 0 0 30,31 feb"
  = inl (mkScheduledTicker [0] [0] [0] [30; 31] [February] [])
  /\ Next 1000 (mkScheduledTicker [0] [0] [0] [30; 31] [February] [])
       (utc 2020 1 1 0 0 0) = None.
Proof.
  split; [vm_compute; reflexivity|].
  apply (impossible_date_never_returns
           (mkScheduledTicker [0] [0] [0] [30; 31] [February] []) 1000
           (utc 2020 1 1 0 0 0)).
  - discriminate.
  - discriminate.
  - intros m d y [<-|[]] Hd. unfold daysIn.
    destruct (isLeap y); simpl in Hd |- *;
      destruct Hd as [<-|[<-|[]]]; vm_compute; reflexivity.
Defined.
